(** * A shallow embedding of [common/thread_pool.py]

    The module defines [TaskStatus], [TaskResult] and the class
    [MultiThreadProcessorWithResult]: a batch of tasks is submitted to a
    [ThreadPoolExecutor], every task runs under [_run_with_retry], and
    the main thread collects the futures with [as_completed].

    Conventions of the embedding:
    - Python [int] is [Z]; task ids and list positions are [nat].
    - Clock readings ([time.time()]) and durations are integer
      milliseconds, so [0.1] seconds is [100]; the clock never runs
      backwards.
    - Python objects that are shared by reference (the [TaskResult]
      records and the [dict] that indexes them) live in a store and are
      addressed by locations.  A [dict] is a [gmap]: what the code
      computes from [values()] (counts, a maximum, a minimum) does not
      depend on the order of iteration.
    - The threads of one [run()] call are interleaved by an explicit
      list of scheduler events: which pool thread or the main thread
      moves next, and how far the clock advances.  Every definition is
      executable.
    - A call of [process] ends: it returns a value or raises an
      instance of [Exception].  A call that never returns, and an
      exception that is no instance of [Exception] ([KeyboardInterrupt],
      [SystemExit]), are outside the embedding.  What the successive
      calls for a task do is given with the task.
    - From [concurrent.futures] the embedding takes: the pool refuses
      [max_workers <= 0] with [ValueError]; at most [max_workers] work
      items run at a time; [as_completed] yields each future once, when
      it is finished; [Future.result] returns or re-raises what the
      work item returned or raised. *)

From stdpp Require Import gmap strings list fin_maps.
From Stdlib Require QArith.

Open Scope Z_scope.

(** ** Data model *)

(** [class TaskStatus]: six string constants used as an enumeration. *)
Inductive TaskStatus :=
  | PENDING | RUNNING | COMPLETED | FAILED | TIMEOUT | RETRYING.

Definition TaskStatus_str (st : TaskStatus) : string :=
  match st with
  | PENDING => "等待中"
  | RUNNING => "执行中"
  | COMPLETED => "已完成"
  | FAILED => "失败"
  | TIMEOUT => "超时"
  | RETRYING => "重试中"
  end.

Global Instance TaskStatus_eq_dec : EqDecision TaskStatus.
Proof. solve_decision. Defined.

Definition TaskStatus_code (st : TaskStatus) : nat :=
  match st with
  | PENDING => 0 | RUNNING => 1 | COMPLETED => 2
  | FAILED => 3 | TIMEOUT => 4 | RETRYING => 5
  end%nat.

Definition TaskStatus_of_code (n : nat) : option TaskStatus :=
  match n with
  | 0 => Some PENDING | 1 => Some RUNNING | 2 => Some COMPLETED
  | 3 => Some FAILED | 4 => Some TIMEOUT | 5 => Some RETRYING
  | _ => None
  end%nat.

Global Program Instance TaskStatus_countable : Countable TaskStatus :=
  inj_countable TaskStatus_code TaskStatus_of_code _.
Next Obligation. by intros []. Qed.

(** Python values a task can produce; [VNone] is [None]. *)
Inductive value :=
  | VNone
  | VInt (z : Z)
  | VStr (s : string).

Global Instance value_eq_dec : EqDecision value.
Proof. solve_decision. Defined.

(** Exceptions, by the two classes the handlers of [run] tell apart:
    instances of [TimeoutError] and every other instance of
    [Exception].  The string is what [str(e)] returns.  A work function
    signals failure with an instance of [Exception]; [KeyboardInterrupt]
    and [SystemExit] are outside the embedding. *)
Inductive exn :=
  | PyTimeoutError (msg : string)
  | PyException (msg : string).

Definition exn_str (e : exn) : string :=
  match e with PyTimeoutError m | PyException m => m end.

(** How a call settles: [return v] or [raise e]. *)
Inductive outcome :=
  | Returns (v : value)
  | Raises (e : exn).

(** One call of [self.process(task)]: how long it takes and how it
    settles. *)
Record Attempt := mkAttempt { duration : Z; settles : outcome }.

(** A task is opaque to the engine; what the engine observes is the
    behaviour of [process(task)] at its successive calls, numbered from
    [0] by the attempt counter of [_run_with_retry]. *)
Definition Task := Z → Attempt.

Definition loc := nat.

(** [class TaskResult]. *)
Record TaskResult := mkTaskResult {
  task_id : nat;
  original_task : Task;
  result : value;
  status : TaskStatus;
  error_message : option string;
  start_time : option Z;
  end_time : option Z;
  retry_count : Z
}.

(** [TaskResult.__init__]. *)
Definition TaskResult_init (i : nat) (t : Task) : TaskResult :=
  {| task_id := i; original_task := t; result := VNone; status := PENDING;
     error_message := None; start_time := None; end_time := None;
     retry_count := 0 |}.

(** Attribute assignments [task_result.<field> = x]. *)
Definition set_result (v : value) (r : TaskResult) : TaskResult :=
  mkTaskResult (task_id r) (original_task r) v (status r) (error_message r)
    (start_time r) (end_time r) (retry_count r).
Definition set_status (st : TaskStatus) (r : TaskResult) : TaskResult :=
  mkTaskResult (task_id r) (original_task r) (result r) st (error_message r)
    (start_time r) (end_time r) (retry_count r).
Definition set_error_message (m : option string) (r : TaskResult) : TaskResult :=
  mkTaskResult (task_id r) (original_task r) (result r) (status r) m
    (start_time r) (end_time r) (retry_count r).
Definition set_start_time (t : option Z) (r : TaskResult) : TaskResult :=
  mkTaskResult (task_id r) (original_task r) (result r) (status r)
    (error_message r) t (end_time r) (retry_count r).
Definition set_end_time (t : option Z) (r : TaskResult) : TaskResult :=
  mkTaskResult (task_id r) (original_task r) (result r) (status r)
    (error_message r) (start_time r) t (retry_count r).
Definition set_retry_count (n : Z) (r : TaskResult) : TaskResult :=
  mkTaskResult (task_id r) (original_task r) (result r) (status r)
    (error_message r) (start_time r) (end_time r) n.

(** Truthiness of an [Optional[float]]: [None] and [0.0] are falsy. *)
Definition truthy (t : option Z) : bool :=
  match t with Some z => negb (z =? 0) | None => false end.

(** [TaskResult.execution_time]. *)
Definition execution_time (r : TaskResult) : option Z :=
  if truthy (start_time r) && truthy (end_time r)
  then match start_time r, end_time r with
       | Some a, Some b => Some (b - a)
       | _, _ => None
       end
  else None.

(** ** The object store *)

(** [dicts] holds the [Dict[int, TaskResult]] objects (a dict maps a task
    id to the location of a record), [objs] the [TaskResult] objects. *)
Record Store := mkStore {
  dicts : gmap loc (gmap nat loc);
  objs : gmap loc TaskResult;
  next_loc : loc
}.

Definition alloc_dict (d : gmap nat loc) (h : Store) : loc * Store :=
  (next_loc h, mkStore (<[next_loc h := d]> (dicts h)) (objs h) (S (next_loc h))).

Definition alloc_obj (r : TaskResult) (h : Store) : loc * Store :=
  (next_loc h, mkStore (dicts h) (<[next_loc h := r]> (objs h)) (S (next_loc h))).

Definition write_obj (l : loc) (r : TaskResult) (h : Store) : Store :=
  mkStore (dicts h) (<[l := r]> (objs h)) (next_loc h).

Definition write_dict (l : loc) (d : gmap nat loc) (h : Store) : Store :=
  mkStore (<[l := d]> (dicts h)) (objs h) (next_loc h).

(** The attributes of [self].  [self.lock] guards the increment of
    [completed_tasks], which only the main thread performs. *)
Record Processor := mkProcessor {
  max_workers : Z;
  retry : Z;
  timeout : Z;
  task_results : loc;
  total_tasks : Z;
  completed_tasks : Z
}.

(** ** Threads of one [run()] call *)

(** Calls a worker makes while it runs a task: [self.process(task)] at
    attempt [a], and [time.sleep(d)]. *)
Inductive Effect :=
  | Process (a : Z)
  | Sleep (d : Z).

(** Where the work item of a task stands.  [WQueued]: submitted, not yet
    picked up.  [WAttempt a]: in [_run_with_retry], at the head of the
    [for] loop with the next value [a].  [WBusy a u]: inside
    [self.process(task)] of attempt [a], which returns or raises at clock
    [u].  [WSleep a u]: inside [time.sleep] after attempt [a] failed,
    until clock [u].  [WDone o]: the future is finished with [o]. *)
Inductive WorkerPC :=
  | WQueued
  | WAttempt (a : Z)
  | WBusy (a : Z) (u : Z)
  | WSleep (a : Z) (u : Z)
  | WDone (o : outcome).

Record Worker := mkWorker { pc : WorkerPC; effects : list Effect }.

(** The main thread inside [run]. *)
Inductive MainPC :=
  | MIdle
  | MCollecting
  | MReturned (rs : list value)
  | MRaised (e : exn).

Record State := mkState {
  self : Processor;
  store : Store;
  now : Z;
  workers : list Worker;
  yielded : list nat;
  results : list value;
  main : MainPC
}.

(** A call either returns or raises. *)
Inductive Res (A : Type) :=
  | Ok (a : A)
  | Raise (e : exn).
Arguments Ok {A} a.
Arguments Raise {A} e.

Definition with_self (p : Processor) (s : State) : State :=
  mkState p (store s) (now s) (workers s) (yielded s) (results s) (main s).
Definition with_store (h : Store) (s : State) : State :=
  mkState (self s) h (now s) (workers s) (yielded s) (results s) (main s).
Definition with_now (t : Z) (s : State) : State :=
  mkState (self s) (store s) t (workers s) (yielded s) (results s) (main s).
Definition with_workers (ws : list Worker) (s : State) : State :=
  mkState (self s) (store s) (now s) ws (yielded s) (results s) (main s).
Definition with_main (m : MainPC) (s : State) : State :=
  mkState (self s) (store s) (now s) (workers s) (yielded s) (results s) m.

(** ** [MultiThreadProcessorWithResult.__init__]

    The three arguments are stored as given, [self.task_results] is a
    new empty dict, the two counters are [0].  The body has no [raise]
    and calls nothing that raises. *)
Definition init_state (mw r t : Z) (h : Store) (clock : Z) : State :=
  let '(ld, h') := alloc_dict ∅ h in
  mkState (mkProcessor mw r t ld 0 0) h' clock [] [] [] MIdle.

Definition init (mw r t : Z) (h : Store) (clock : Z) : Res State :=
  Ok (init_state mw r t h clock).

(** ** [run], up to the creation of the pool *)

(** [{i: TaskResult(i, task) for i, task in enumerate(tasks)}], the
    enumeration starting at [i]: one new record per task, in input
    order. *)
Fixpoint new_records (i : nat) (ts : list Task) (h : Store)
  : gmap nat loc * Store :=
  match ts with
  | [] => (∅, h)
  | t :: ts' =>
      let '(l, h1) := alloc_obj (TaskResult_init i t) h in
      let '(d, h2) := new_records (S i) ts' h1 in
      (<[i := l]> d, h2)
  end.

(** [ThreadPoolExecutor(max_workers=n)] raises [ValueError] when
    [n <= 0]. *)
Definition ThreadPoolExecutor_error : exn :=
  PyException "max_workers must be greater than 0".

(** Lines 92-109 of [run]: the counters, the records, the pool, and the
    submission of one work item per task. *)
Definition run_begin (tasks : list Task) (s : State) : State :=
  let '(d, h1) := new_records 0 tasks (store s) in
  let '(ld, h2) := alloc_dict d h1 in
  let p := mkProcessor (max_workers (self s)) (retry (self s))
             (timeout (self s)) ld (Z.of_nat (length tasks)) 0 in
  if decide (max_workers (self s) ≤ 0)
  then mkState p h2 (now s) [] [] [] (MRaised ThreadPoolExecutor_error)
  else mkState p h2 (now s)
         (replicate (length tasks) (mkWorker WQueued [])) [] [] MCollecting.

(** ** The steps of the threads *)

(** [self.task_results[task_id]], then the object it refers to. *)
Definition record_loc (s : State) (i : nat) : option loc :=
  d ← dicts (store s) !! task_results (self s); d !! i.

Definition record_of (s : State) (i : nat) : option TaskResult :=
  l ← record_loc s i; objs (store s) !! l.

(** A work item occupies a pool thread from the moment it is picked up
    until its future is finished. *)
Definition occupies (w : Worker) : bool :=
  match pc w with
  | WAttempt _ | WBusy _ _ | WSleep _ _ => true
  | WQueued | WDone _ => false
  end.

Definition busy_workers (s : State) : Z :=
  Z.of_nat (length (filter (λ w, occupies w = true) (workers s))).

(** [time.sleep(0.1 * (attempt + 1))], in milliseconds. *)
Definition backoff_delay (attempt : Z) : Z := 100 * (attempt + 1).

(** One step of the pool thread that runs task [i] ([_run_with_retry]).
    [None]: the thread cannot move now. *)
Definition worker_step (i : nat) (s : State) : option State :=
  w ← workers s !! i;
  l ← record_loc s i;
  r ← objs (store s) !! l;
  let continue (r' : TaskResult) (w' : Worker) :=
    Some (with_workers (<[i := w']> (workers s))
            (with_store (write_obj l r' (store s)) s)) in
  match pc w with
  | WQueued =>
      (* a pool thread picks the item up; lines 154-157 *)
      if decide (busy_workers s < max_workers (self s))
      then continue (set_status RUNNING (set_start_time (Some (now s)) r))
                    (mkWorker (WAttempt 0) (effects w))
      else None
  | WAttempt a =>
      if decide (a < retry (self s) + 1)
      then (* the loop body up to the call of process; lines 161-166 *)
        let r' := if decide (0 < a)
                  then set_retry_count a (set_status RETRYING r) else r in
        continue r'
          (mkWorker (WBusy a (now s + duration (original_task r a)))
                    (effects w ++ [Process a]))
      else (* range exhausted: the function falls off its end *)
        continue r (mkWorker (WDone (Returns VNone)) (effects w))
  | WBusy a u =>
      if decide (u ≤ now s)
      then match settles (original_task r a) with
           | Returns v => continue r (mkWorker (WDone (Returns v)) (effects w))
           | Raises e =>
               if decide (a < retry (self s))
               then continue r
                      (mkWorker (WSleep a (now s + backoff_delay a))
                                (effects w ++ [Sleep (backoff_delay a)]))
               else continue r (mkWorker (WDone (Raises e)) (effects w))
           end
      else None
  | WSleep a u =>
      if decide (u ≤ now s)
      then continue r (mkWorker (WAttempt (a + 1)) (effects w))
      else None
  | WDone _ => None
  end.

(** ** The futures, as the main thread sees them *)

(** The state of the future of a work item. *)
Inductive FutureState :=
  | FPending
  | FRunning
  | FFinished (o : outcome).

Definition Future_state (w : Worker) : FutureState :=
  match pc w with
  | WQueued => FPending
  | WAttempt _ | WBusy _ _ | WSleep _ _ => FRunning
  | WDone o => FFinished o
  end.

(** The outcome of a finished future.  [as_completed] yields a future
    once it is finished, and each future once. *)
Definition Future_done (w : Worker) : option outcome :=
  match Future_state w with FFinished o => Some o | _ => None end.

(** A call of [future.result(timeout=t)]: on a finished future it returns
    the value or raises the stored exception at once; on any other
    future the caller waits, for [t] at most, and the call raises
    [TimeoutError] when the wait ends with the future unfinished. *)
Inductive ResultCall :=
  | Settled (o : outcome)
  | Waits (t : Z).

Definition Future_result (w : Worker) (t : Z) : ResultCall :=
  match Future_state w with
  | FFinished o => Settled o
  | FPending | FRunning => Waits t
  end.

Definition timeout_message : string := "任务执行超时".

(** The [try]/[except] of the loop body (lines 116-130): the record
    after it and the element appended to [results]. *)
Definition classify (o : outcome) (r : TaskResult) : TaskResult * value :=
  match o with
  | Returns v => (set_status COMPLETED (set_result v r), v)
  | Raises (PyTimeoutError _) =>
      (set_error_message (Some timeout_message) (set_status TIMEOUT r), VNone)
  | Raises (PyException m) =>
      (set_error_message (Some m) (set_status FAILED r), VNone)
  end.

(** One iteration of [for future in as_completed(...)], for the future
    of task [i] (lines 112-135).  The iterator hands out a finished
    future that it has not handed out before; the body then calls
    [future.result(timeout=self.timeout)]. *)
Definition collect_step (i : nat) (s : State) : option State :=
  match main s with
  | MCollecting =>
      if decide (i ∈ yielded s) then None else
      w ← workers s !! i;
      _ ← Future_done w;
      l ← record_loc s i;
      r ← objs (store s) !! l;
      match Future_result w (timeout (self s)) with
      | Settled o =>
          let '(r1, x) := classify o r in
          let r2 := set_end_time (Some (now s)) r1 in
          let p := self s in
          Some (mkState
                  (mkProcessor (max_workers p) (retry p) (timeout p)
                     (task_results p) (total_tasks p) (completed_tasks p + 1))
                  (write_obj l r2 (store s)) (now s) (workers s)
                  (yielded s ++ [i]) (results s ++ [x]) MCollecting)
      | Waits _ => None
      end
  | _ => None
  end.

(** The loop is over when every future has been yielded; the pool is
    shut down and [run] returns [results] (lines 137-139). *)
Definition return_step (s : State) : option State :=
  match main s with
  | MCollecting =>
      if decide (length (yielded s) = length (workers s))
      then Some (with_main (MReturned (results s)) s)
      else None
  | _ => None
  end.

(** What the scheduler and the clock decide. *)
Inductive Event :=
  | Tick (d : Z)
  | Work (i : nat)
  | Collect (i : nat)
  | Return.

Definition step (e : Event) (s : State) : option State :=
  match e with
  | Tick d => if decide (0 ≤ d) then Some (with_now (now s + d) s) else None
  | Work i => worker_step i s
  | Collect i => collect_step i s
  | Return => return_step s
  end.

Fixpoint exec (es : list Event) (s : State) : option State :=
  match es with
  | [] => Some s
  | e :: es' => s' ← step e s; exec es' s'
  end.

(** ** [get_task_status] *)

(** [self.task_results.copy()]: a new dict object with the same items,
    that is, the same references to the same records. *)
Definition get_task_status (s : State) : option (loc * State) :=
  d ← dicts (store s) !! task_results (self s);
  let '(l, h) := alloc_dict d (store s) in
  Some (l, with_store h s).

(** What a caller can do with the mapping it was handed: assignments and
    removals on the dict itself, and attribute assignments on a record
    reached through it. *)
Inductive Mutation :=
  | DictSetItem (k : nat) (l : loc)
  | DictDelItem (k : nat)
  | DictClear
  | RecordSetAttr (k : nat) (f : TaskResult → TaskResult).

(** The mutation applied through the reference [snap]; [None] is a
    [KeyError]. *)
Definition mutate (snap : loc) (m : Mutation) (s : State) : option State :=
  d ← dicts (store s) !! snap;
  match m with
  | DictSetItem k l => Some (with_store (write_dict snap (<[k := l]> d) (store s)) s)
  | DictDelItem k =>
      match d !! k with
      | Some _ => Some (with_store (write_dict snap (delete k d) (store s)) s)
      | None => None
      end
  | DictClear => Some (with_store (write_dict snap ∅ (store s)) s)
  | RecordSetAttr k f =>
      l ← d !! k;
      r ← objs (store s) !! l;
      Some (with_store (write_obj l (f r) (store s)) s)
  end.

(** The task state the engine owns: what [self.task_results] maps each
    task id to. *)
Definition engine_tasks (s : State) : option (gmap nat TaskResult) :=
  match dicts (store s) !! task_results (self s) with
  | Some d => Some (omap (λ l : loc, objs (store s) !! l) d)
  | None => None
  end.

(** ** [get_statistics] *)

(** Floats that may be infinite. *)
Inductive pyfloat :=
  | Fin (z : Z)
  | PInf
  | NInf.

Global Instance pyfloat_eq_dec : EqDecision pyfloat.
Proof. solve_decision. Defined.

Definition pyfloat_leb (x y : pyfloat) : bool :=
  match x, y with
  | NInf, _ => true
  | _, PInf => true
  | Fin a, Fin b => a <=? b
  | _, _ => false
  end.

Definition pyfloat_min (x y : pyfloat) : pyfloat :=
  if pyfloat_leb x y then x else y.

(** [a - y] for a finite [a]. *)
Definition pyfloat_rsub (a : Z) (y : pyfloat) : pyfloat :=
  match y with
  | Fin b => Fin (a - b)
  | PInf => NInf
  | NInf => PInf
  end.

(** [r.end_time or 0] and [r.start_time or float('inf')]. *)
Definition end_or_0 (r : TaskResult) : Z :=
  match end_time r with
  | Some z => if z =? 0 then 0 else z
  | None => 0
  end.

Definition start_or_inf (r : TaskResult) : pyfloat :=
  match start_time r with
  | Some z => if z =? 0 then PInf else Fin z
  | None => PInf
  end.

(** [self.task_results.values()], records resolved through the store. *)
Definition dict_values (s : State) : option (list TaskResult) :=
  d ← dicts (store s) !! task_results (self s);
  mapM (λ kl, objs (store s) !! kl.2) (map_to_list d).

(** The loop that fills [statuses]. *)
Definition count_statuses (rs : list TaskResult) : gmap TaskStatus Z :=
  foldl (λ acc r, <[status r := default 0 (acc !! status r) + 1]> acc) ∅ rs.

Inductive Statistics :=
  | NoTasks
  | Stats (total completed : Z) (by_status : gmap TaskStatus Z)
          (total_time : pyfloat).

Definition get_statistics (s : State) : option Statistics :=
  d ← dicts (store s) !! task_results (self s);
  if decide ((d : gmap nat loc) = ∅) then Some NoTasks else
  rs ← dict_values s;
  match rs with
  | [] => None
  | r :: rs' =>
      let total_time :=
        pyfloat_rsub (foldl Z.max (end_or_0 r) (end_or_0 <$> rs'))
          (foldl pyfloat_min (start_or_inf r) (start_or_inf <$> rs')) in
      Some (Stats (total_tasks (self s)) (completed_tasks (self s))
              (count_statuses (r :: rs'))
              (if decide (total_time ≠ PInf) then total_time else Fin 0))
  end.

(** The sum of the counts of a breakdown. *)
Definition sum_counts (m : gmap TaskStatus Z) : Z :=
  map_fold (λ _ c acc, c + acc) 0 m.

(** ** Vocabulary of the specifications *)

(** The attempts [0 .. a-1] of the task all raised. *)
Definition failed_before (t : Task) (a : Z) : Prop :=
  ∀ b, 0 ≤ b < a → ∃ e, settles (t b) = Raises e.

(** The calls of a worker that went through [a] failed attempts: each
    attempt is followed by its backoff sleep. *)
Definition attempts_log (a : Z) : list Effect :=
  flat_map (λ b : nat, [Process (Z.of_nat b); Sleep (backoff_delay (Z.of_nat b))])
    (seq 0 (Z.to_nat a)).

(** The time [a] failed attempts take at least: every attempt lasts its
    duration and is followed by its backoff sleep. *)
Definition elapsed (t : Task) (a : Z) : Z :=
  foldr (λ (b : nat) acc,
           duration (t (Z.of_nat b)) + backoff_delay (Z.of_nat b) + acc)
    0 (seq 0 (Z.to_nat a)).

(** The time a call of [_run_with_retry] that settles at attempt [k]
    takes at least. *)
Definition run_time (t : Task) (k : Z) : Z := elapsed t k + duration (t k).

(** [x] after the start of the task is no later than [bound]. *)
Definition time_lb (r : TaskResult) (x bound : Z) : Prop :=
  ∀ ts, start_time r = Some ts → ts + x ≤ bound.

(** The status [_run_with_retry] leaves on the record while attempt [a]
    is under way. *)
Definition running_status (a : Z) : TaskStatus :=
  if decide (0 < a) then RETRYING else RUNNING.

(** The element [run] appends to its output for a finished future. *)
Definition output_value (o : outcome) : value :=
  match o with Returns v => v | Raises _ => VNone end.

(** The fields only the main thread writes are still as [__init__] left
    them. *)
Definition uncollected (r : TaskResult) : Prop :=
  result r = VNone ∧ error_message r = None ∧ end_time r = None.

Definition started (t0 nw : Z) (r : TaskResult) : Prop :=
  ∃ ts, start_time r = Some ts ∧ t0 ≤ ts ≤ nw.

(** How [_run_with_retry] with limit [R] can have settled with [o] after
    [k] retries and the calls [log]. *)
Definition settled (R : Z) (t : Task) (o : outcome) (k : Z)
    (log : list Effect) : Prop :=
  match o with
  | Returns v =>
      (0 ≤ k ≤ R ∧ failed_before t k ∧ settles (t k) = Returns v
       ∧ log = attempts_log k ++ [Process k])
      ∨ (R < 0 ∧ v = VNone ∧ k = 0 ∧ log = [])
  | Raises e =>
      0 ≤ k ∧ k = R ∧ failed_before t k ∧ settles (t k) = Raises e
      ∧ log = attempts_log k ++ [Process k]
  end.

(** What the main thread has written on a collected record. *)
Definition collected (o : outcome) (r : TaskResult) : Prop :=
  match o with
  | Returns v => status r = COMPLETED ∧ result r = v ∧ error_message r = None
  | Raises (PyTimeoutError _) =>
      status r = TIMEOUT ∧ result r = VNone
      ∧ error_message r = Some timeout_message
  | Raises (PyException m) =>
      status r = FAILED ∧ result r = VNone ∧ error_message r = Some m
  end.

(** The record [r] of a task [t], against the position of its worker;
    [y] tells whether the future has been yielded to the main thread. *)
Definition task_inv (R t0 nw : Z) (t : Task) (w : Worker) (y : bool)
    (r : TaskResult) : Prop :=
  match pc w, y with
  | WQueued, false =>
      status r = PENDING ∧ start_time r = None ∧ retry_count r = 0
      ∧ effects w = [] ∧ uncollected r
  | WAttempt a, false =>
      0 ≤ a ∧ (a = 0 ∨ a ≤ R) ∧ status r = running_status (a - 1)
      ∧ retry_count r = Z.max 0 (a - 1) ∧ failed_before t a
      ∧ effects w = attempts_log a ∧ started t0 nw r ∧ uncollected r
      ∧ time_lb r (elapsed t a) nw
  | WBusy a u, false =>
      0 ≤ a ≤ R ∧ status r = running_status a ∧ retry_count r = a
      ∧ failed_before t a ∧ effects w = attempts_log a ++ [Process a]
      ∧ started t0 nw r ∧ uncollected r
      ∧ time_lb r (run_time t a) u
  | WSleep a u, false =>
      0 ≤ a < R ∧ status r = running_status a ∧ retry_count r = a
      ∧ failed_before t (a + 1) ∧ effects w = attempts_log (a + 1)
      ∧ started t0 nw r ∧ uncollected r
      ∧ time_lb r (elapsed t (a + 1)) u
  | WDone o, false =>
      settled R t o (retry_count r) (effects w)
      ∧ status r = running_status (retry_count r)
      ∧ started t0 nw r ∧ uncollected r
      ∧ (R < 0 ∨ time_lb r (run_time t (retry_count r)) nw)
  | WDone o, true =>
      settled R t o (retry_count r) (effects w) ∧ collected o r
      ∧ ∃ ts te, start_time r = Some ts ∧ end_time r = Some te
                 ∧ t0 ≤ ts ≤ te ∧ te ≤ nw
                 ∧ (R < 0 ∨ ts + run_time t (retry_count r) ≤ te)
  | _, true => False
  end.

(** The states of a [run(tasks)] call that started at clock [t0] on a
    processor configured with [mw], [R] and [T]. *)
Record Inv (tasks : list Task) (mw R T t0 : Z) (s : State) : Prop := mkInv {
  inv_max_workers : max_workers (self s) = mw;
  inv_retry : retry (self s) = R;
  inv_timeout : timeout (self s) = T;
  inv_total : total_tasks (self s) = Z.of_nat (length tasks);
  inv_completed : completed_tasks (self s) = Z.of_nat (length (yielded s));
  inv_now : t0 ≤ now s;
  inv_fresh : (task_results (self s) < next_loc (store s))%nat;
  inv_dict : ∃ (base : nat) (d : gmap nat loc),
      dicts (store s) !! task_results (self s) = Some d
      ∧ (∀ i : nat, d !! i = if decide (i < length tasks)%nat
                             then Some (base + i)%nat else None)
      ∧ ∀ (i : nat) t, tasks !! i = Some t →
          ∃ r, objs (store s) !! (base + i)%nat = Some r
               ∧ task_id r = i ∧ original_task r = t
               ∧ match workers s !! i with
                 | Some w => task_inv R t0 (now s) t w
                               (bool_decide (i ∈ yielded s)) r
                 | None => r = TaskResult_init i t
                 end;
  inv_yielded : NoDup (yielded s);
  inv_results :
    Forall2 (λ (i : nat) x, ∃ w o, workers s !! i = Some w ∧ pc w = WDone o
                                   ∧ x = output_value o)
      (yielded s) (results s);
  inv_main : match main s with
             | MIdle => False
             | MCollecting =>
                 0 < mw ∧ length (workers s) = length tasks
             | MReturned rs =>
                 0 < mw ∧ length (workers s) = length tasks
                 ∧ rs = results s ∧ length (yielded s) = length tasks
             | MRaised e =>
                 mw ≤ 0 ∧ workers s = [] ∧ e = ThreadPoolExecutor_error
             end
}.

(** [s] is a state of the call [run(tasks)] made in state [s0]. *)
Definition reachable (tasks : list Task) (s0 s : State) : Prop :=
  ∃ es, exec es (run_begin tasks s0) = Some s.

(** [run] has returned. *)
Definition returned (s : State) : Prop := ∃ rs, main s = MReturned rs.

(** The futures the main thread collects along a schedule, in order. *)
Definition collected_ids (es : list Event) : list nat :=
  omap (λ e, match e with Collect i => Some i | _ => None end) es.

(** ** Sample tasks and processors *)

Definition store0 : Store := mkStore ∅ ∅ 0%nat.

(** A task whose attempts before the [k]-th raise [e] and the others
    return [v]; every attempt takes [d] milliseconds. *)
Definition succeeds_after (k d : Z) (e : exn) (v : value) : Task :=
  λ a, mkAttempt d (if decide (a < k) then Raises e else Returns v).

Definition always_fails (d : Z) (e : exn) : Task :=
  λ _, mkAttempt d (Raises e).

Definition final_state (es : list Event) (tasks : list Task) (s0 : State) : State :=
  default s0 (exec es (run_begin tasks s0)).

(** The scenario of the timeout: one pool thread, no retry, a timeout of
    10 milliseconds, and one task that takes a second to succeed. *)
Definition slow_task : Task := λ _, mkAttempt 1000 (Returns (VStr "done")).

Definition slow_init : State := init_state 1 0 10 store0 1000.


(** The same state on a processor configured with the timeout [t]. *)
Definition with_timeout (t : Z) (s : State) : State :=
  with_self
    (mkProcessor (max_workers (self s)) (retry (self s)) t
       (task_results (self s)) (total_tasks (self s))
       (completed_tasks (self s))) s.

(** What an output element tells about the record of its task. *)
Definition output_of (r : TaskResult) (x : value) : Prop :=
  (status r = COMPLETED ∧ x = result r)
  ∨ ((status r = FAILED ∨ status r = TIMEOUT) ∧ x = VNone).

(** A bound on the steps a work item still takes. *)
Definition fuel (R : Z) (p : WorkerPC) : nat :=
  match p with
  | WQueued => 3 * Z.to_nat (R + 1) + 3
  | WAttempt a => 3 * Z.to_nat (R + 1 - a) + 2
  | WBusy a _ => 3 * Z.to_nat (R - a) + 4
  | WSleep a _ => 3 * Z.to_nat (R - a) + 3
  | WDone _ => 0
  end.

(** ** Concrete runs *)

(** A processor with two pool threads, two retries and a timeout of ten
    seconds, constructed at clock 1000. *)
Definition demo_init : State := init_state 2 2 10000 store0 1000.

(** Fails once with [ValueError("boom")], then returns [7]. *)
Definition flaky : Task := succeeds_after 1 10 (PyException "boom") (VInt 7).

(** Always raises [ValueError("boom")]. *)
Definition failing : Task := always_fails 10 (PyException "boom").

(** Returns [None] at once. *)
Definition none_task : Task := λ _, mkAttempt 5 (Returns VNone).

(** Always raises a [TimeoutError]. *)
Definition timing_out : Task :=
  always_fails 10 (PyTimeoutError "read timed out").

(** Task 0 through its three attempts and two sleeps, then collected. *)
Definition run_failing : list Event :=
  [Work 0; Work 0; Tick 10; Work 0; Tick 100; Work 0; Work 0; Tick 10; Work 0;
   Tick 200; Work 0; Work 0; Tick 10; Work 0; Collect 0; Return]%nat.

Definition failing_final : State := final_state run_failing [failing] demo_init.

(** Task 0 in the sleep after its first failed attempt. *)
Definition run_to_sleep : list Event := [Work 0; Work 0; Tick 10; Work 0]%nat.

Definition failing_asleep : State :=
  final_state run_to_sleep [failing] demo_init.

(** Task 0 in its second attempt. *)
Definition run_to_retry : list Event :=
  [Work 0; Work 0; Tick 10; Work 0; Tick 100; Work 0; Work 0]%nat.

Definition failing_retrying : State :=
  final_state run_to_retry [failing] demo_init.

(** Two tasks; the second one finishes and is collected first. *)
Definition run_two : list Event :=
  [Work 0; Work 1; Work 0; Work 1; Tick 10; Work 1; Collect 1; Work 0;
   Tick 100; Work 0; Work 0; Tick 10; Work 0; Tick 200; Work 0; Work 0;
   Tick 10; Work 0; Collect 0; Return]%nat.

Definition two_final : State :=
  final_state run_two [failing; none_task] demo_init.

(** Returns [7] after 10 milliseconds. *)
Definition quick : Task := λ _, mkAttempt 10 (Returns (VInt 7)).

Definition mixed_final : State :=
  final_state run_two [failing; quick] demo_init.

(** One retry, and a task that raises [TimeoutError] at both attempts. *)
Definition timing_out_init : State := init_state 1 1 10000 store0 1000.

Definition run_timing_out : list Event :=
  [Work 0; Work 0; Tick 10; Work 0; Tick 100; Work 0; Work 0; Tick 10;
   Work 0; Collect 0; Return]%nat.

Definition timing_out_final : State :=
  final_state run_timing_out [timing_out] timing_out_init.

(** [run([])]. *)
Definition empty_final : State := final_state [Return] [] demo_init.

(** A snapshot taken after [run([failing])] has returned, and an
    attribute assigned through it: [snapshot[0].status = COMPLETED]. *)
Definition snap_state : State := failing_final.

Definition snap_taken : loc * State :=
  default (0%nat, snap_state) (get_task_status snap_state).

Definition snap_mutated : State :=
  default snap_state
    (mutate snap_taken.1 (RecordSetAttr 0 (set_status COMPLETED)) snap_taken.2).

(** ** The rest of the module *)

(** [MultiThreadProcessorWithResult.process], the method of the base
    class: it returns the task itself. *)
Definition process (task : value) : outcome := Returns task.

(** A task of a processor that keeps the base [process]: the call
    number [a] takes [d a] milliseconds. *)
Definition base_task (d : Z → Z) (task : value) : Task :=
  λ a, mkAttempt (d a) (process task).

(** [MyTaskProcessor.process]: the task is a callable without
    arguments, and processing it is calling it.  A callable is given by
    what its successive calls do. *)
Definition MyTaskProcessor_process (task : Z → Attempt) : Task :=
  λ a, task a.

(** [task_process]: sleeps half a second and returns its message. *)
Definition task_process : Z → Attempt :=
  λ _, mkAttempt 500 (Returns (VStr "我是task返回值")).

(** The [NameError] of a call that reads the global [random] while the
    module has not bound it. *)
Definition NameError_random : exn :=
  PyException "name 'random' is not defined".

(** [task_with_error].  The module binds the name [random] only by the
    [import random] under [if __name__ == "__main__"] (line 253), so
    only when it is run as a script: [random_bound] tells whether the
    name is bound when the function is called.  If it is, [draw a] tells
    whether [random.random() < 0.7] at the call number [a] of the task;
    if it is not, every call raises [NameError] at line 247.  The call
    takes [d a] milliseconds. *)
Definition task_with_error (random_bound : bool) (d : Z → Z)
    (draw : Z → bool) : Z → Attempt :=
  λ a, mkAttempt (d a)
         (if random_bound
          then (if draw a then Raises (PyException "随机错误")
                else Returns (VStr "任务成功"))
          else Raises NameError_random).

(** The batch and the processor of the script, which has imported
    [random] before it calls [run]: two [task_process] and three
    [task_with_error], on
    [MyTaskProcessor(max_workers=3, retry=2, timeout=5.0)]. *)
Definition script_tasks (d : nat → Z → Z) (draw : nat → Z → bool) : list Task :=
  MyTaskProcessor_process <$>
    ([task_process; task_process] ++
     ((λ j : nat, task_with_error true (d j) (draw j)) <$> seq 0 3)).

Definition script_init (clock : Z) : State := init_state 3 2 5000 store0 clock.

(** [_report_progress]: the percentage it logs, as an exact quotient;
    the rounding of the float division and of the format [.1f] is left
    out. *)
Definition report_progress (p : Processor) : QArith_base.Q :=
  if decide (0 < total_tasks p)
  then QArith_base.Qmult
         (QArith_base.Qdiv (QArith_base.inject_Z (completed_tasks p))
                           (QArith_base.inject_Z (total_tasks p)))
         (QArith_base.inject_Z 100)
  else QArith_base.inject_Z 0.

(** The statuses [run] leaves on a record once the main thread has
    collected the future of the task. *)
Definition terminal (st : TaskStatus) : bool :=
  match st with
  | COMPLETED | FAILED | TIMEOUT => true
  | PENDING | RUNNING | RETRYING => false
  end.

(** What a dict object of the store maps each key to, for the holder of
    a reference to the dict. *)
Definition dict_view (l : loc) (s : State) : option (gmap nat TaskResult) :=
  match dicts (store s) !! l with
  | Some d => Some (omap (λ l' : loc, objs (store s) !! l') d)
  | None => None
  end.

(** Every location in use was handed out by the allocator. *)
Definition store_wf (h : Store) : Prop :=
  (∀ l d, dicts h !! l = Some d →
     (l < next_loc h)%nat ∧ ∀ (k : nat) l', d !! k = Some l' → (l' < next_loc h)%nat)
  ∧ (∀ l r, objs h !! l = Some r → (l < next_loc h)%nat).

(** The objects that existed at the allocation mark [n] are as they were
    in the store [h]. *)
Definition unchanged_below (n : loc) (h : Store) (s : State) : Prop :=
  ∀ l : loc, (l < n)%nat →
    dicts (store s) !! l = dicts h !! l ∧ objs (store s) !! l = objs h !! l.

(** The dict of the engine and its records were allocated at or after
    the mark [n]. *)
Definition owns_above (n : loc) (s : State) : Prop :=
  (n ≤ task_results (self s))%nat
  ∧ ∃ d, dicts (store s) !! task_results (self s) = Some d
         ∧ ∀ (k : nat) l, d !! k = Some l → (n ≤ l)%nat.



(** How far a record is in its life: waiting, first attempt, a retry, or
    collected by the main thread. *)
Definition status_rank (st : TaskStatus) : Z :=
  match st with
  | PENDING => 0
  | RUNNING => 1
  | RETRYING => 2
  | COMPLETED | FAILED | TIMEOUT => 3
  end.

(** The record [r'] is the record [r] at a later moment of the same
    [run]. *)
Definition advances (r r' : TaskResult) : Prop :=
  task_id r' = task_id r ∧ original_task r' = original_task r
  ∧ retry_count r ≤ retry_count r'
  ∧ (∀ ts, start_time r = Some ts → start_time r' = Some ts)
  ∧ status_rank (status r) ≤ status_rank (status r')
  ∧ (is_Some (end_time r) → r' = r).

(** A batch for a processor that keeps the base [process]: the tasks are
    the values [vs]; call number [a] of task [i] takes [d i a]
    milliseconds. *)
Definition base_tasks (d : nat → Z → Z) (vs : list value) : list Task :=
  imap (λ i v, base_task (d i) v) vs.

(** ** More concrete runs *)

(** The rest of [run_failing] after [run_to_retry]. *)
Definition run_after_retry : list Event :=
  [Tick 10; Work 0; Tick 200; Work 0; Work 0; Tick 10; Work 0; Collect 0;
   Return]%nat.

(** A second call of [run] on the processor of [snap_state], after the
    snapshot [snap_taken]. *)
Definition run_quick : list Event :=
  [Work 0; Work 0; Tick 10; Work 0; Collect 0; Return]%nat.

Definition second_final : State :=
  final_state run_quick [quick] snap_taken.2.

(** A processor with an empty pool, and one with a negative retry
    limit. *)
Definition no_pool_init : State := init_state 0 2 10000 store0 1000.

Definition negative_retry_init : State := init_state 1 (-1) 10000 store0 1000.

(** [run([failing])] on the processor with [retry = -1]: the work item
    is picked up, finds the range of the loop empty, and is collected. *)
Definition run_negative : list Event :=
  [Work 0; Work 0; Collect 0; Return]%nat.

Definition negative_final : State :=
  final_state run_negative [failing] negative_retry_init.





(** The batch [failing; quick] up to the first collection, and after
    it. *)
Definition run_two_first : list Event :=
  [Work 0; Work 1; Work 0; Work 1; Tick 10; Work 1]%nat.

Definition two_before_collect : State :=
  final_state run_two_first [failing; quick] demo_init.

Definition two_after_collect : State :=
  final_state (run_two_first ++ [Collect 1%nat]) [failing; quick] demo_init.

(** The script with calls that take no time and these draws: the first
    [task_with_error] fails at every call, the second one fails once,
    the third one succeeds at once. *)
Definition script_draw (j : nat) (a : Z) : bool :=
  match j with
  | 0%nat => true
  | 1%nat => bool_decide (a < 1)
  | _ => false
  end.

Definition script_batch : list Task := script_tasks (λ _ _, 0) script_draw.

Definition run_script : list Event :=
  [Work 0; Work 1; Work 2; Work 0; Work 1; Work 2; Work 2; Tick 100; Work 2;
   Work 2; Work 2; Tick 200; Work 2; Work 2; Work 2; Work 3; Work 3; Work 3;
   Tick 100; Work 3; Work 3; Work 3; Work 4; Work 4; Work 4; Tick 100;
   Work 0; Work 1; Collect 2; Collect 3; Collect 4; Collect 0; Collect 1;
   Return]%nat.

Definition script_final : State :=
  final_state run_script script_batch (script_init 1000).

(** The slow task run to the end. *)
Definition run_slow : list Event :=
  [Work 0; Work 0; Tick 1000; Work 0; Collect 0; Return]%nat.

Definition slow_final : State := final_state run_slow [slow_task] slow_init.

(** * Properties *)

(** ** The records [run] creates *)

Lemma new_records_spec (ts : list Task) : ∀ (i : nat) (h : Store),
  let dh := new_records i ts h in
  next_loc dh.2 = (next_loc h + length ts)%nat
  ∧ dicts dh.2 = dicts h
  ∧ (∀ l : loc, (l < next_loc h)%nat → objs dh.2 !! l = objs h !! l)
  ∧ (∀ j : nat, dh.1 !! j = if decide (i ≤ j < i + length ts)%nat
                            then Some (next_loc h + (j - i))%nat else None)
  ∧ (∀ (k : nat) t, ts !! k = Some t →
       objs dh.2 !! (next_loc h + k)%nat = Some (TaskResult_init (i + k) t)).
Proof.
  induction ts as [|t ts IH]; intros i h; simpl.
  - repeat split; try (f_equal; lia).
    + intros j. rewrite lookup_empty. case_decide; [lia | done].
    + intros k t Hk. by rewrite lookup_nil in Hk.
  - specialize (IH (S i) (alloc_obj (TaskResult_init i t) h).2).
    simpl in IH. destruct (new_records (S i) ts _) as [d h2] eqn:Hrec.
    simpl in *. destruct IH as (Hn & Hd & Ho & Hl & Hr).
    repeat split.
    + lia.
    + done.
    + intros l Hl'. rewrite Ho by lia. by rewrite lookup_insert_ne by lia.
    + intros j. destruct (decide (i = j)) as [->|Hij].
      * rewrite lookup_insert_eq. case_decide; [f_equal; lia | lia].
      * rewrite lookup_insert_ne by done. rewrite Hl.
        repeat case_decide; try lia; try done. f_equal. lia.
    + intros [|k] t' Hk; simpl in Hk.
      * injection Hk as <-. rewrite Ho by lia.
        replace (next_loc h + 0)%nat with (next_loc h) by lia.
        rewrite lookup_insert_eq. do 2 f_equal. lia.
      * apply Hr in Hk.
        replace (next_loc h + S k)%nat with (S (next_loc h + k)) by lia.
        replace (i + S k)%nat with (S (i + k)) by lia. exact Hk.
Qed.

Lemma attempts_log_0 : attempts_log 0 = [].
Proof. done. Qed.

Lemma attempts_log_succ (a : Z) :
  0 ≤ a →
  attempts_log (a + 1) = attempts_log a ++ [Process a; Sleep (backoff_delay a)].
Proof.
  intros Ha. unfold attempts_log.
  replace (Z.to_nat (a + 1)) with (S (Z.to_nat a)) by lia.
  rewrite seq_S, flat_map_app. simpl. by rewrite Z2Nat.id by done.
Qed.

Lemma elapsed_0 (t : Task) : elapsed t 0 = 0.
Proof. done. Qed.

Lemma elapsed_succ (t : Task) (a : Z) :
  0 ≤ a → elapsed t (a + 1) = elapsed t a + duration (t a) + backoff_delay a.
Proof.
  intros Ha. unfold elapsed.
  replace (Z.to_nat (a + 1)) with (S (Z.to_nat a)) by lia.
  rewrite seq_S, foldr_app. simpl. rewrite Z2Nat.id by done.
  generalize (seq 0 (Z.to_nat a)). intros l.
  induction l as [|b l IH]; simpl; lia.
Qed.

Lemma time_lb_mono (r : TaskResult) (x b b' : Z) :
  b ≤ b' → time_lb r x b → time_lb r x b'.
Proof. intros Hle Hlb ts Hts. specialize (Hlb ts Hts). lia. Qed.

Lemma failed_before_0 (t : Task) : failed_before t 0.
Proof. intros b Hb. lia. Qed.

Lemma failed_before_succ (t : Task) (a : Z) (e : exn) :
  failed_before t a → settles (t a) = Raises e → failed_before t (a + 1).
Proof.
  intros Hf He b Hb. destruct (decide (b = a)) as [->|Hne]; [by eexists|].
  apply Hf. lia.
Qed.

(** The state [run] is in when it starts to collect satisfies the
    invariant. *)
Lemma Inv_run_begin (tasks : list Task) (s0 : State) :
  Inv tasks (max_workers (self s0)) (retry (self s0)) (timeout (self s0))
    (now s0) (run_begin tasks s0).
Proof.
  unfold run_begin.
  pose proof (new_records_spec tasks 0%nat (store s0)) as Hspec. simpl in Hspec.
  destruct (new_records 0 tasks (store s0)) as [d h1] eqn:Hrec. simpl in Hspec.
  destruct Hspec as (Hn & Hd & Ho & Hl & Hr).
  assert (Hdict : ∀ i : nat, d !! i = if decide (i < length tasks)%nat
                                     then Some (next_loc (store s0) + i)%nat
                                     else None).
  { intros i. rewrite Hl. repeat case_decide; try lia; try done. f_equal. lia. }
  simpl. case_decide as Hmw.
  - split; simpl; try done; try lia.
    + exists (next_loc (store s0)), d. rewrite lookup_insert_eq.
      split; [done|]. split; [done|]. intros i t Hi.
      exists (TaskResult_init i t).
      rewrite (Hr _ _ Hi). done.
    + constructor.
  - split; simpl; try done; try lia.
    + exists (next_loc (store s0)), d. rewrite lookup_insert_eq.
      split; [done|]. split; [done|]. intros i t Hi.
      exists (TaskResult_init i t). rewrite (Hr _ _ Hi).
      split; [done|]. split; [done|]. split; [done|].
      rewrite lookup_replicate_2 by (by eapply lookup_lt_Some).
      unfold task_inv, uncollected. simpl. by repeat split.
    + constructor.
    + split; [lia | by rewrite length_replicate].
Qed.

(** ** The invariant is kept by every step *)

Lemma Future_done_pc (w : Worker) (o : outcome) :
  Future_done w = Some o → pc w = WDone o.
Proof.
  unfold Future_done, Future_state. destruct (pc w); try done. by intros [= ->].
Qed.

Lemma Future_done_None (w : Worker) :
  Future_done w = None → ∀ o, pc w ≠ WDone o.
Proof.
  unfold Future_done, Future_state. intros Hd o Hpc. by rewrite Hpc in Hd.
Qed.

(** On a future that [as_completed] yields, [result] does not wait,
    whatever the timeout. *)
Lemma Future_result_done (w : Worker) (o : outcome) (t : Z) :
  Future_done w = Some o → Future_result w t = Settled o.
Proof.
  unfold Future_done, Future_result. destruct (Future_state w); try done.
  by intros [= ->].
Qed.

Lemma started_now_mono (t0 nw nw' : Z) (r : TaskResult) :
  nw ≤ nw' → started t0 nw r → started t0 nw' r.
Proof. intros Hle (ts & ? & ?). exists ts. split; [done | lia]. Qed.

Lemma task_inv_now_mono (R t0 nw nw' : Z) (t : Task) (w : Worker) (y : bool)
    (r : TaskResult) :
  nw ≤ nw' → task_inv R t0 nw t w y r → task_inv R t0 nw' t w y r.
Proof.
  intros Hle. unfold task_inv.
  destruct (pc w), y; try done.
  - intros (? & ? & ? & ? & ? & ? & ? & ? & ?).
    split_and!; eauto using started_now_mono, time_lb_mono; lia.
  - intros (? & ? & ? & ? & ? & ? & ? & ?).
    split_and!; eauto using started_now_mono; lia.
  - intros (? & ? & ? & ? & ? & ? & ? & ?).
    split_and!; eauto using started_now_mono; lia.
  - intros (? & ? & ts & te & ? & ? & ? & ? & ?).
    split_and!; try done. exists ts, te. split_and!; try done; lia.
  - intros (? & ? & ? & ? & [?|?]).
    + split_and!; eauto using started_now_mono.
    + split_and!; eauto using started_now_mono, time_lb_mono.
Qed.

Lemma Inv_tick (tasks : list Task) (mw R T t0 d : Z) (s : State) :
  Inv tasks mw R T t0 s → 0 ≤ d → Inv tasks mw R T t0 (with_now (now s + d) s).
Proof.
  intros [] Hd. split; simpl; try done; try lia.
  destruct inv_dict0 as (base & dd & Hdd & Hl & Hr).
  exists base, dd. split; [done|]. split; [done|].
  intros i t Hi. destruct (Hr i t Hi) as (r & Hobj & Hid & Ht & Hw).
  exists r. split_and!; try done.
  destruct (workers s !! i); [|done].
  eapply task_inv_now_mono; [|done]. lia.
Qed.

(** A worker writes its own record and moves its own work item; nothing
    else changes. *)
Lemma Inv_update_task (tasks : list Task) (mw R T t0 : Z) (s : State)
    (i : nat) (w w' : Worker) (l : loc) (r r' : TaskResult) :
  Inv tasks mw R T t0 s →
  workers s !! i = Some w →
  record_loc s i = Some l →
  objs (store s) !! l = Some r →
  Future_done w = None →
  task_id r' = task_id r →
  original_task r' = original_task r →
  (∀ t y, tasks !! i = Some t → original_task r = t →
          task_inv R t0 (now s) t w y r → task_inv R t0 (now s) t w' y r') →
  Inv tasks mw R T t0
    (with_workers (<[i := w']> (workers s))
       (with_store (write_obj l r' (store s)) s)).
Proof.
  intros [] Hw Hl Hr Hnd Hid Hot Hstep.
  destruct inv_dict0 as (base & d & Hd & Hdl & Hrec).
  unfold record_loc in Hl. rewrite Hd in Hl. simpl in Hl.
  rewrite Hdl in Hl. case_decide as Hlt; [|done]. injection Hl as <-.
  split; simpl; try done.
  - exists base, d. split; [done|]. split; [done|].
    intros j t Hj. destruct (decide (j = i)) as [->|Hne].
    + destruct (Hrec i t Hj) as (r0 & Hobj & Hid0 & Ht0 & Hinv).
      pose proof (eq_trans (eq_sym Hr) Hobj) as [= <-].
      exists r'. rewrite lookup_insert_eq.
      rewrite list_lookup_insert_eq by (by eapply lookup_lt_Some).
      rewrite Hw in Hinv. split_and!; try congruence. by apply Hstep.
    + destruct (Hrec j t Hj) as (r0 & Hobj & Hid0 & Ht0 & Hinv).
      exists r0. rewrite lookup_insert_ne by lia.
      by rewrite list_lookup_insert_ne by done.
  - eapply Forall2_impl; [done|]. intros j x (wj & o & Hwj & Hpc & Hx).
    exists wj, o. split; [|done].
    rewrite list_lookup_insert_ne; [done|]. intros <-.
    rewrite Hw in Hwj. injection Hwj as <-.
    by eapply Future_done_None.
  - rewrite length_insert. revert inv_main0.
    destruct (main s); try done.
    intros (? & Hnil & ?). by rewrite Hnil in Hw.
Qed.

Lemma running_status_nonpos (a : Z) : a ≤ 0 → running_status a = RUNNING.
Proof. intros. unfold running_status. case_decide; [lia | done]. Qed.

Lemma running_status_pos (a : Z) : 0 < a → running_status a = RETRYING.
Proof. intros. unfold running_status. case_decide; [done | lia]. Qed.

(** The transitions of [_run_with_retry], on the record of the task. *)
Section worker_transitions.
Variables (R t0 nw : Z) (t : Task) (y : bool) (r : TaskResult).
Variable ef : list Effect.

Lemma task_inv_start :
  t0 ≤ nw →
  task_inv R t0 nw t (mkWorker WQueued ef) y r →
  task_inv R t0 nw t (mkWorker (WAttempt 0) ef) y
    (set_status RUNNING (set_start_time (Some nw) r)).
Proof.
  unfold task_inv, uncollected. simpl. destruct y; [done|].
  intros Ht0 (Hst & Hs & Hrc & Hef & Hu1 & Hu2 & Hu3).
  split_and!; try done; try lia.
  - apply failed_before_0.
  - exists nw. simpl. split; [done | lia].
  - intros ts [= <-]. rewrite elapsed_0. lia.
Qed.

Lemma task_inv_enter (a : Z) :
  a < R + 1 →
  task_inv R t0 nw t (mkWorker (WAttempt a) ef) y r →
  task_inv R t0 nw t
    (mkWorker (WBusy a (nw + duration (t a))) (ef ++ [Process a])) y
    (if decide (0 < a) then set_retry_count a (set_status RETRYING r) else r).
Proof.
  unfold task_inv, uncollected, started, time_lb, run_time. simpl.
  destruct y; [done|].
  intros Ha (H0 & Hor & Hst & Hrc & Hfb & Hef & Hs & (Hu1 & Hu2 & Hu3) & Hlb).
  rewrite Hef. case_decide as Hpos; simpl.
  - rewrite running_status_pos by done. split_and!; try done; try lia.
    intros ts Hts. specialize (Hlb ts Hts). lia.
  - assert (a = 0) as -> by lia. split_and!; try done; try lia.
    intros ts Hts. specialize (Hlb ts Hts). lia.
Qed.

Lemma task_inv_exhausted (a : Z) :
  ¬ a < R + 1 →
  task_inv R t0 nw t (mkWorker (WAttempt a) ef) y r →
  task_inv R t0 nw t (mkWorker (WDone (Returns VNone)) ef) y r.
Proof.
  unfold task_inv, uncollected, started. simpl. destruct y; [done|].
  intros Ha (H0 & Hor & Hst & Hrc & Hfb & Hef & Hs & (Hu1 & Hu2 & Hu3) & Hlb).
  assert (a = 0) as -> by lia. rewrite Hrc.
  split_and!; try done.
  - right. rewrite Hef. split_and!; try done; lia.
  - left. lia.
Qed.

Lemma task_inv_return (a u : Z) (v : value) :
  settles (t a) = Returns v → u ≤ nw →
  task_inv R t0 nw t (mkWorker (WBusy a u) ef) y r →
  task_inv R t0 nw t (mkWorker (WDone (Returns v)) ef) y r.
Proof.
  unfold task_inv, uncollected, started. simpl. destruct y; [done|].
  intros Hv Hu (Ha & Hst & Hrc & Hfb & Hef & Hs & (Hu1 & Hu2 & Hu3) & Hlb).
  rewrite Hrc. split_and!; try done.
  - by left.
  - right. by eapply time_lb_mono.
Qed.

Lemma task_inv_sleep (a u : Z) (e : exn) :
  settles (t a) = Raises e → a < R → u ≤ nw →
  task_inv R t0 nw t (mkWorker (WBusy a u) ef) y r →
  task_inv R t0 nw t
    (mkWorker (WSleep a (nw + backoff_delay a))
              (ef ++ [Sleep (backoff_delay a)])) y r.
Proof.
  unfold task_inv, uncollected, started. simpl. destruct y; [done|].
  intros He Hlt Hu (Ha & Hst & Hrc & Hfb & Hef & Hs & (Hu1 & Hu2 & Hu3) & Hlb).
  split_and!; try done; try lia.
  - by eapply failed_before_succ.
  - rewrite Hef, attempts_log_succ by lia. by rewrite <- app_assoc.
  - intros ts Hts. specialize (Hlb ts Hts). unfold run_time in Hlb.
    rewrite elapsed_succ by lia. lia.
Qed.

Lemma task_inv_raise (a u : Z) (e : exn) :
  settles (t a) = Raises e → ¬ a < R → u ≤ nw →
  task_inv R t0 nw t (mkWorker (WBusy a u) ef) y r →
  task_inv R t0 nw t (mkWorker (WDone (Raises e)) ef) y r.
Proof.
  unfold task_inv, uncollected, started. simpl. destruct y; [done|].
  intros He Hlt Hu (Ha & Hst & Hrc & Hfb & Hef & Hs & (Hu1 & Hu2 & Hu3) & Hlb).
  rewrite Hrc. assert (a = R) as -> by lia.
  split_and!; try done; try lia.
  right. by eapply time_lb_mono.
Qed.

Lemma task_inv_wake (a u : Z) :
  u ≤ nw →
  task_inv R t0 nw t (mkWorker (WSleep a u) ef) y r →
  task_inv R t0 nw t (mkWorker (WAttempt (a + 1)) ef) y r.
Proof.
  unfold task_inv, uncollected, started. simpl. destruct y; [done|].
  intros Hu (Ha & Hst & Hrc & Hfb & Hef & Hs & (Hu1 & Hu2 & Hu3) & Hlb).
  replace (a + 1 - 1) with a by lia.
  split_and!; try done; try lia.
  by eapply time_lb_mono.
Qed.
End worker_transitions.

Lemma Inv_worker_step (tasks : list Task) (mw R T t0 : Z) (i : nat)
    (s s' : State) :
  Inv tasks mw R T t0 s → worker_step i s = Some s' → Inv tasks mw R T t0 s'.
Proof.
  intros HI. unfold worker_step.
  destruct (workers s !! i) as [w|] eqn:Hw; [simpl|done].
  destruct (record_loc s i) as [l|] eqn:Hl; [simpl|done].
  destruct (objs (store s) !! l) as [r|] eqn:Hr; [simpl|done].
  pose proof (inv_retry _ _ _ _ _ _ HI) as HR.
  pose proof (inv_now _ _ _ _ _ _ HI) as Hnow.
  destruct w as [p ef]. simpl. destruct p as [|a|a u|a u|o]; simpl.
  - case_decide; [|done]. intros [= <-].
    eapply Inv_update_task; eauto. intros t y _ _. by apply task_inv_start.
  - case_decide as Ha; intros [= <-].
    + eapply Inv_update_task; eauto; try (by case_decide).
      intros t y _ <-. apply task_inv_enter. by rewrite <- HR.
    + eapply Inv_update_task; eauto.
      intros t y _ _. apply task_inv_exhausted. by rewrite <- HR.
  - case_decide; [|done].
    destruct (settles (original_task r a)) as [v|e] eqn:Hs.
    + intros [= <-]. eapply Inv_update_task; eauto.
      intros t y _ <-. by eapply task_inv_return.
    + case_decide as Ha; intros [= <-].
      * eapply Inv_update_task; eauto.
        intros t y _ <-. eapply task_inv_sleep; [done| |done]. by rewrite <- HR.
      * eapply Inv_update_task; eauto.
        intros t y _ <-. eapply task_inv_raise; [done| |done]. by rewrite <- HR.
  - case_decide; [|done]. intros [= <-].
    eapply Inv_update_task; eauto. intros t y _ _. by apply task_inv_wake.
  - done.
Qed.

Lemma classify_output (o : outcome) (r : TaskResult) :
  (classify o r).2 = output_value o.
Proof. by destruct o as [v|[m|m]]. Qed.

Lemma classify_fields (o : outcome) (r : TaskResult) :
  task_id (classify o r).1 = task_id r
  ∧ original_task (classify o r).1 = original_task r
  ∧ start_time (classify o r).1 = start_time r
  ∧ retry_count (classify o r).1 = retry_count r.
Proof. by destruct o as [v|[m|m]]. Qed.

Lemma classify_collected (o : outcome) (r : TaskResult) :
  uncollected r → collected o (classify o r).1.
Proof. intros (? & ? & ?). by destruct o as [v|[m|m]]. Qed.

Lemma Inv_collect_step (tasks : list Task) (mw R T t0 : Z) (i : nat)
    (s s' : State) :
  Inv tasks mw R T t0 s → collect_step i s = Some s' → Inv tasks mw R T t0 s'.
Proof.
  intros HI. unfold collect_step.
  destruct (main s) eqn:Hmain; try done.
  case_decide as Hny; [done|].
  destruct (workers s !! i) as [w|] eqn:Hw; [simpl|done].
  destruct (Future_done w) as [o|] eqn:Hdone; [simpl|done].
  destruct (record_loc s i) as [l|] eqn:Hl; [simpl|done].
  destruct (objs (store s) !! l) as [r|] eqn:Hr; [simpl|done].
  rewrite (Future_result_done _ _ (timeout (self s)) Hdone).
  pose proof (Future_done_pc _ _ Hdone) as Hpc.
  pose proof (classify_output o r) as Hout.
  pose proof (classify_fields o r) as (Hf1 & Hf2 & Hf3 & Hf4).
  pose proof (classify_collected o r) as Hcol.
  destruct (classify o r) as [r1 x]. simpl in *. intros [= <-].
  destruct HI. rewrite Hmain in inv_main0.
  destruct inv_dict0 as (base & d & Hd & Hdl & Hrec).
  unfold record_loc in Hl. rewrite Hd in Hl. simpl in Hl.
  rewrite Hdl in Hl. case_decide as Hlt; [|done]. injection Hl as <-.
  split; simpl; try done.
  - rewrite length_app. simpl. lia.
  - exists base, d. split; [done|]. split; [done|].
    intros j t Hj. destruct (Hrec j t Hj) as (r0 & Hobj & Hid0 & Ht0 & Hinv).
    destruct (decide (j = i)) as [->|Hne].
    + pose proof (eq_trans (eq_sym Hr) Hobj) as [= <-].
      rewrite lookup_insert_eq. eexists. split; [done|]. simpl.
      split; [congruence|]. split; [congruence|]. rewrite Hw in *.
      rewrite bool_decide_false in Hinv by done.
      rewrite bool_decide_true by (apply elem_of_app; right; apply list_elem_of_singleton; done).
      unfold task_inv in *. rewrite Hpc in *.
      destruct Hinv as (Hset & Hst & (ts & Hts & Hrange) & Hun & Hlb).
      simpl. split_and!.
      * by rewrite Hf4.
      * destruct o as [v|[m|m]]; simpl in *; apply Hcol, Hun.
      * exists ts, (now s). simpl. rewrite Hf3, Hf4.
        split_and!; try done; try lia.
        destruct Hlb as [?|Hlb]; [by left | right; by apply Hlb].
    + exists r0. rewrite lookup_insert_ne by lia. split_and!; try done.
      destruct (workers s !! j); [|done].
      erewrite bool_decide_ext; [done|].
      rewrite elem_of_app, list_elem_of_singleton. tauto.
  - apply NoDup_app. split_and!; [done| |apply NoDup_singleton].
    intros j Hj ->%list_elem_of_singleton. done.
  - apply Forall2_app; [done|]. constructor; [|constructor].
    eauto.
Qed.

Lemma Inv_return_step (tasks : list Task) (mw R T t0 : Z) (s s' : State) :
  Inv tasks mw R T t0 s → return_step s = Some s' → Inv tasks mw R T t0 s'.
Proof.
  intros HI. unfold return_step.
  destruct (main s) eqn:Hmain; try done.
  case_decide as Hlen; [|done]. intros [= <-].
  destruct HI. rewrite Hmain in inv_main0.
  split; simpl; try done.
  split_and!; try done; try tauto. destruct inv_main0. congruence.
Qed.

Lemma Inv_step (tasks : list Task) (mw R T t0 : Z) (e : Event) (s s' : State) :
  Inv tasks mw R T t0 s → step e s = Some s' → Inv tasks mw R T t0 s'.
Proof.
  intros HI. destruct e as [d|i|i|]; simpl.
  - case_decide; [|done]. intros [= <-]. by apply Inv_tick.
  - by apply Inv_worker_step.
  - by apply Inv_collect_step.
  - by apply Inv_return_step.
Qed.

Lemma Inv_exec (tasks : list Task) (mw R T t0 : Z) (es : list Event) :
  ∀ s s', Inv tasks mw R T t0 s → exec es s = Some s' → Inv tasks mw R T t0 s'.
Proof.
  induction es as [|e es IH]; intros s s' HI; simpl.
  - by intros [= <-].
  - destruct (step e s) as [s1|] eqn:Hs; [simpl|done].
    apply IH. by eapply Inv_step.
Qed.

(** Every state of a [run(tasks)] call satisfies the invariant. *)
Lemma reachable_Inv (tasks : list Task) (s0 s : State) :
  reachable tasks s0 s →
  Inv tasks (max_workers (self s0)) (retry (self s0)) (timeout (self s0))
    (now s0) s.
Proof.
  intros (es & Hes). eapply Inv_exec; [|done]. apply Inv_run_begin.
Qed.

(** ** Reading the invariant *)

Section reading.
Variables (tasks : list Task) (mw R T t0 : Z) (s : State).
Hypothesis HI : Inv tasks mw R T t0 s.

Lemma Inv_record (i : nat) (t : Task) :
  tasks !! i = Some t →
  ∃ r, record_of s i = Some r ∧ task_id r = i ∧ original_task r = t
       ∧ match workers s !! i with
         | Some w => task_inv R t0 (now s) t w (bool_decide (i ∈ yielded s)) r
         | None => r = TaskResult_init i t
         end.
Proof.
  intros Hi. destruct HI.
  destruct inv_dict0 as (base & d & Hd & Hdl & Hrec).
  destruct (Hrec i t Hi) as (r & Hobj & Hrest).
  exists r. split; [|done].
  unfold record_of, record_loc. rewrite Hd. simpl. rewrite Hdl.
  rewrite decide_True by (by eapply lookup_lt_Some). done.
Qed.

Lemma Inv_record_dom (i : nat) :
  is_Some (record_of s i) ↔ (i < length tasks)%nat.
Proof.
  split.
  - intros [r Hr]. destruct HI.
    destruct inv_dict0 as (base & d & Hd & Hdl & Hrec).
    unfold record_of, record_loc in Hr. rewrite Hd in Hr. simpl in Hr.
    rewrite Hdl in Hr. by case_decide.
  - intros Hlt. destruct (lookup_lt_is_Some_2 tasks i Hlt) as [t Ht].
    destruct (Inv_record i t Ht) as (r & Hr & _). by exists r.
Qed.

Lemma Inv_yielded_lt (i : nat) : i ∈ yielded s → (i < length (workers s))%nat.
Proof.
  intros (p & Hp)%list_elem_of_lookup_1.
  destruct HI.
  destruct (Forall2_lookup_l _ _ _ _ _ inv_results0 Hp)
    as (x & _ & w & o & Hw & _).
  by eapply lookup_lt_Some.
Qed.

(** Once [run] has returned, every future has been yielded. *)
Lemma Inv_returned_yielded (rs : list value) :
  main s = MReturned rs → yielded s ≡ₚ seq 0 (length tasks).
Proof.
  intros Hm. pose proof (inv_main _ _ _ _ _ _ HI) as Hmain.
  rewrite Hm in Hmain. destruct Hmain as (_ & Hlen & _ & Hy).
  apply submseteq_length_Permutation.
  - apply NoDup_submseteq; [by destruct HI|].
    intros i Hi%Inv_yielded_lt. apply elem_of_seq. lia.
  - rewrite length_seq. lia.
Qed.

Lemma Inv_returned_record (rs : list value) (i : nat) (t : Task) :
  main s = MReturned rs → tasks !! i = Some t →
  ∃ r w o, record_of s i = Some r ∧ workers s !! i = Some w
           ∧ pc w = WDone o ∧ i ∈ yielded s
           ∧ task_id r = i ∧ original_task r = t
           ∧ task_inv R t0 (now s) t w true r.
Proof.
  intros Hm Hi.
  assert (Hy : i ∈ yielded s).
  { rewrite (Inv_returned_yielded rs Hm). apply elem_of_seq.
    apply lookup_lt_Some in Hi. lia. }
  destruct (Inv_record i t Hi) as (r & Hr & Hid & Hot & Hw).
  pose proof (Inv_yielded_lt i Hy) as Hlt.
  destruct (lookup_lt_is_Some_2 _ _ Hlt) as [w Hw'].
  rewrite Hw' in Hw. rewrite bool_decide_true in Hw by done.
  assert (∃ o, pc w = WDone o) as [o Ho].
  { unfold task_inv in Hw. destruct (pc w); try done. by eexists. }
  exists r, w, o. by split_and!.
Qed.
End reading.

(** ** What a settled call tells about the task *)

Lemma settled_success (R : Z) (t : Task) (o : outcome) (k k' : Z)
    (log : list Effect) (v : value) :
  settled R t o k' log →
  0 ≤ k ≤ R → failed_before t k → settles (t k) = Returns v →
  o = Returns v ∧ k' = k.
Proof.
  intros Hs Hk Hf Hv. destruct o as [v'|e]; simpl in Hs.
  - destruct Hs as [(Hk' & Hf' & Hv' & _)|(HR & _)]; [|lia].
    destruct (Z.lt_trichotomy k k') as [Hlt|[->|Hgt]].
    + destruct (Hf' k) as [e He]; [lia|]. congruence.
    + split; [congruence | done].
    + destruct (Hf k') as [e He]; [lia|]. congruence.
  - destruct Hs as (Hk' & -> & Hf' & He & _).
    destruct (decide (k = R)) as [->|Hne]; [congruence|].
    destruct (Hf' k) as [e' He']; [lia|]. congruence.
Qed.

Lemma settled_failure (R : Z) (t : Task) (o : outcome) (k' : Z)
    (log : list Effect) :
  settled R t o k' log →
  0 ≤ R → failed_before t (R + 1) →
  ∃ e, settles (t R) = Raises e ∧ o = Raises e ∧ k' = R.
Proof.
  intros Hs HR Hf. destruct o as [v'|e]; simpl in Hs.
  - destruct Hs as [(Hk' & _ & Hv' & _)|(? & _)]; [|lia].
    destruct (Hf k') as [e He]; [lia|]. congruence.
  - destruct Hs as (Hk' & -> & _ & He & _). by exists e.
Qed.

(** ** Every call of [run] can run to its [return] *)

Lemma exec_app (es1 es2 : list Event) (s : State) :
  exec (es1 ++ es2) s = exec es1 s ≫= exec es2.
Proof.
  revert s. induction es1 as [|e es1 IH]; intros s; simpl; [done|].
  destruct (step e s); simpl; [apply IH | done].
Qed.

Section progress.
Variables (tasks : list Task) (mw R T t0 : Z).

Lemma Inv_lookup (s : State) (i : nat) (w : Worker) :
  Inv tasks mw R T t0 s → workers s !! i = Some w →
  ∃ l r, record_loc s i = Some l ∧ objs (store s) !! l = Some r.
Proof.
  intros HI Hw.
  assert (Hlt : (i < length tasks)%nat).
  { apply lookup_lt_Some in Hw. pose proof (inv_main _ _ _ _ _ _ HI) as Hm.
    destruct (main s); try done.
    - destruct Hm as (_ & <-). done.
    - destruct Hm as (_ & <- & _). done.
    - destruct Hm as (_ & Hnil & _). rewrite Hnil in Hw. simpl in Hw. lia. }
  apply (Inv_record_dom _ _ _ _ _ _ HI) in Hlt as [r Hr].
  unfold record_of in Hr. destruct (record_loc s i) as [l|]; [|done].
  by exists l, r.
Qed.

(** A work item that holds a pool thread, or is queued while a thread is
    free, takes its next step once the clock has advanced enough. *)
Lemma worker_progress (s : State) (i : nat) (w : Worker) :
  Inv tasks mw R T t0 s → workers s !! i = Some w →
  Future_done w = None →
  (pc w = WQueued → busy_workers s < mw) →
  ∃ d s' w', 0 ≤ d
    ∧ worker_step i (with_now (now s + d) s) = Some s'
    ∧ workers s' = <[i := w']> (workers s)
    ∧ (fuel R (pc w') < fuel R (pc w))%nat ∧ pc w' ≠ WQueued
    ∧ yielded s' = yielded s ∧ main s' = main s.
Proof.
  intros HI Hw Hnd Hslot.
  destruct (Inv_lookup s i w HI Hw) as (l & r & Hl & Hr).
  pose proof (inv_retry _ _ _ _ _ _ HI) as HR.
  pose proof (inv_max_workers _ _ _ _ _ _ HI) as Hmw.
  assert (Hl' : ∀ d, record_loc (with_now d s) i = Some l) by done.
  unfold worker_step.
  destruct w as [p ef]. destruct p as [|a|a u|a u|o]; simpl in *.
  - exists 0. rewrite Hw, Hl'. simpl. rewrite Hr. simpl.
    unfold busy_workers in *. simpl.
    rewrite decide_True by (rewrite Hmw; by apply Hslot).
    eexists _, _. split_and!; try done. simpl. lia.
  - exists 0. rewrite Hw, Hl'. simpl. rewrite Hr. simpl. rewrite HR.
    destruct (decide (a < R + 1));
      eexists _, _; (split_and!; [done|done|done| |done|done|done]);
      simpl; lia.
  - exists (Z.max 0 (u - now s)). rewrite Hw, Hl'. simpl. rewrite Hr. simpl.
    rewrite decide_True by lia. rewrite HR.
    destruct (settles (original_task r a)).
    + eexists _, _. split_and!; try done; try lia. simpl. lia.
    + destruct (decide (a < R));
        eexists _, _; (split_and!; [lia|done|done| |done|done|done]);
        simpl; lia.
  - exists (Z.max 0 (u - now s)). rewrite Hw, Hl'. simpl. rewrite Hr. simpl.
    rewrite decide_True by lia.
    eexists _, _. split_and!; try done; try lia. simpl. lia.
  - done.
Qed.

(** A work item that holds a pool thread can be run until its future is
    finished; no other work item moves meanwhile. *)
Lemma drive_worker (i : nat) (n : nat) : ∀ (s : State) (w : Worker),
  (fuel R (pc w) ≤ n)%nat →
  Inv tasks mw R T t0 s → workers s !! i = Some w → pc w ≠ WQueued →
  ∃ es s' w' o, exec es s = Some s'
    ∧ workers s' = <[i := w']> (workers s) ∧ pc w' = WDone o
    ∧ yielded s' = yielded s ∧ main s' = main s.
Proof.
  induction n as [|n IH]; intros s w Hn HI Hw Hq.
  - destruct w as [p ef]. destruct p as [| | | |o]; simpl in *; try lia.
    exists [], s, (mkWorker (WDone o) ef), o.
    split_and!; try done. by rewrite list_insert_id.
  - destruct (Future_done w) as [o|] eqn:Hd.
    { exists [], s, w, o. split_and!; try done.
      - by rewrite list_insert_id.
      - by apply Future_done_pc. }
    destruct (worker_progress s i w HI Hw Hd) as
      (d & s1 & w1 & Hd0 & Hstep & Hws & Hfuel & Hq1 & Hy1 & Hm1); [done|].
    assert (HI1 : Inv tasks mw R T t0 s1).
    { eapply (Inv_step _ _ _ _ _ (Work i)); [|exact Hstep].
      by apply Inv_tick. }
    assert (Hw1 : workers s1 !! i = Some w1).
    { rewrite Hws. apply list_lookup_insert_eq. by eapply lookup_lt_Some. }
    destruct (IH s1 w1) as (es & s' & w' & o & He & Hws' & Hpc & Hy & Hm);
      try done; [lia|].
    exists (Tick d :: Work i :: es), s', w', o. split_and!; try done.
    + simpl. rewrite decide_True by done. simpl. by rewrite Hstep.
    + by rewrite Hws', Hws, list_insert_insert_eq.
    + congruence.
    + congruence.
Qed.
End progress.

Section termination.
Variables (tasks : list Task) (mw R T t0 : Z).

Lemma busy_workers_0 (s : State) :
  (∀ j w, workers s !! j = Some w → occupies w = false) →
  busy_workers s = 0.
Proof.
  intros Hall. unfold busy_workers.
  assert (Hin : ∀ w, w ∈ workers s → occupies w = false).
  { intros w (j & Hj)%list_elem_of_lookup_1. by eapply Hall. }
  clear Hall. induction (workers s) as [|w ws IH]; [done|].
  rewrite filter_cons_False.
  - apply IH. intros w' Hw'. apply Hin. by right.
  - rewrite Hin by left. done.
Qed.

(** First the work items that hold a pool thread are run to their end. *)
Lemma finish_started (n : nat) : ∀ s,
  (n ≤ length (workers s))%nat → Inv tasks mw R T t0 s → main s = MCollecting →
  ∃ es s', exec es s = Some s'
    ∧ length (workers s') = length (workers s)
    ∧ (∀ j w, (j < n)%nat → workers s' !! j = Some w → occupies w = false)
    ∧ (∀ j, (n ≤ j)%nat → workers s' !! j = workers s !! j)
    ∧ main s' = main s.
Proof.
  induction n as [|n IH]; intros s Hn HI Hm.
  { exists [], s. split_and!; try done. intros; lia. }
  destruct (IH s) as (es & s1 & He & Hlen & Hlt & Hge & Hm1); try done; [lia|].
  assert (HI1 : Inv tasks mw R T t0 s1) by (by eapply Inv_exec).
  destruct (lookup_lt_is_Some_2 (workers s1) n) as [w Hw]; [lia|].
  destruct (occupies w) eqn:Hocc.
  - destruct (drive_worker tasks mw R T t0 n (fuel R (pc w)) s1 w)
      as (es2 & s2 & w' & o & He2 & Hws & Hpc & _ & Hm2); try done.
    { intros Hq. unfold occupies in Hocc. by rewrite Hq in Hocc. }
    exists (es ++ es2), s2. split_and!.
    + rewrite exec_app, He. done.
    + rewrite Hws, length_insert. done.
    + intros j wj Hj. rewrite Hws. destruct (decide (j = n)) as [->|Hne].
      * rewrite list_lookup_insert_eq by lia. intros [= <-].
        unfold occupies. by rewrite Hpc.
      * rewrite list_lookup_insert_ne by done. apply Hlt. lia.
    + intros j Hj. rewrite Hws, list_lookup_insert_ne by lia. apply Hge. lia.
    + congruence.
  - exists es, s1. split_and!; try done.
    + intros j wj Hj Hwj. destruct (decide (j = n)) as [->|Hne].
      * congruence.
      * eapply Hlt; [|done]. lia.
    + intros j Hj. apply Hge. lia.
Qed.

(** Then the queued ones are picked up and run, one at a time. *)
Lemma finish_queued (n : nat) : ∀ s,
  (n ≤ length (workers s))%nat → Inv tasks mw R T t0 s → main s = MCollecting →
  (∀ j w, workers s !! j = Some w → occupies w = false) →
  ∃ es s', exec es s = Some s'
    ∧ length (workers s') = length (workers s)
    ∧ (∀ j w, workers s' !! j = Some w → occupies w = false)
    ∧ (∀ j w, (j < n)%nat → workers s' !! j = Some w → ∃ o, pc w = WDone o)
    ∧ main s' = main s.
Proof.
  induction n as [|n IH]; intros s Hn HI Hm Hidle.
  { exists [], s. split_and!; try done. intros; lia. }
  destruct (IH s) as (es & s1 & He & Hlen & Hidle1 & Hlt & Hm1);
    try done; [lia|].
  assert (HI1 : Inv tasks mw R T t0 s1) by (by eapply Inv_exec).
  destruct (lookup_lt_is_Some_2 (workers s1) n) as [w Hw]; [lia|].
  destruct (Future_done w) as [o|] eqn:Hd.
  - exists es, s1. split_and!; try done.
    intros j wj Hj Hwj. destruct (decide (j = n)) as [->|Hne].
    + rewrite Hw in Hwj. injection Hwj as <-.
      exists o. by apply Future_done_pc.
    + eapply Hlt; [|done]. lia.
  - assert (Hmw : 0 < mw).
    { pose proof (inv_main _ _ _ _ _ _ HI1) as HM.
      rewrite Hm1, Hm in HM. tauto. }
    destruct (worker_progress tasks mw R T t0 s1 n w HI1 Hw Hd)
      as (d & s2 & w2 & Hd0 & Hstep & Hws2 & _ & Hq2 & _ & Hm2).
    { intros _. by rewrite busy_workers_0. }
    assert (HI2 : Inv tasks mw R T t0 s2).
    { eapply (Inv_step _ _ _ _ _ (Work n)); [|exact Hstep].
      by apply Inv_tick. }
    assert (Hw2 : workers s2 !! n = Some w2).
    { rewrite Hws2. apply list_lookup_insert_eq. lia. }
    destruct (drive_worker tasks mw R T t0 n (fuel R (pc w2)) s2 w2)
      as (es3 & s3 & w3 & o & He3 & Hws3 & Hpc & _ & Hm3); try done.
    assert (Hws : workers s3 = <[n := w3]> (workers s1)).
    { by rewrite Hws3, Hws2, list_insert_insert_eq. }
    exists (es ++ Tick d :: Work n :: es3), s3. split_and!.
    + rewrite exec_app, He. simpl. rewrite decide_True by done. simpl.
      by rewrite Hstep.
    + rewrite Hws, length_insert. done.
    + intros j wj. rewrite Hws. destruct (decide (j = n)) as [->|Hne].
      * rewrite list_lookup_insert_eq by lia. intros [= <-].
        unfold occupies. by rewrite Hpc.
      * rewrite list_lookup_insert_ne by done. apply Hidle1.
    + intros j wj Hj. rewrite Hws. destruct (decide (j = n)) as [->|Hne].
      * rewrite list_lookup_insert_eq by lia. intros [= <-]. by eexists.
      * rewrite list_lookup_insert_ne by done. apply Hlt. lia.
    + simpl in Hm2. congruence.
Qed.

(** Then the main thread collects every finished future. *)
Lemma collect_all (n : nat) : ∀ s,
  (n ≤ length (workers s))%nat → Inv tasks mw R T t0 s → main s = MCollecting →
  (∀ j w, workers s !! j = Some w → ∃ o, pc w = WDone o) →
  ∃ es s', exec es s = Some s'
    ∧ workers s' = workers s
    ∧ (∀ j, (j < n)%nat → j ∈ yielded s')
    ∧ main s' = MCollecting.
Proof.
  induction n as [|n IH]; intros s Hn HI Hm Hdone.
  { exists [], s. split_and!; try done. intros; lia. }
  destruct (IH s) as (es & s1 & He & Hws & Hlt & Hm1); try done; [lia|].
  assert (HI1 : Inv tasks mw R T t0 s1) by (by eapply Inv_exec).
  destruct (decide (n ∈ yielded s1)) as [Hy|Hy].
  - exists es, s1. split_and!; try done.
    intros j Hj. destruct (decide (j = n)) as [->|Hne]; [done|].
    apply Hlt. lia.
  - destruct (lookup_lt_is_Some_2 (workers s1) n) as [w Hw];
      [rewrite Hws; lia|].
    destruct (Inv_lookup tasks mw R T t0 s1 n w HI1 Hw) as (l & r & Hl & Hr).
    destruct (Hdone n w) as [o Ho]; [by rewrite <- Hws|].
    assert (∃ s2, collect_step n s1 = Some s2
                  ∧ workers s2 = workers s1
                  ∧ yielded s2 = yielded s1 ++ [n]
                  ∧ main s2 = MCollecting) as (s2 & Hc & Hws2 & Hy2 & Hm2).
    { assert (Hfd : Future_done w = Some o).
      { unfold Future_done, Future_state. by rewrite Ho. }
      unfold collect_step. rewrite Hm1. rewrite decide_False by done.
      rewrite Hw. simpl. rewrite Hfd. simpl. rewrite Hl. simpl.
      rewrite Hr. simpl. rewrite (Future_result_done _ _ _ Hfd).
      destruct (classify o r). by eexists. }
    exists (es ++ [Collect n]), s2. split_and!; try done.
    + rewrite exec_app, He. simpl. by rewrite Hc.
    + congruence.
    + intros j Hj. rewrite Hy2. apply elem_of_app.
      destruct (decide (j = n)) as [->|Hne].
      * right. by apply list_elem_of_singleton.
      * left. apply Hlt. lia.
Qed.

(** From every state in which [run] is collecting, the call can be run
    to its [return]. *)
Lemma run_can_return (s : State) :
  Inv tasks mw R T t0 s → main s = MCollecting →
  ∃ es s' rs, exec es s = Some s' ∧ main s' = MReturned rs.
Proof.
  intros HI Hm.
  destruct (finish_started (length (workers s)) s)
    as (es1 & s1 & He1 & Hlen1 & Hidle1 & _ & Hm1); try done.
  assert (HI1 : Inv tasks mw R T t0 s1) by (by eapply Inv_exec).
  destruct (finish_queued (length (workers s1)) s1)
    as (es2 & s2 & He2 & Hlen2 & _ & Hdone2 & Hm2); try done; try congruence.
  { intros j w Hw. eapply Hidle1; [|done].
    apply lookup_lt_Some in Hw. lia. }
  assert (HI2 : Inv tasks mw R T t0 s2) by (by eapply Inv_exec).
  destruct (collect_all (length (workers s2)) s2)
    as (es3 & s3 & He3 & Hws3 & Hy3 & Hm3); try done; try congruence.
  { intros j w Hw. eapply Hdone2; [|done].
    apply lookup_lt_Some in Hw. lia. }
  assert (HI3 : Inv tasks mw R T t0 s3) by (by eapply Inv_exec).
  assert (Hlen : length (yielded s3) = length (workers s3)).
  { apply Nat.le_antisymm.
    - rewrite <- (length_seq (length (workers s3)) 0).
      apply submseteq_length, NoDup_submseteq; [by destruct HI3|].
      intros j Hj. apply elem_of_seq.
      pose proof (Inv_yielded_lt _ _ _ _ _ _ HI3 j Hj). lia.
    - rewrite <- (length_seq (length (workers s3)) 0).
      apply submseteq_length, NoDup_submseteq; [apply NoDup_seq|].
      intros j Hj%elem_of_seq. apply Hy3. rewrite <- Hws3. lia. }
  exists (es1 ++ es2 ++ es3 ++ [Return]),
    (with_main (MReturned (results s3)) s3), (results s3).
  rewrite exec_app, He1. simpl. rewrite exec_app, He2. simpl.
  rewrite exec_app, He3. simpl.
  unfold return_step. rewrite Hm3, decide_True by done. done.
Qed.
End termination.

Lemma run_begin_collecting (tasks : list Task) (s0 : State) :
  0 < max_workers (self s0) → main (run_begin tasks s0) = MCollecting.
Proof.
  intros Hmw. unfold run_begin.
  destruct (new_records 0 tasks (store s0)). simpl.
  by rewrite decide_False by lia.
Qed.

(** With a pool of at least one thread, [run] can return. *)
Lemma run_returns (tasks : list Task) (s0 : State) :
  0 < max_workers (self s0) → ∃ s, reachable tasks s0 s ∧ returned s.
Proof.
  intros Hmw.
  edestruct (run_can_return tasks) as (es & s & rs & He & Hm).
  - apply (Inv_run_begin tasks s0).
  - by apply run_begin_collecting.
  - exists s. split; [by exists es | by exists rs].
Qed.

(** Whatever state of the call is reached, the call can still return. *)
Lemma run_never_stuck (tasks : list Task) (s0 s : State) :
  reachable tasks s0 s → main s = MCollecting →
  ∃ es s', exec es s = Some s' ∧ returned s'.
Proof.
  intros Hr Hm. apply reachable_Inv in Hr.
  destruct (run_can_return _ _ _ _ _ s Hr Hm) as (es & s' & rs & He & Hm').
  exists es, s'. split; [done | by exists rs].
Qed.

(** The record of a task once [run] has returned. *)
Lemma returned_record (tasks : list Task) (s0 s : State) (i : nat) (t : Task) :
  reachable tasks s0 s → returned s → tasks !! i = Some t →
  ∃ r w o, record_of s i = Some r ∧ workers s !! i = Some w ∧ pc w = WDone o
           ∧ i ∈ yielded s ∧ task_id r = i ∧ original_task r = t
           ∧ settled (retry (self s0)) t o (retry_count r) (effects w)
           ∧ collected o r
           ∧ ∃ ts te, start_time r = Some ts ∧ end_time r = Some te
                      ∧ now s0 ≤ ts ≤ te ∧ te ≤ now s
                      ∧ (retry (self s0) < 0
                         ∨ ts + run_time t (retry_count r) ≤ te).
Proof.
  intros Hr [rs Hm] Hi. apply reachable_Inv in Hr.
  destruct (Inv_returned_record _ _ _ _ _ _ Hr rs i t Hm Hi)
    as (r & w & o & Hrec & Hw & Hpc & Hy & Hid & Hot & Hinv).
  exists r, w, o. unfold task_inv in Hinv. rewrite Hpc in Hinv.
  destruct Hinv as (Hs & Hc & Htimes). by split_and!.
Qed.

(** ** The claims about retries *)

(** C2.  A task whose work function fails on exactly the first [k]
    attempts, [k] at most the retry limit, and succeeds on the next one:
    [run] returns, and once it has returned the record of the task has
    status COMPLETED, [retry_count = k], and [result] holds the value
    the work function produced. *)
Theorem C2_fails_k_times_then_succeeds (tasks : list Task) (s0 : State)
    (i : nat) (t : Task) (k : Z) (v : value) :
  0 < max_workers (self s0) →
  tasks !! i = Some t →
  0 ≤ k ≤ retry (self s0) →
  failed_before t k →
  settles (t k) = Returns v →
  (∃ s, reachable tasks s0 s ∧ returned s)
  ∧ ∀ s, reachable tasks s0 s → returned s →
      ∃ r, record_of s i = Some r ∧ status r = COMPLETED
           ∧ retry_count r = k ∧ result r = v.
Proof.
  intros Hmw Hi Hk Hf Hv. split; [by apply run_returns|].
  intros s Hr Hret.
  destruct (returned_record tasks s0 s i t Hr Hret Hi)
    as (r & w & o & Hrec & _ & _ & _ & _ & _ & Hs & Hc & _).
  destruct (settled_success _ _ _ k _ _ v Hs Hk Hf Hv) as [-> Hk'].
  exists r. simpl in Hc. by destruct Hc as (? & ? & ?).
Qed.

(** C3, as the code has it.  A task whose work function fails on all
    [retry + 1] attempts: [run] returns, and once it has returned
    [retry_count] equals the retry limit; the status is FAILED and
    [error_message] is the message of the last error, unless that error
    is a [TimeoutError], in which case the status is TIMEOUT and
    [error_message] is the fixed timeout message. *)
Theorem C3_fails_every_attempt (tasks : list Task) (s0 : State)
    (i : nat) (t : Task) :
  0 < max_workers (self s0) →
  tasks !! i = Some t →
  0 ≤ retry (self s0) →
  failed_before t (retry (self s0) + 1) →
  (∃ s, reachable tasks s0 s ∧ returned s)
  ∧ ∀ s, reachable tasks s0 s → returned s →
      ∃ r e, record_of s i = Some r
             ∧ settles (t (retry (self s0))) = Raises e
             ∧ retry_count r = retry (self s0)
             ∧ match e with
               | PyException m =>
                   status r = FAILED ∧ error_message r = Some m
               | PyTimeoutError _ =>
                   status r = TIMEOUT
                   ∧ error_message r = Some timeout_message
               end.
Proof.
  intros Hmw Hi HR Hf. split; [by apply run_returns|].
  intros s Hr Hret.
  destruct (returned_record tasks s0 s i t Hr Hret Hi)
    as (r & w & o & Hrec & _ & _ & _ & _ & _ & Hs & Hc & _).
  destruct (settled_failure _ _ _ _ _ Hs HR Hf) as (e & He & -> & Hk).
  exists r, e. split_and!; try done.
  destruct e as [m|m]; simpl in Hc; tauto.
Qed.

(** C4, as the code has it.  In every state of a [run] call (while it
    runs and after it has returned), whatever the work functions do,
    every record has [0 <= retry_count <= max(0, self.retry)], and
    [self.retry] is the limit the processor was configured with.  So
    with a limit that is not negative [retry_count] is at most the
    limit; with a negative limit, which [__init__] accepts,
    [retry_count] stays [0], above the limit. *)
Theorem C4_retry_count_bounded (tasks : list Task) (s0 s : State)
    (i : nat) (r : TaskResult) :
  reachable tasks s0 s →
  record_of s i = Some r →
  0 ≤ retry_count r ≤ Z.max 0 (retry (self s))
  ∧ retry (self s) = retry (self s0)
  ∧ (retry (self s0) < 0 → retry_count r = 0).
Proof.
  intros Hr Hrec. apply reachable_Inv in Hr.
  pose proof (inv_retry _ _ _ _ _ _ Hr) as HRs. rewrite HRs.
  assert (Hlt : (i < length tasks)%nat).
  { apply (Inv_record_dom _ _ _ _ _ _ Hr). by eexists. }
  destruct (lookup_lt_is_Some_2 tasks i Hlt) as [t Ht].
  destruct (Inv_record _ _ _ _ _ _ Hr i t Ht) as (r' & Hrec' & _ & _ & Hw).
  rewrite Hrec in Hrec'. injection Hrec' as <-.
  destruct (workers s !! i) as [w|]; [|subst r; simpl; lia].
  unfold task_inv in Hw.
  destruct (pc w) as [|a|a u|a u|o], (bool_decide (i ∈ yielded s)); try done.
  - destruct Hw as (_ & _ & -> & _). lia.
  - destruct Hw as (? & ? & _ & -> & _). lia.
  - destruct Hw as (? & _ & -> & _). lia.
  - destruct Hw as (? & _ & -> & _). lia.
  - destruct Hw as (Hs & _). destruct o; simpl in Hs; lia.
  - destruct Hw as (Hs & _). destruct o; simpl in Hs; lia.
Qed.

(** ** The output sequence *)

Lemma step_yielded (e : Event) (s s' : State) :
  step e s = Some s' →
  yielded s' = yielded s ++ collected_ids [e].
Proof.
  destruct e as [d|i|i|]; simpl.
  - case_decide; [|done]. intros [= <-]. simpl. by rewrite app_nil_r.
  - unfold worker_step. intros Hs.
    destruct (workers s !! i) as [w|]; [simpl in Hs|done].
    destruct (record_loc s i) as [l|]; [simpl in Hs|done].
    destruct (objs (store s) !! l) as [r|]; [simpl in Hs|done].
    rewrite app_nil_r.
    destruct (pc w); repeat case_match; try done; by injection Hs as <-.
  - unfold collect_step. intros Hs.
    destruct (main s); try done. case_decide; [done|].
    destruct (workers s !! i) as [w|]; [simpl in Hs|done].
    destruct (Future_done w) as [o'|]; [simpl in Hs|done].
    destruct (record_loc s i) as [l|]; [simpl in Hs|done].
    destruct (objs (store s) !! l) as [r|]; [simpl in Hs|done].
    destruct (Future_result w (timeout (self s))) as [o|]; [|done].
    destruct (classify o r). by injection Hs as <-.
  - unfold return_step. destruct (main s); try done.
    case_decide; [|done]. intros [= <-]. simpl. by rewrite app_nil_r.
Qed.

Lemma exec_yielded (es : list Event) : ∀ s s',
  exec es s = Some s' → yielded s' = yielded s ++ collected_ids es.
Proof.
  induction es as [|e es IH]; intros s s'; simpl.
  - intros [= <-]. by rewrite app_nil_r.
  - destruct (step e s) as [s1|] eqn:Hs; [simpl|done]. intros He.
    rewrite (IH _ _ He), (step_yielded _ _ _ Hs), <- app_assoc.
    f_equal. destruct e; done.
Qed.

Lemma run_begin_yielded (tasks : list Task) (s0 : State) :
  yielded (run_begin tasks s0) = [].
Proof.
  unfold run_begin. destruct (new_records 0 tasks (store s0)). simpl.
  by case_decide.
Qed.

(** What a step changes. *)
Lemma worker_step_shape (k : nat) (s s' : State) :
  worker_step k s = Some s' →
  ∃ w l r r' w', workers s !! k = Some w ∧ Future_done w = None
    ∧ record_loc s k = Some l ∧ objs (store s) !! l = Some r
    ∧ s' = with_workers (<[k := w']> (workers s))
             (with_store (write_obj l r' (store s)) s).
Proof.
  unfold worker_step. intros Hs.
  destruct (workers s !! k) as [w|] eqn:Hw; [simpl in Hs|done].
  destruct (record_loc s k) as [l|] eqn:Hl; [simpl in Hs|done].
  destruct (objs (store s) !! l) as [r|] eqn:Hr; [simpl in Hs|done].
  exists w, l, r. unfold Future_done, Future_state.
  destruct (pc w); repeat case_match; try done;
    injection Hs as <-; eexists _, _;
    (split_and!; [reflexivity|reflexivity|reflexivity|exact Hr|reflexivity]).
Qed.

Lemma collect_step_shape (k : nat) (s s' : State) :
  collect_step k s = Some s' →
  ∃ w o l r, (k ∉ yielded s) ∧ workers s !! k = Some w
    ∧ Future_done w = Some o
    ∧ record_loc s k = Some l ∧ objs (store s) !! l = Some r
    ∧ self s' = mkProcessor (max_workers (self s)) (retry (self s))
                  (timeout (self s)) (task_results (self s))
                  (total_tasks (self s)) (completed_tasks (self s) + 1)
    ∧ store s' = write_obj l (set_end_time (Some (now s)) (classify o r).1)
                   (store s)
    ∧ now s' = now s ∧ workers s' = workers s
    ∧ yielded s' = yielded s ++ [k]
    ∧ results s' = results s ++ [(classify o r).2].
Proof.
  unfold collect_step. intros Hs.
  destruct (main s); try done. case_decide; [done|].
  destruct (workers s !! k) as [w|] eqn:Hw; [simpl in Hs|done].
  destruct (Future_done w) as [o|] eqn:Hd; [simpl in Hs|done].
  destruct (record_loc s k) as [l|] eqn:Hl; [simpl in Hs|done].
  destruct (objs (store s) !! l) as [r|] eqn:Hr; [simpl in Hs|done].
  rewrite (Future_result_done _ _ _ Hd) in Hs.
  exists w, o, l, r. destruct (classify o r). injection Hs as <-.
  by split_and!.
Qed.

(** Writing the record of task [k] leaves the records of the other
    tasks as they are. *)
Lemma record_of_write (tasks : list Task) (mw R T t0 : Z) (s s' : State)
    (k : nat) (l : loc) (r' : TaskResult) :
  Inv tasks mw R T t0 s →
  record_loc s k = Some l →
  task_results (self s') = task_results (self s) →
  dicts (store s') = dicts (store s) →
  objs (store s') = <[l := r']> (objs (store s)) →
  record_of s' k = Some r'
  ∧ ∀ j, j ≠ k → record_of s' j = record_of s j.
Proof.
  intros HI Hl Hself Hdicts Hobjs. destruct HI.
  destruct inv_dict0 as (base & d & Hd & Hdl & _).
  unfold record_of, record_loc in *. rewrite Hself, Hdicts, Hobjs.
  rewrite Hd in *. simpl in *. rewrite Hdl in Hl.
  case_decide as Hk; [|done]. injection Hl as <-. split.
  - rewrite Hdl, decide_True by done. simpl. by rewrite lookup_insert_eq.
  - intros j Hj. rewrite Hdl. case_decide; [simpl|done].
    by rewrite lookup_insert_ne by lia.
Qed.


Lemma Inv_yielded_done (tasks : list Task) (mw R T t0 : Z) (s : State)
    (i : nat) (w : Worker) :
  Inv tasks mw R T t0 s → i ∈ yielded s → workers s !! i = Some w →
  ∃ o, Future_done w = Some o.
Proof.
  intros HI (p & Hp)%list_elem_of_lookup_1 Hw.
  destruct (Forall2_lookup_l _ _ _ _ _ (inv_results _ _ _ _ _ _ HI) Hp)
    as (x & _ & w' & o & Hw' & Hpc & _).
  rewrite Hw in Hw'. injection Hw' as <-. exists o.
  unfold Future_done, Future_state. by rewrite Hpc.
Qed.




Lemma collected_output (o : outcome) (r : TaskResult) :
  collected o r → output_of r (output_value o).
Proof.
  unfold output_of. destruct o as [v|[m|m]]; simpl; intros (? & ? & ?); auto.
Qed.

(** Once [run] has returned: the futures were collected in some order of
    the task ids, and the output lists, in that order, what the record
    of each task says. *)
Lemma returned_output (tasks : list Task) (s0 s : State) (es : list Event)
    (rs : list value) :
  exec es (run_begin tasks s0) = Some s → main s = MReturned rs →
  rs = results s
  ∧ collected_ids es ≡ₚ seq 0 (length tasks)
  ∧ Forall2 (λ (i : nat) x, ∃ r, record_of s i = Some r ∧ output_of r x)
      (collected_ids es) rs.
Proof.
  intros He Hm.
  assert (Hr : reachable tasks s0 s) by (by exists es).
  pose proof (reachable_Inv _ _ _ Hr) as HI.
  pose proof (exec_yielded _ _ _ He) as Hy.
  rewrite run_begin_yielded in Hy. simpl in Hy. rewrite <- Hy.
  pose proof (inv_main _ _ _ _ _ _ HI) as Hmain. rewrite Hm in Hmain.
  destruct Hmain as (_ & _ & -> & _).
  split; [done|]. split; [by eapply Inv_returned_yielded|].
  eapply Forall2_impl; [apply (inv_results _ _ _ _ _ _ HI)|].
  intros i x (w & o & Hw & Hpc & ->).
  assert (Hlt : (i < length tasks)%nat).
  { apply lookup_lt_Some in Hw.
    pose proof (inv_main _ _ _ _ _ _ HI) as Hmain. rewrite Hm in Hmain.
    destruct Hmain as (_ & <- & _). done. }
  destruct (lookup_lt_is_Some_2 tasks i Hlt) as [t Ht].
  destruct (returned_record tasks s0 s i t Hr (ex_intro _ _ Hm) Ht)
    as (r & w' & o' & Hrec & Hw' & Hpc' & _ & _ & _ & _ & Hc & _).
  rewrite Hw in Hw'. injection Hw' as <-.
  rewrite Hpc in Hpc'. injection Hpc' as <-.
  exists r. split; [done|]. by apply collected_output.
Qed.




(** C10, as the code has it.  Once [run] has returned: a task whose
    work function returns [None] at an attempt [k] within the retry
    limit, after failing before, and a task whose work function fails at
    all [retry + 1] attempts have the same element in the output,
    [None], and the same [result], [None], on their records.  The record
    of the first one is COMPLETED with no error message and
    [retry_count = k]; the record of the second one is FAILED or TIMEOUT
    with an error message and [retry_count = retry]: the records differ
    in [status] and in [error_message]. *)
Theorem C10_none_result_indistinguishable (tasks : list Task) (s0 s : State)
    (es : list Event) (rs : list value) (p q i j : nat) (ti tj : Task)
    (k : Z) :
  exec es (run_begin tasks s0) = Some s →
  main s = MReturned rs →
  collected_ids es !! p = Some i → tasks !! i = Some ti →
  collected_ids es !! q = Some j → tasks !! j = Some tj →
  0 ≤ k ≤ retry (self s0) → failed_before ti k →
  settles (ti k) = Returns VNone →
  failed_before tj (retry (self s0) + 1) →
  rs !! p = Some VNone ∧ rs !! q = Some VNone
  ∧ ∃ ri rj m, record_of s i = Some ri ∧ record_of s j = Some rj
      ∧ status ri = COMPLETED ∧ (status rj = FAILED ∨ status rj = TIMEOUT)
      ∧ result ri = VNone ∧ result rj = VNone
      ∧ error_message ri = None ∧ error_message rj = Some m
      ∧ retry_count ri = k ∧ retry_count rj = retry (self s0).
Proof.
  intros He Hm Hp Hi Hq Hj Hk Hfi Hvi Hfj.
  assert (Hr : reachable tasks s0 s) by (by exists es).
  assert (Hret : returned s) by (by exists rs).
  destruct (returned_record tasks s0 s i ti Hr Hret Hi)
    as (ri & wi & oi & Hri & _ & _ & _ & _ & _ & Hsi & Hci & _).
  destruct (returned_record tasks s0 s j tj Hr Hret Hj)
    as (rj & wj & oj & Hrj & _ & _ & _ & _ & _ & Hsj & Hcj & _).
  destruct (settled_success _ _ _ k _ _ VNone Hsi Hk Hfi Hvi) as [-> Hki].
  destruct (settled_failure _ _ _ _ _ Hsj ltac:(lia) Hfj)
    as (e & He' & -> & Hkj).
  simpl in Hci. destruct Hci as (Hsti & Hresi & Hemi).
  assert (Hj' : (status rj = FAILED ∨ status rj = TIMEOUT) ∧ result rj = VNone
                ∧ ∃ m, error_message rj = Some m).
  { destruct e as [m|m]; simpl in Hcj; destruct Hcj as (? & ? & ?);
      (split_and!; [by auto|done|by eexists]). }
  destruct Hj' as (Hstj & Hresj & m & Hemj).
  destruct (returned_output tasks s0 s es rs He Hm) as (_ & _ & Hf).
  destruct (Forall2_lookup_l _ _ _ _ _ Hf Hp) as (x & Hx & r & Hr1 & Ho).
  destruct (Forall2_lookup_l _ _ _ _ _ Hf Hq) as (x' & Hx' & r' & Hr2 & Ho').
  rewrite Hri in Hr1. injection Hr1 as <-.
  rewrite Hrj in Hr2. injection Hr2 as <-.
  unfold output_of in *. split_and!.
  - rewrite Hx. f_equal. destruct Ho as [[_ ->]|[_ ->]]; done.
  - rewrite Hx'. f_equal. destruct Ho' as [[Hc _]|[_ ->]]; [|done].
    destruct Hstj; congruence.
  - exists ri, rj, m. by split_and!.
Qed.

(** ** The backoff between attempts *)

Lemma attempts_log_length (a : Z) :
  length (attempts_log a) = (2 * Z.to_nat a)%nat.
Proof.
  unfold attempts_log. generalize (Z.to_nat a). intros m.
  induction m as [|m IH]; [done|].
  rewrite seq_S, flat_map_app, length_app, IH. simpl. lia.
Qed.

(** Position [2b] of the log holds attempt [b], position [2b+1] the
    sleep that follows it. *)
Lemma attempts_log_lookup (a : Z) (b : nat) :
  attempts_log a !! (2 * b)%nat
  = (if decide (b < Z.to_nat a)%nat then Some (Process (Z.of_nat b)) else None)
  ∧ attempts_log a !! (2 * b + 1)%nat
    = (if decide (b < Z.to_nat a)%nat
       then Some (Sleep (backoff_delay (Z.of_nat b))) else None).
Proof.
  assert (Hlen : ∀ m, length (flat_map
            (λ b : nat, [Process (Z.of_nat b); Sleep (backoff_delay (Z.of_nat b))])
            (seq 0 m)) = (2 * m)%nat).
  { intros m. pose proof (attempts_log_length (Z.of_nat m)) as H.
    unfold attempts_log in H. by rewrite Nat2Z.id in H. }
  unfold attempts_log. generalize (Z.to_nat a). intros m.
  induction m as [|m [IH1 IH2]].
  { split; (rewrite decide_False by lia); done. }
  pose proof (Hlen m) as Hlen'.
  rewrite seq_S, flat_map_app. cbn [flat_map app Nat.add].
  destruct (decide (b < m)%nat) as [Hlt|Hge].
  - split; (rewrite lookup_app_l by (rewrite Hlen'; lia));
      (rewrite decide_True by lia).
    + by rewrite IH1.
    + by rewrite IH2.
  - split; (rewrite lookup_app_r by (rewrite Hlen'; lia)); rewrite Hlen'.
    + destruct (decide (b = m)) as [->|Hne].
      * replace (2 * m - 2 * m)%nat with 0%nat by lia.
        by rewrite decide_True by lia.
      * rewrite decide_False by lia. apply lookup_ge_None_2. simpl. lia.
    + destruct (decide (b = m)) as [->|Hne].
      * replace (2 * m + 1 - 2 * m)%nat with 1%nat by lia.
        by rewrite decide_True by lia.
      * rewrite decide_False by lia. apply lookup_ge_None_2. simpl. lia.
Qed.

Lemma failed_before_le (t : Task) (a b : Z) :
  b ≤ a → failed_before t a → failed_before t b.
Proof. intros Hle Hf c Hc. apply Hf. lia. Qed.

(** The calls a worker has made, in every position of the worker: [a]
    failed attempts with their sleeps, and possibly attempt [a] itself. *)
Lemma task_inv_log (R t0 nw : Z) (t : Task) (w : Worker) (y : bool)
    (r : TaskResult) :
  task_inv R t0 nw t w y r →
  ∃ a, 0 ≤ a ∧ failed_before t a
       ∧ ((effects w = attempts_log a ∧ (a = 0 ∨ a ≤ R))
          ∨ (effects w = attempts_log a ++ [Process a] ∧ a ≤ R))
       ∧ ∀ e, pc w = WDone (Raises e) →
              a = R ∧ settles (t R) = Raises e
              ∧ effects w = attempts_log R ++ [Process R].
Proof.
  unfold task_inv.
  destruct (pc w) as [|a|a u|a u|o] eqn:Hpc, y; try done.
  - intros (_ & _ & _ & Hef & _). exists 0.
    split_and!; [done|apply failed_before_0| |done].
    left. split; [done | by left].
  - intros (? & ? & _ & _ & ? & ? & _). exists a.
    split_and!; try done. by left.
  - intros (? & _ & _ & ? & ? & _). exists a.
    split_and!; try done; try lia. right. split; [done | lia].
  - intros (? & _ & _ & ? & ? & _). exists (a + 1).
    split_and!; try done; try lia. left. split; [done | lia].
  - intros (Hs & _). destruct o as [v|e]; simpl in Hs.
    + destruct Hs as [(? & ? & _ & ?)|(? & _ & _ & Hef)].
      * exists (retry_count r). split_and!; try done; try lia.
        right. split; [done | lia].
      * exists 0. split_and!; [done|apply failed_before_0| |done].
        left. split; [done | by left].
    + destruct Hs as (? & HR & ? & ? & ?). exists (retry_count r).
      split_and!; try done.
      * right. split; [done | lia].
      * intros e' [= <-]. rewrite <- HR. done.
  - intros (Hs & _). destruct o as [v|e]; simpl in Hs.
    + destruct Hs as [(? & ? & _ & ?)|(? & _ & _ & Hef)].
      * exists (retry_count r). split_and!; try done; try lia.
        right. split; [done | lia].
      * exists 0. split_and!; [done|apply failed_before_0| |done].
        left. split; [done | by left].
    + destruct Hs as (? & HR & ? & ? & ?). exists (retry_count r).
      split_and!; try done.
      * right. split; [done | lia].
      * intros e' [= <-]. rewrite <- HR. done.
Qed.

Lemma worker_step_done (s : State) (i : nat) (w : Worker) (o : outcome) :
  workers s !! i = Some w → pc w = WDone o → worker_step i s = None.
Proof.
  intros Hw Hpc. unfold worker_step. rewrite Hw. simpl.
  destruct (record_loc s i); [simpl|done].
  destruct (objs (store s) !! l); [simpl|done].
  by rewrite Hpc.
Qed.

(** [time.sleep] holds the worker: it does not start the next attempt
    before the delay is over. *)
Lemma worker_step_asleep (s : State) (i : nat) (w : Worker) (a u : Z) :
  workers s !! i = Some w → pc w = WSleep a u → now s < u →
  worker_step i s = None.
Proof.
  intros Hw Hpc Hu. unfold worker_step. rewrite Hw. simpl.
  destruct (record_loc s i); [simpl|done].
  destruct (objs (store s) !! l); [simpl|done].
  rewrite Hpc. by rewrite decide_False by lia.
Qed.

(** The record of a work item of the batch, and where it lives. *)
Lemma Inv_work_item (tasks : list Task) (mw R T t0 : Z) (s : State)
    (i : nat) (t : Task) (w : Worker) :
  Inv tasks mw R T t0 s → tasks !! i = Some t → workers s !! i = Some w →
  ∃ l r, record_loc s i = Some l ∧ objs (store s) !! l = Some r
         ∧ original_task r = t
         ∧ task_inv R t0 (now s) t w (bool_decide (i ∈ yielded s)) r.
Proof.
  intros HI Hi Hw.
  destruct (Inv_record _ _ _ _ _ _ HI i t Hi) as (r & Hrec & _ & Hot & Hinv).
  rewrite Hw in Hinv. unfold record_of in Hrec.
  destruct (record_loc s i) as [l|]; [|done]. simpl in Hrec.
  by exists l, r.
Qed.

(** The end of a failed attempt (lines 168-175): with retries left the
    worker enters [time.sleep] for the backoff delay; at the last attempt
    it ends with the error, and logs no sleep. *)
Lemma worker_step_failed (tasks : list Task) (mw R T t0 : Z) (s : State)
    (i : nat) (t : Task) (w : Worker) (a u : Z) (err : exn) :
  Inv tasks mw R T t0 s → tasks !! i = Some t → workers s !! i = Some w →
  pc w = WBusy a u → u ≤ now s → settles (t a) = Raises err →
  ∃ s', worker_step i s = Some s' ∧ now s' = now s
    ∧ workers s' !! i
      = Some (if decide (a < R)
              then mkWorker (WSleep a (now s + 100 * (a + 1)))
                     (effects w ++ [Sleep (100 * (a + 1))])
              else mkWorker (WDone (Raises err)) (effects w)).
Proof.
  intros HI Hi Hw Hpc Hu He.
  destruct (Inv_work_item _ _ _ _ _ _ _ _ _ HI Hi Hw)
    as (l & r & Hl & Hr & Hot & _).
  pose proof (inv_retry _ _ _ _ _ _ HI) as HR.
  assert (Hlt : (i < length (workers s))%nat) by (by eapply lookup_lt_Some).
  unfold worker_step. rewrite Hw. simpl. rewrite Hl. simpl. rewrite Hr. simpl.
  rewrite Hpc. rewrite decide_True by done. rewrite Hot, He, HR.
  unfold backoff_delay.
  destruct (decide (a < R)); eexists; (split; [reflexivity|]); simpl;
    (split; [done|]); by apply list_lookup_insert_eq.
Qed.

(** The sleep after a failed attempt: the worker stays in it until the
    delay is over, and then makes the next attempt, which is a retry. *)
Lemma worker_step_wakes (tasks : list Task) (mw R T t0 : Z) (s : State)
    (i : nat) (t : Task) (w : Worker) (a u : Z) :
  Inv tasks mw R T t0 s → tasks !! i = Some t → workers s !! i = Some w →
  pc w = WSleep a u →
  0 ≤ a < R
  ∧ (now s < u → worker_step i s = None)
  ∧ (u ≤ now s →
     ∃ s1 s2 r2, worker_step i s = Some s1
       ∧ workers s1 !! i = Some (mkWorker (WAttempt (a + 1)) (effects w))
       ∧ worker_step i s1 = Some s2
       ∧ workers s2 !! i
         = Some (mkWorker (WBusy (a + 1) (now s + duration (t (a + 1))))
                   (effects w ++ [Process (a + 1)]))
       ∧ record_of s2 i = Some r2
       ∧ retry_count r2 = a + 1 ∧ status r2 = RETRYING).
Proof.
  intros HI Hi Hw Hpc.
  destruct (Inv_work_item _ _ _ _ _ _ _ _ _ HI Hi Hw)
    as (l & r & Hl & Hr & Hot & Hinv).
  pose proof (inv_retry _ _ _ _ _ _ HI) as HR.
  assert (Hlt : (i < length (workers s))%nat) by (by eapply lookup_lt_Some).
  unfold task_inv in Hinv. rewrite Hpc in Hinv.
  destruct (bool_decide (i ∈ yielded s)); [done|].
  destruct Hinv as (Ha & _).
  split; [done|]. split; [by eapply worker_step_asleep|].
  intros Hu.
  set (s1 := with_workers
               (<[i := mkWorker (WAttempt (a + 1)) (effects w)]> (workers s))
               (with_store (write_obj l r (store s)) s)).
  assert (H1 : worker_step i s = Some s1).
  { unfold worker_step. rewrite Hw. simpl. rewrite Hl. simpl. rewrite Hr. simpl.
    rewrite Hpc. by rewrite decide_True by done. }
  assert (Hw1 : workers s1 !! i
                = Some (mkWorker (WAttempt (a + 1)) (effects w))).
  { subst s1. simpl. by apply list_lookup_insert_eq. }
  assert (Hl1 : record_loc s1 i = Some l) by (by subst s1).
  assert (Hr1 : objs (store s1) !! l = Some r).
  { subst s1. simpl. by rewrite lookup_insert_eq. }
  assert (HR1 : retry (self s1) = R) by (by subst s1).
  assert (Hn1 : now s1 = now s) by (by subst s1).
  assert (Hlt1 : (i < length (workers s1))%nat) by (by eapply lookup_lt_Some).
  clearbody s1.
  set (r2 := set_retry_count (a + 1) (set_status RETRYING r)).
  set (w2 := mkWorker (WBusy (a + 1) (now s + duration (t (a + 1))))
               (effects w ++ [Process (a + 1)])).
  set (s2 := with_workers (<[i := w2]> (workers s1))
               (with_store (write_obj l r2 (store s1)) s1)).
  assert (H2 : worker_step i s1 = Some s2).
  { unfold worker_step. rewrite Hw1. simpl. rewrite Hl1. simpl. rewrite Hr1.
    simpl. rewrite HR1, decide_True by lia. rewrite decide_True by lia.
    rewrite Hot, Hn1. done. }
  exists s1, s2, r2. split_and!; try done.
  - subst s2. simpl. by apply list_lookup_insert_eq.
  - unfold record_of.
    assert (Hl2 : record_loc s2 i = Some l) by (by subst s2).
    rewrite Hl2. simpl. subst s2. simpl. by rewrite lookup_insert_eq.
Qed.

(** Once [run] has returned, the work item of a task that failed at all
    its attempts has ended with the error of the last one. *)
Lemma returned_failure_propagates (tasks : list Task) (s0 s : State) (i : nat)
    (t : Task) (w : Worker) :
  reachable tasks s0 s → returned s → tasks !! i = Some t →
  workers s !! i = Some w →
  0 ≤ retry (self s0) → failed_before t (retry (self s0) + 1) →
  ∃ err, settles (t (retry (self s0))) = Raises err
    ∧ pc w = WDone (Raises err)
    ∧ effects w
      = attempts_log (retry (self s0)) ++ [Process (retry (self s0))].
Proof.
  intros Hr Hret Hi Hw HR Hf.
  destruct (returned_record tasks s0 s i t Hr Hret Hi)
    as (r & w' & o & _ & Hw' & Hpc & _ & _ & _ & Hs & _).
  rewrite Hw in Hw'. injection Hw' as <-.
  destruct (settled_failure _ _ _ _ _ Hs HR Hf) as (e & He & -> & Hk).
  exists e. split_and!; try done.
  simpl in Hs. destruct Hs as (_ & _ & _ & _ & Hlog). by rewrite Hk in Hlog.
Qed.

(** C9.  The calls a worker makes for a task, in every state of [run]:
    position [2a] of its log is attempt [a], made only when all earlier
    attempts failed and [a] is at most the retry limit [R]; position
    [2a+1] is the sleep after attempt [a], of [100 * (a + 1)]
    milliseconds, made only when attempt [a] failed and [a < R], so that
    it stands before attempt [a+1].  When the call ends with an error,
    the error is that of attempt [R], the log ends with attempt [R] (no
    sleep follows it), and the worker takes no further step.

    The steps themselves: when attempt [a] ends with an error, the
    worker's next step, which it can take, enters a sleep of
    [100 * (a + 1)] milliseconds if [a < R], and otherwise ends the work
    item with that error, without a sleep.  A worker in the sleep after
    attempt [a] has [a < R]; it cannot move before the delay is over,
    and then it goes on to attempt [a + 1], with [retry_count = a + 1]
    and the status RETRYING on the record.  Once [run] has returned, the
    work item of a task that failed at all [R + 1] attempts has ended
    with the error of attempt [R]. *)
Theorem C9_linear_backoff (tasks : list Task) (s0 s : State) (i : nat)
    (t : Task) (w : Worker) :
  reachable tasks s0 s → tasks !! i = Some t → workers s !! i = Some w →
  (∀ (a : nat) (e : Effect), effects w !! (2 * a)%nat = Some e →
     e = Process (Z.of_nat a) ∧ Z.of_nat a ≤ retry (self s0)
     ∧ failed_before t (Z.of_nat a))
  ∧ (∀ (a : nat) (e : Effect), effects w !! (2 * a + 1)%nat = Some e →
       e = Sleep (100 * (Z.of_nat a + 1)) ∧ Z.of_nat a < retry (self s0)
       ∧ (∃ err, settles (t (Z.of_nat a)) = Raises err)
       ∧ effects w !! (2 * a)%nat = Some (Process (Z.of_nat a)))
  ∧ (∀ err, pc w = WDone (Raises err) →
       settles (t (retry (self s0))) = Raises err
       ∧ effects w
         = attempts_log (retry (self s0)) ++ [Process (retry (self s0))]
       ∧ length (effects w) = (2 * Z.to_nat (retry (self s0)) + 1)%nat
       ∧ worker_step i s = None)
  ∧ (∀ a u err, pc w = WBusy a u → u ≤ now s →
       settles (t a) = Raises err →
       ∃ s', worker_step i s = Some s' ∧ now s' = now s
         ∧ workers s' !! i
           = Some (if decide (a < retry (self s0))
                   then mkWorker (WSleep a (now s + 100 * (a + 1)))
                          (effects w ++ [Sleep (100 * (a + 1))])
                   else mkWorker (WDone (Raises err)) (effects w)))
  ∧ (∀ a u, pc w = WSleep a u →
       0 ≤ a < retry (self s0)
       ∧ (now s < u → worker_step i s = None)
       ∧ (u ≤ now s →
          ∃ s1 s2 r2, worker_step i s = Some s1
            ∧ workers s1 !! i
              = Some (mkWorker (WAttempt (a + 1)) (effects w))
            ∧ worker_step i s1 = Some s2
            ∧ workers s2 !! i
              = Some (mkWorker
                        (WBusy (a + 1) (now s + duration (t (a + 1))))
                        (effects w ++ [Process (a + 1)]))
            ∧ record_of s2 i = Some r2
            ∧ retry_count r2 = a + 1 ∧ status r2 = RETRYING))
  ∧ (returned s → 0 ≤ retry (self s0) →
     failed_before t (retry (self s0) + 1) →
     ∃ err, settles (t (retry (self s0))) = Raises err
       ∧ pc w = WDone (Raises err)
       ∧ effects w
         = attempts_log (retry (self s0)) ++ [Process (retry (self s0))]).
Proof.
  intros Hr Hi Hw. pose proof Hr as Hreach. apply reachable_Inv in Hr.
  destruct (Inv_record _ _ _ _ _ _ Hr i t Hi) as (r & _ & _ & _ & Hinv).
  rewrite Hw in Hinv.
  destruct (task_inv_log _ _ _ _ _ _ _ Hinv) as (a0 & Ha0 & Hfb & Hshape & Hdone).
  assert (Hpre : ∀ a : nat, (a < Z.to_nat a0)%nat →
            Z.of_nat a < retry (self s0)
            ∧ failed_before t (Z.of_nat a)
            ∧ ∃ err, settles (t (Z.of_nat a)) = Raises err).
  { intros a Ha. split_and!.
    - destruct Hshape as [(_ & [->|?])|(_ & ?)]; lia.
    - eapply failed_before_le; [|done]. lia.
    - apply Hfb. lia. }
  split_and!.
  - intros a e He.
    destruct (attempts_log_lookup a0 a) as [Hl _].
    destruct Hshape as [(Hef & _)|(Hef & Hle)]; rewrite Hef in He.
    + rewrite Hl in He. case_decide as Hlt; [|done]. injection He as <-.
      destruct (Hpre a Hlt) as (? & ? & _). split_and!; [done|lia|done].
    + destruct (decide (a < Z.to_nat a0)%nat) as [Hlt|Hge].
      * rewrite lookup_app_l in He by (rewrite attempts_log_length; lia).
        rewrite Hl in He. injection He as <-.
        destruct (Hpre a Hlt) as (? & ? & _). split_and!; [done|lia|done].
      * rewrite lookup_app_r in He by (rewrite attempts_log_length; lia).
        rewrite attempts_log_length in He.
        destruct (decide (a = Z.to_nat a0)) as [->|Hne].
        -- replace (2 * Z.to_nat a0 - 2 * Z.to_nat a0)%nat with 0%nat in He
             by lia.
           injection He as <-. rewrite Z2Nat.id by done. by split_and!.
        -- apply lookup_lt_Some in He. simpl in He. lia.
  - intros a e He.
    destruct (attempts_log_lookup a0 a) as [Hl0 Hl].
    assert (Hlt : (a < Z.to_nat a0)%nat).
    { destruct Hshape as [(Hef & _)|(Hef & Hle)]; rewrite Hef in He.
      - apply lookup_lt_Some in He. rewrite attempts_log_length in He. lia.
      - apply lookup_lt_Some in He.
        rewrite length_app, attempts_log_length in He. simpl in He. lia. }
    assert (He' : attempts_log a0 !! (2 * a + 1)%nat = Some e).
    { destruct Hshape as [(Hef & _)|(Hef & Hle)]; rewrite Hef in He; [done|].
      by rewrite lookup_app_l in He by (rewrite attempts_log_length; lia). }
    rewrite Hl, decide_True in He' by done. injection He' as <-.
    destruct (Hpre a Hlt) as (? & ? & ?). split_and!; try done.
    destruct Hshape as [(Hef & _)|(Hef & Hle)]; rewrite Hef.
    + by rewrite Hl0, decide_True.
    + rewrite lookup_app_l by (rewrite attempts_log_length; lia).
      by rewrite Hl0, decide_True.
  - intros err Hpc. destruct (Hdone err Hpc) as (-> & He & Hef).
    split_and!; try done.
    + rewrite Hef, length_app, attempts_log_length. simpl. lia.
    + by eapply worker_step_done.
  - intros a u err Hpc Hu He. by eapply worker_step_failed.
  - intros a u Hpc. by eapply worker_step_wakes.
  - intros Hret HR Hf. by eapply returned_failure_propagates.
Qed.

(** ** The timeout *)

(** The configured timeout has no part in a run: the same schedule on a
    processor with another timeout goes through the same states, up to
    the stored timeout itself. *)
Lemma run_begin_timeout (t : Z) (tasks : list Task) (s : State) :
  run_begin tasks (with_timeout t s) = with_timeout t (run_begin tasks s).
Proof.
  unfold run_begin. simpl. destruct (new_records 0 tasks (store s)). simpl.
  by case_decide.
Qed.

Lemma step_timeout (t : Z) (e : Event) (s : State) :
  step e (with_timeout t s) = with_timeout t <$> step e s.
Proof.
  destruct e as [d|i|i|]; simpl.
  - by case_decide.
  - unfold worker_step, record_loc, busy_workers. simpl.
    destruct (workers s !! i) as [w|]; [simpl|done].
    destruct (dicts (store s) !! task_results (self s)) as [dd|]; [simpl|done].
    destruct (dd !! i) as [l|]; [simpl|done].
    destruct (objs (store s) !! l) as [r|]; [simpl|done].
    destruct (pc w); repeat case_match; done.
  - unfold collect_step, record_loc. simpl.
    destruct (main s); try done. case_decide; [done|].
    destruct (workers s !! i) as [w|]; [simpl|done].
    destruct (Future_done w) as [o|] eqn:Hd; [simpl|done].
    destruct (dicts (store s) !! task_results (self s)) as [dd|]; [simpl|done].
    destruct (dd !! i) as [l|]; [simpl|done].
    destruct (objs (store s) !! l) as [r|]; [simpl|done].
    rewrite !(Future_result_done _ _ _ Hd).
    by destruct (classify o r).
  - unfold return_step. simpl. destruct (main s); try done. by case_decide.
Qed.

Lemma timeout_is_never_consulted (t : Z) (tasks : list Task) (s0 : State)
    (es : list Event) :
  exec es (run_begin tasks (with_timeout t s0))
  = with_timeout t <$> exec es (run_begin tasks s0).
Proof.
  rewrite run_begin_timeout. generalize (run_begin tasks s0). intros s.
  revert s. induction es as [|e es IH]; intros s; simpl; [done|].
  rewrite step_timeout. destruct (step e s) as [s1|]; simpl; [apply IH | done].
Qed.

(** The time between [start_time] and [end_time] of a task that settles
    at attempt [k] is at least the time its attempts and sleeps take, and
    the status does not depend on it. *)
Lemma completed_whatever_the_time (tasks : list Task) (s0 s : State)
    (i : nat) (t : Task) (k : Z) (v : value) :
  tasks !! i = Some t → 0 ≤ k ≤ retry (self s0) →
  failed_before t k → settles (t k) = Returns v →
  reachable tasks s0 s → returned s →
  ∃ r ts te, record_of s i = Some r ∧ status r = COMPLETED ∧ result r = v
             ∧ error_message r = None
             ∧ start_time r = Some ts ∧ end_time r = Some te
             ∧ ts + run_time t k ≤ te.
Proof.
  intros Hi Hk Hf Hv Hr Hret.
  destruct (returned_record tasks s0 s i t Hr Hret Hi)
    as (r & w & o & Hrec & _ & _ & _ & _ & _ & Hs & Hc
        & ts & te & Hts & Hte & _ & _ & Hlb).
  destruct (settled_success _ _ _ k _ _ v Hs Hk Hf Hv) as [-> Hk'].
  rewrite Hk' in Hlb. simpl in Hc. destruct Hc as (? & ? & ?).
  exists r, ts, te. split_and!; try done. destruct Hlb; [lia | done].
Qed.

(** C1, on the code.  One pool thread, [retry = 0], a timeout of 10
    milliseconds, and one task whose work function takes 1000
    milliseconds and then returns a value: [run] returns, the record has
    status COMPLETED (not TIMEOUT), no error message, the produced value
    as [result], the output is that value (not the placeholder), and
    [end_time - start_time] is at least 1000, beyond the timeout. *)
Theorem C1_slow_task_is_completed :
  (∃ s, reachable [slow_task] slow_init s ∧ returned s)
  ∧ ∀ s, reachable [slow_task] slow_init s → returned s →
      ∃ r ts te, record_of s 0%nat = Some r
                 ∧ status r = COMPLETED ∧ result r = VStr "done"
                 ∧ error_message r = None
                 ∧ main s = MReturned [VStr "done"]
                 ∧ start_time r = Some ts ∧ end_time r = Some te
                 ∧ timeout (self s) = 10 ∧ timeout (self s) < te - ts.
Proof.
  split; [by apply run_returns|].
  intros s Hr Hret.
  destruct (completed_whatever_the_time [slow_task] slow_init s 0%nat
              slow_task 0 (VStr "done"))
    as (r & ts & te & Hrec & Hst & Hres & Hem & Hts & Hte & Hlb); try done.
  { apply failed_before_0. }
  assert (HT : timeout (self s) = 10).
  { by rewrite (inv_timeout _ _ _ _ _ _ (reachable_Inv _ _ _ Hr)). }
  exists r, ts, te. split_and!; try done.
  - destruct Hr as [es He]. destruct Hret as [rs Hm]. rewrite Hm. f_equal.
    destruct (returned_output _ _ _ _ _ He Hm) as (_ & Hp & Hf).
    simpl in Hp. apply Permutation_singleton_r in Hp. rewrite Hp in Hf.
    apply Forall2_cons_inv_l in Hf as (x & rs' & (r' & Hr' & Ho) & Hnil & ->).
    apply Forall2_nil_inv_l in Hnil as ->.
    rewrite Hrec in Hr'. injection Hr' as <-.
    destruct Ho as [[_ ->]|[[?|?] _]]; congruence.
  - rewrite HT. unfold run_time in Hlb. rewrite elapsed_0 in Hlb.
    simpl in Hlb. lia.
Qed.

(** ** Construction *)

(** C5, as the code has it.  [__init__] returns for every [max_workers],
    [retry] and [timeout] and stores them as given.  With
    [max_workers <= 0] it is [run] that raises, where it creates the
    pool: by then the counters are reset and the records created, and in
    every later state no task has run (every record is as [__init__] of
    [TaskResult] left it). *)
Theorem C5_construction_accepts_any_configuration (mw r t : Z) (h : Store)
    (clock : Z) :
  ∃ s, init mw r t h clock = Ok s
       ∧ max_workers (self s) = mw ∧ retry (self s) = r
       ∧ timeout (self s) = t
       ∧ total_tasks (self s) = 0 ∧ completed_tasks (self s) = 0
       ∧ engine_tasks s = Some ∅
       ∧ (mw ≤ 0 → ∀ tasks s',
            reachable tasks s s' →
            main s' = MRaised ThreadPoolExecutor_error
            ∧ total_tasks (self s') = Z.of_nat (length tasks)
            ∧ ∀ (i : nat) tk, tasks !! i = Some tk →
                record_of s' i = Some (TaskResult_init i tk)).
Proof.
  exists (init_state mw r t h clock). split_and!; try done.
  - unfold engine_tasks. simpl. by rewrite lookup_insert_eq, omap_empty.
  - intros Hmw tasks s' Hr. apply reachable_Inv in Hr. simpl in Hr.
    pose proof (inv_main _ _ _ _ _ _ Hr) as Hm.
    destruct (main s') as [| | |e]; try done; try lia.
    destruct Hm as (_ & Hnil & ->). split_and!; try done.
    + by destruct Hr.
    + intros i tk Hi.
      destruct (Inv_record _ _ _ _ _ _ Hr i tk Hi) as (r' & Hrec & _ & _ & Hw).
      rewrite Hnil in Hw. simpl in Hw. by subst r'.
Qed.

(** ** The snapshot of [get_task_status] *)

Lemma get_task_status_spec (s : State) (snap : loc) (s1 : State) :
  get_task_status s = Some (snap, s1) →
  ∃ d, dicts (store s) !! task_results (self s) = Some d
       ∧ snap = next_loc (store s)
       ∧ s1 = with_store (alloc_dict d (store s)).2 s.
Proof.
  unfold get_task_status.
  destruct (dicts (store s) !! task_results (self s)) as [d|]; [simpl|done].
  intros [= <- <-]. by exists d.
Qed.

(** C6, as the code has it.  [get_task_status] returns a new dict with
    the items of [self.task_results]: assigning, deleting or clearing
    entries of the returned dict leaves the task state of the engine as
    it is; the records are shared, so an attribute assigned on a record
    reached through the returned dict is assigned on the record of the
    engine. *)
Theorem C6_snapshot_is_a_shallow_copy (s : State) (snap : loc) (s1 : State) :
  (task_results (self s) < next_loc (store s))%nat →
  get_task_status s = Some (snap, s1) →
  snap ≠ task_results (self s)
  ∧ dicts (store s1) !! snap = dicts (store s) !! task_results (self s)
  ∧ engine_tasks s1 = engine_tasks s
  ∧ (∀ m s2, (∀ k f, m ≠ RecordSetAttr k f) →
       mutate snap m s1 = Some s2 → engine_tasks s2 = engine_tasks s1)
  ∧ (∀ k f r s2, record_of s1 k = Some r →
       mutate snap (RecordSetAttr k f) s1 = Some s2 →
       record_of s2 k = Some (f r)).
Proof.
  intros Hfresh Hget.
  destruct (get_task_status_spec s snap s1 Hget) as (d & Hd & -> & ->).
  assert (Hne : next_loc (store s) ≠ task_results (self s)) by lia.
  split_and!.
  - done.
  - simpl. by rewrite lookup_insert_eq.
  - unfold engine_tasks. simpl. by rewrite lookup_insert_ne.
  - intros m s2 Hm. unfold mutate. simpl. rewrite lookup_insert_eq. simpl.
    unfold engine_tasks. simpl.
    destruct m as [k l|k| |k f].
    + intros [= <-]. simpl. by rewrite !lookup_insert_ne.
    + destruct (d !! k); [|done]. intros [= <-]. simpl.
      by rewrite !lookup_insert_ne.
    + intros [= <-]. simpl. by rewrite !lookup_insert_ne.
    + by destruct (Hm k f).
  - intros k f r s2. unfold record_of, record_loc, mutate. simpl.
    rewrite lookup_insert_ne by done. rewrite Hd, lookup_insert_eq. simpl.
    destruct (d !! k) as [l|] eqn:Hk; [simpl|done]. intros Hr. rewrite Hr.
    simpl. intros [= <-]. simpl. rewrite lookup_insert_ne by done.
    rewrite Hd. simpl. rewrite Hk. simpl. by rewrite lookup_insert_eq.
Qed.

(** ** The statistics *)

Lemma dict_items (N base : nat) (d : gmap nat loc) :
  (∀ i : nat, d !! i = if decide (i < N)%nat then Some (base + i)%nat else None) →
  map_to_list d ≡ₚ (λ i : nat, (i, (base + i)%nat)) <$> seq 0 N.
Proof.
  intros Hd. apply NoDup_Permutation.
  - apply NoDup_map_to_list.
  - apply NoDup_fmap_2; [|apply NoDup_seq]. by intros i j [= ->].
  - intros [i l]. rewrite elem_of_map_to_list, Hd, list_elem_of_fmap.
    split.
    + case_decide; [|done]. intros [= <-]. exists i. split; [done|].
      apply elem_of_seq. lia.
    + intros (j & [= -> ->] & Hj%elem_of_seq).
      by rewrite decide_True by lia.
Qed.

Lemma Forall2_omap {A B} (g : A → option B) (l : list A) (k : list B) :
  Forall2 (λ x y, g x = Some y) l k → omap g l = k.
Proof.
  induction 1 as [|x y l k Hxy _ IH]; simpl; [done|].
  rewrite Hxy. f_equal. exact IH.
Qed.

Lemma omap_all_Some {A B} (g : A → option B) (l : list A) :
  (∀ x, x ∈ l → is_Some (g x)) → Forall2 (λ x y, g x = Some y) l (omap g l).
Proof.
  induction l as [|x l IH]; intros Hg; simpl; [constructor|].
  destruct (Hg x) as [y Hy]; [left|]. rewrite Hy.
  constructor; [done|]. apply IH. intros z Hz. apply Hg. by right.
Qed.

(** [self.task_results.values()] lists, in some order, the records of the
    ids [0 .. N-1]. *)
Lemma Inv_dict_values (tasks : list Task) (mw R T t0 : Z) (s : State) :
  Inv tasks mw R T t0 s →
  ∃ d recs, dicts (store s) !! task_results (self s) = Some d
    ∧ (d = ∅ ↔ tasks = [])
    ∧ dict_values s = Some recs
    ∧ recs ≡ₚ omap (record_of s) (seq 0 (length tasks))
    ∧ length recs = length tasks.
Proof.
  intros HI. pose proof HI as [].
  destruct inv_dict0 as (base & d & Hd & Hdl & Hrec).
  assert (Hobj : ∀ i : nat, (i < length tasks)%nat →
            ∃ r, objs (store s) !! (base + i)%nat = Some r
                 ∧ record_of s i = Some r).
  { intros i Hi. destruct (lookup_lt_is_Some_2 tasks i Hi) as [t Ht].
    destruct (Hrec i t Ht) as (r & Hr & _). exists r. split; [done|].
    unfold record_of, record_loc. rewrite Hd. simpl. rewrite Hdl.
    by rewrite decide_True by done. }
  pose proof (dict_items _ _ _ Hdl) as Hitems.
  destruct (mapM_is_Some_2 (λ kl : nat * loc, objs (store s) !! kl.2)
              (map_to_list d)) as [recs Hrecs].
  { apply Forall_forall. intros [i l] Hil.
    apply elem_of_map_to_list in Hil. rewrite Hdl in Hil.
    case_decide as Hi; [|done]. injection Hil as <-.
    destruct (Hobj i Hi) as (r & Hr & _). simpl. by exists r. }
  assert (Hall : Forall2 (λ (i : nat) r, record_of s i = Some r)
            (seq 0 (length tasks)) (omap (record_of s) (seq 0 (length tasks)))).
  { apply omap_all_Some. intros i Hi%elem_of_seq.
    destruct (Hobj i) as (r & _ & Hr); [lia | by exists r]. }
  assert (Hperm : recs ≡ₚ omap (record_of s) (seq 0 (length tasks))).
  { apply mapM_Some_1, Forall2_omap in Hrecs. rewrite <- Hrecs, Hitems.
    erewrite list_omap_ext; [done|].
    apply Forall2_fmap_l, Forall_Forall2_diag.
    apply Forall_forall. intros i Hi%elem_of_seq. simpl.
    destruct (Hobj i) as (r & Hr & Hr'); [lia|].
    exact (eq_trans Hr (eq_sym Hr')). }
  exists d, recs. split_and!; try done.
  - split.
    + intros ->. destruct tasks as [|t ts]; [done|].
      specialize (Hdl 0%nat). rewrite lookup_empty in Hdl.
      by rewrite decide_True in Hdl by (simpl; lia).
    + intros ->. apply map_eq. intros i. rewrite Hdl, lookup_empty.
      by rewrite decide_False by (simpl; lia).
  - unfold dict_values. rewrite Hd. done.
  - rewrite Hperm. apply Forall2_length in Hall. rewrite <- Hall.
    apply length_seq.
Qed.

Lemma count_statuses_step_lookup (acc : gmap TaskStatus Z) (r : TaskResult)
    (st : TaskStatus) :
  default 0 (<[status r := default 0 (acc !! status r) + 1]> acc !! st)
  = default 0 (acc !! st) + (if decide (status r = st) then 1 else 0).
Proof.
  case_decide as Hst.
  - subst st. by rewrite lookup_insert_eq.
  - rewrite lookup_insert_ne by done. lia.
Qed.

Lemma count_statuses_fold_lookup (rs : list TaskResult) (st : TaskStatus) :
  ∀ acc : gmap TaskStatus Z,
    default 0 (foldl (λ acc r, <[status r := default 0 (acc !! status r) + 1]> acc)
                 acc rs !! st)
    = default 0 (acc !! st)
      + Z.of_nat (length (filter (λ r, status r = st) rs)).
Proof.
  induction rs as [|r rs IH]; intros acc.
  - simpl. lia.
  - cbn [foldl]. rewrite IH, count_statuses_step_lookup, filter_cons.
    case_decide; simpl; lia.
Qed.

Lemma sum_counts_step (acc : gmap TaskStatus Z) (k : TaskStatus) :
  sum_counts (<[k := default 0 (acc !! k) + 1]> acc) = sum_counts acc + 1.
Proof.
  unfold sum_counts.
  destruct (acc !! k) as [v|] eqn:Hk; simpl.
  - rewrite <- insert_delete_eq.
    rewrite map_fold_insert_L;
      [|intros; lia|by rewrite lookup_delete_eq].
    rewrite (map_fold_delete_L _ _ k v acc); [lia|intros; lia|done].
  - rewrite map_fold_insert_L; [lia|intros; lia|done].
Qed.

Lemma sum_counts_fold (rs : list TaskResult) : ∀ acc : gmap TaskStatus Z,
  sum_counts (foldl (λ acc r, <[status r := default 0 (acc !! status r) + 1]> acc)
                acc rs)
  = sum_counts acc + Z.of_nat (length rs).
Proof.
  induction rs as [|r rs IH]; intros acc; simpl; [lia|].
  rewrite IH, sum_counts_step. lia.
Qed.

Lemma foldl_max_spec (l : list Z) : ∀ x : Z,
  foldl Z.max x l ∈ x :: l ∧ ∀ y, y ∈ x :: l → y ≤ foldl Z.max x l.
Proof.
  induction l as [|a l IH]; intros x; simpl.
  - split; [left|]. intros y ->%list_elem_of_singleton. lia.
  - destruct (IH (Z.max x a)) as [Hin Hub]. split.
    + apply elem_of_cons in Hin as [->|Hin].
      * destruct (Z.max_spec x a) as [[_ ->]|[_ ->]]; [right; left | left].
      * right. by right.
    + intros y Hy. assert (Hm := Hub (Z.max x a) ltac:(left)).
      apply elem_of_cons in Hy as [->|Hy]; [lia|].
      apply elem_of_cons in Hy as [->|Hy]; [lia|].
      apply Hub. by right.
Qed.

Lemma pyfloat_leb_refl (x : pyfloat) : pyfloat_leb x x = true.
Proof. destruct x; simpl; try done. lia. Qed.

Lemma pyfloat_leb_trans (x y z : pyfloat) :
  pyfloat_leb x y = true → pyfloat_leb y z = true → pyfloat_leb x z = true.
Proof. destruct x, y, z; simpl; try done. lia. Qed.

Lemma pyfloat_min_spec (x y : pyfloat) :
  (pyfloat_min x y = x ∨ pyfloat_min x y = y)
  ∧ pyfloat_leb (pyfloat_min x y) x = true
  ∧ pyfloat_leb (pyfloat_min x y) y = true.
Proof.
  unfold pyfloat_min. destruct (pyfloat_leb x y) eqn:Hxy.
  - split_and!; [by left|apply pyfloat_leb_refl|done].
  - split_and!; [by right| |apply pyfloat_leb_refl].
    destruct x, y; simpl in *; try done. lia.
Qed.

Lemma foldl_min_spec (l : list pyfloat) : ∀ x : pyfloat,
  foldl pyfloat_min x l ∈ x :: l
  ∧ ∀ y, y ∈ x :: l → pyfloat_leb (foldl pyfloat_min x l) y = true.
Proof.
  induction l as [|a l IH]; intros x; simpl.
  - split; [left|]. intros y ->%list_elem_of_singleton. apply pyfloat_leb_refl.
  - destruct (IH (pyfloat_min x a)) as [Hin Hlb].
    destruct (pyfloat_min_spec x a) as (Hor & Hx & Ha). split.
    + apply elem_of_cons in Hin as [->|Hin].
      * destruct Hor as [->| ->]; [left | right; left].
      * right. by right.
    + intros y Hy. assert (Hm := Hlb (pyfloat_min x a) ltac:(left)).
      apply elem_of_cons in Hy as [->|Hy]; [by eapply pyfloat_leb_trans|].
      apply elem_of_cons in Hy as [->|Hy]; [by eapply pyfloat_leb_trans|].
      apply Hlb. by right.
Qed.

(** Once [run] has returned, every record has both timestamps. *)
Lemma returned_times (tasks : list Task) (s0 s : State) (k : nat)
    (r : TaskResult) :
  reachable tasks s0 s → returned s → record_of s k = Some r →
  ∃ ts te, start_time r = Some ts ∧ end_time r = Some te ∧ now s0 ≤ ts ≤ te.
Proof.
  intros Hr Hret Hrec.
  assert (Hlt : (k < length tasks)%nat).
  { apply (Inv_record_dom _ _ _ _ _ _ (reachable_Inv _ _ _ Hr)). by eexists. }
  destruct (lookup_lt_is_Some_2 tasks k Hlt) as [t Ht].
  destruct (returned_record tasks s0 s k t Hr Hret Ht)
    as (r' & w & o & Hrec' & _ & _ & _ & _ & _ & _ & _
        & ts & te & Hts & Hte & Hle & _).
  rewrite Hrec in Hrec'. injection Hrec' as <-. by exists ts, te.
Qed.

(** Once [run] has returned, with clock readings that are positive,
    [execution_time] of every record is [end_time - start_time]. *)
Lemma returned_execution_time (tasks : list Task) (s0 s : State) (k : nat)
    (r : TaskResult) :
  0 < now s0 → reachable tasks s0 s → returned s → record_of s k = Some r →
  ∃ ts te, start_time r = Some ts ∧ end_time r = Some te
           ∧ execution_time r = Some (te - ts) ∧ 0 ≤ te - ts.
Proof.
  intros Hclock Hr Hret Hrec.
  destruct (returned_times tasks s0 s k r Hr Hret Hrec)
    as (ts & te & Hts & Hte & Hle).
  exists ts, te. split_and!; try done; try lia.
  unfold execution_time, truthy. rewrite Hts, Hte.
  destruct (Z.eqb_spec ts 0); [lia|]. destruct (Z.eqb_spec te 0); [lia|]. done.
Qed.

(** C7, as the code has it.  After [run] has returned on a batch of [N]
    tasks, with clock readings that are positive: for [N = 0]
    [get_statistics] returns only the marker of "no task executed"; for
    [N >= 1] it reports the total [N], the completed count [N], a
    breakdown in which each status has the number of records with that
    status and whose counts sum to [N], and the span
    [max end_time - min start_time] over all records. *)
Theorem C7_statistics_after_run (tasks : list Task) (s0 s : State) :
  0 < now s0 → reachable tasks s0 s → returned s →
  (tasks = [] → get_statistics s = Some NoTasks)
  ∧ (tasks ≠ [] →
     ∃ by_status span,
       get_statistics s
       = Some (Stats (Z.of_nat (length tasks)) (Z.of_nat (length tasks))
                 by_status (Fin span))
       ∧ sum_counts by_status = Z.of_nat (length tasks)
       ∧ (∀ st, default 0 (by_status !! st)
                = Z.of_nat (length (filter (λ r, status r = st)
                            (omap (record_of s) (seq 0 (length tasks))))))
       ∧ ∃ te ts, span = te - ts
           ∧ (∃ i r, record_of s i = Some r ∧ end_time r = Some te)
           ∧ (∃ j r, record_of s j = Some r ∧ start_time r = Some ts)
           ∧ ∀ k r, record_of s k = Some r →
               ∃ tsk tek, start_time r = Some tsk ∧ end_time r = Some tek
                          ∧ tek ≤ te ∧ ts ≤ tsk).
Proof.
  intros Hclock Hr Hret.
  pose proof (reachable_Inv _ _ _ Hr) as HI.
  destruct (Inv_dict_values _ _ _ _ _ _ HI)
    as (d & recs & Hd & Hempty & Hvals & Hperm & Hlen).
  unfold get_statistics. rewrite Hd. simpl. split.
  { intros Hnil. by rewrite decide_True by (by apply Hempty). }
  intros Hne. rewrite decide_False by (by rewrite Hempty). rewrite Hvals. simpl.
  destruct recs as [|r0 rs'].
  { destruct tasks; [done | simpl in Hlen; lia]. }
  (* every listed record is the record of some id, with its timestamps *)
  assert (Hrecs : ∀ r, r ∈ r0 :: rs' →
            ∃ k ts te, record_of s k = Some r ∧ start_time r = Some ts
                       ∧ end_time r = Some te ∧ 0 < ts ≤ te).
  { intros r Hin. rewrite Hperm in Hin.
    apply list_elem_of_omap in Hin as (k & _ & Hk).
    destruct (returned_times tasks s0 s k r Hr Hret Hk) as (ts & te & ? & ? & ?).
    exists k, ts, te. split_and!; try done; lia. }
  assert (Hall : ∀ k r, record_of s k = Some r → r ∈ r0 :: rs').
  { intros k r Hk. rewrite Hperm. apply list_elem_of_omap. exists k.
    split; [|done]. apply elem_of_seq.
    assert (k < length tasks)%nat; [|lia].
    apply (Inv_record_dom _ _ _ _ _ _ HI). by eexists. }
  assert (Hend : ∀ r te, r ∈ r0 :: rs' → end_time r = Some te → end_or_0 r = te).
  { intros r te Hin Hte. unfold end_or_0. rewrite Hte.
    destruct (Z.eqb_spec te 0); [by subst | done]. }
  assert (Hstart : ∀ r ts, r ∈ r0 :: rs' → start_time r = Some ts →
                           start_or_inf r = Fin ts).
  { intros r ts Hin Hts.
    destruct (Hrecs r Hin) as (k & ts' & te' & _ & Hts' & _ & ?).
    unfold start_or_inf. rewrite Hts. rewrite Hts in Hts'. injection Hts' as <-.
    destruct (Z.eqb_spec ts 0); [lia | done]. }
  (* the maximum of the end times *)
  destruct (foldl_max_spec (end_or_0 <$> rs') (end_or_0 r0)) as [Hmax_in Hmax_ub].
  change (end_or_0 r0 :: (end_or_0 <$> rs')) with (end_or_0 <$> r0 :: rs')
    in Hmax_in, Hmax_ub.
  apply list_elem_of_fmap in Hmax_in as (rmax & Hmax & Hrmax).
  destruct (Hrecs rmax Hrmax) as (i & ts_i & te & Hi & _ & Hte & _).
  rewrite (Hend rmax te Hrmax Hte) in Hmax.
  (* the minimum of the start times *)
  destruct (foldl_min_spec (start_or_inf <$> rs') (start_or_inf r0))
    as [Hmin_in Hmin_lb].
  change (start_or_inf r0 :: (start_or_inf <$> rs'))
    with (start_or_inf <$> r0 :: rs') in Hmin_in, Hmin_lb.
  apply list_elem_of_fmap in Hmin_in as (rmin & Hmin & Hrmin).
  destruct (Hrecs rmin Hrmin) as (j & ts & te_j & Hj & Hts & _ & _).
  rewrite (Hstart rmin ts Hrmin Hts) in Hmin.
  rewrite Hmax, Hmin. simpl.
  exists (count_statuses (r0 :: rs')), (te - ts). split_and!.
  - rewrite (inv_total _ _ _ _ _ _ HI), (inv_completed _ _ _ _ _ _ HI).
    destruct Hret as [rs Hm].
    pose proof (inv_main _ _ _ _ _ _ HI) as Hmain. rewrite Hm in Hmain.
    destruct Hmain as (_ & _ & _ & ->). done.
  - unfold count_statuses. rewrite sum_counts_fold.
    unfold sum_counts. rewrite map_fold_empty. lia.
  - intros st. unfold count_statuses. rewrite count_statuses_fold_lookup.
    rewrite lookup_empty. simpl. by rewrite Hperm.
  - exists te, ts. split_and!; [done|by exists i, rmax|by exists j, rmin|].
    intros k r Hk. pose proof (Hall k r Hk) as Hin.
    destruct (Hrecs r Hin) as (k' & tsk & tek & _ & Htsk & Htek & _).
    exists tsk, tek. split_and!; try done.
    + rewrite <- (Hend r tek Hin Htek), <- Hmax at 1. apply Hmax_ub.
      apply list_elem_of_fmap. by exists r.
    + assert (Hle : pyfloat_leb (Fin ts) (start_or_inf r) = true).
      { rewrite <- Hmin. apply Hmin_lb. apply list_elem_of_fmap. by exists r. }
      rewrite (Hstart r tsk Hin Htsk) in Hle. simpl in Hle. lia.
Qed.

(** The store of a processor is well formed after [__init__] and in
    every state of [run]: the dict of the engine was allocated before the
    next free location. *)
Lemma init_store_fresh (mw r t : Z) (h : Store) (clock : Z) :
  (task_results (self (init_state mw r t h clock))
   < next_loc (store (init_state mw r t h clock)))%nat.
Proof. simpl. lia. Qed.

Lemma reachable_store_fresh (tasks : list Task) (s0 s : State) :
  reachable tasks s0 s → (task_results (self s) < next_loc (store s))%nat.
Proof. intros Hr. apply reachable_Inv in Hr. by destruct Hr. Qed.

(** * The claims on concrete runs *)

Lemma failed_before_always_fails (d : Z) (e : exn) (a : Z) :
  failed_before (always_fails d e) a.
Proof. intros b _. by exists e. Qed.

(** The task that always fails, run to the end with two retries: three
    attempts, sleeps of 100 and 200 milliseconds between them, status
    FAILED with the message of the error. *)
Example failing_run :
  exec run_failing (run_begin [failing] demo_init) = Some failing_final
  ∧ main failing_final = MReturned [VNone]
  ∧ record_of failing_final 0%nat
    = Some (mkTaskResult 0 failing VNone FAILED (Some "boom")
              (Some 1000) (Some 1330) 2)
  ∧ effects <$> workers failing_final !! 0%nat
    = Some [Process 0; Sleep 100; Process 1; Sleep 200; Process 2]
  ∧ get_statistics failing_final
    = Some (Stats 1 1 {[FAILED := 1]} (Fin 330)).
Proof. split_and!; vm_compute; reflexivity. Qed.

(** C2 on a run: the task fails once and succeeds at its second attempt. *)
Lemma C2_witness :
  failed_before flaky 1 ∧ settles (flaky 1) = Returns (VInt 7)
  ∧ (∃ s, reachable [flaky] demo_init s ∧ returned s)
  ∧ ∀ s, reachable [flaky] demo_init s → returned s →
      ∃ r, record_of s 0%nat = Some r ∧ status r = COMPLETED
           ∧ retry_count r = 1 ∧ result r = VInt 7.
Proof.
  assert (Hf : failed_before flaky 1).
  { intros b Hb. assert (b = 0) as -> by lia. by eexists. }
  split; [exact Hf|]. split; [reflexivity|].
  apply (C2_fails_k_times_then_succeeds [flaky] demo_init 0%nat flaky 1 (VInt 7)).
  - reflexivity.
  - reflexivity.
  - simpl. lia.
  - exact Hf.
  - reflexivity.
Defined.

(** C3 on a run: the task raises [ValueError] at all three attempts. *)
Lemma C3_witness :
  failed_before failing (retry (self demo_init) + 1)
  ∧ (∃ s, reachable [failing] demo_init s ∧ returned s)
  ∧ ∀ s, reachable [failing] demo_init s → returned s →
      ∃ r e, record_of s 0%nat = Some r
             ∧ settles (failing (retry (self demo_init))) = Raises e
             ∧ retry_count r = retry (self demo_init)
             ∧ match e with
               | PyException m =>
                   status r = FAILED ∧ error_message r = Some m
               | PyTimeoutError _ =>
                   status r = TIMEOUT
                   ∧ error_message r = Some timeout_message
               end.
Proof.
  split; [apply failed_before_always_fails|].
  apply (C3_fails_every_attempt [failing] demo_init 0%nat failing).
  - reflexivity.
  - reflexivity.
  - simpl. lia.
  - apply failed_before_always_fails.
Defined.

(** C3 as stated fails: the work function raises at both attempts, and
    the record ends with status TIMEOUT and the fixed message, not FAILED
    and the message of the last error. *)
Lemma C3_counterexample :
  failed_before timing_out (retry (self timing_out_init) + 1)
  ∧ settles (timing_out (retry (self timing_out_init)))
    = Raises (PyTimeoutError "read timed out")
  ∧ reachable [timing_out] timing_out_init timing_out_final
  ∧ main timing_out_final = MReturned [VNone]
  ∧ status <$> record_of timing_out_final 0%nat = Some TIMEOUT
  ∧ error_message <$> record_of timing_out_final 0%nat
    = Some (Some timeout_message)
  ∧ retry_count <$> record_of timing_out_final 0%nat = Some 1.
Proof.
  split_and!; try (vm_compute; reflexivity).
  - apply failed_before_always_fails.
  - exists run_timing_out. vm_compute. reflexivity.
Qed.

(** C4 on a state in which the task is in its second attempt. *)
Lemma C4_witness :
  reachable [failing] demo_init failing_retrying
  ∧ record_of failing_retrying 0%nat
    = Some (mkTaskResult 0 failing VNone RETRYING None (Some 1000) None 1)
  ∧ 0 ≤ 1 ≤ Z.max 0 (retry (self failing_retrying))
  ∧ retry (self failing_retrying) = retry (self demo_init)
  ∧ (retry (self demo_init) < 0 → 1 = 0).
Proof.
  assert (Hr : reachable [failing] demo_init failing_retrying).
  { exists run_to_retry. vm_compute. reflexivity. }
  assert (Hrec : record_of failing_retrying 0%nat
            = Some (mkTaskResult 0 failing VNone RETRYING None (Some 1000) None 1)).
  { vm_compute. reflexivity. }
  split; [exact Hr|]. split; [exact Hrec|].
  exact (C4_retry_count_bounded [failing] demo_init failing_retrying 0%nat
           (mkTaskResult 0 failing VNone RETRYING None (Some 1000) None 1)
           Hr Hrec).
Defined.

(** C4 as stated fails: a processor constructed with [retry = -1] runs
    a batch to its return, and the record has [retry_count = 0], above
    the configured limit. *)
Lemma C4_counterexample :
  init 1 (-1) 10000 store0 1000 = Ok negative_retry_init
  ∧ reachable [failing] negative_retry_init negative_final
  ∧ main negative_final = MReturned [VNone]
  ∧ retry (self negative_final) = -1
  ∧ record_of negative_final 0%nat
    = Some (mkTaskResult 0 failing VNone COMPLETED None (Some 1000)
              (Some 1000) 0)
  ∧ ∃ r, record_of negative_final 0%nat = Some r
         ∧ ¬ retry_count r ≤ retry (self negative_final).
Proof.
  split_and!; try (vm_compute; reflexivity).
  - exists run_negative. vm_compute. reflexivity.
  - eexists. split; [vm_compute; reflexivity|]. vm_compute. by intros H.
Qed.

(** C5 as stated fails: constructing the processor with
    [max_workers = 0] returns, with [0] stored. *)
Lemma C5_counterexample :
  ∃ s, init 0 2 10000 store0 1000 = Ok s
       ∧ max_workers (self s) = 0 ∧ main s = MIdle.
Proof. by exists (init_state 0 2 10000 store0 1000). Qed.

(** C6 on the snapshot taken after [run([failing])]. *)
Lemma C6_witness :
  (task_results (self snap_state) < next_loc (store snap_state))%nat
  ∧ get_task_status snap_state = Some (snap_taken.1, snap_taken.2)
  ∧ snap_taken.1 ≠ task_results (self snap_state)
  ∧ engine_tasks snap_taken.2 = engine_tasks snap_state
  ∧ (∀ s2, mutate snap_taken.1 DictClear snap_taken.2 = Some s2 →
           engine_tasks s2 = engine_tasks snap_taken.2).
Proof.
  assert (H1 : (task_results (self snap_state) < next_loc (store snap_state))%nat).
  { vm_compute. lia. }
  assert (H2 : get_task_status snap_state = Some (snap_taken.1, snap_taken.2)).
  { vm_compute. reflexivity. }
  destruct (C6_snapshot_is_a_shallow_copy snap_state snap_taken.1 snap_taken.2
              H1 H2) as (Hne & _ & Heq & Hdict & _).
  split; [exact H1|]. split; [exact H2|]. split; [exact Hne|].
  split; [exact Heq|].
  intros s2. apply Hdict. intros k f Hm. discriminate Hm.
Defined.

(** C6 as stated fails: an attribute assigned on a record of the
    snapshot is assigned on the record the engine owns. *)
Lemma C6_counterexample :
  reachable [failing] demo_init snap_state
  ∧ main snap_state = MReturned [VNone]
  ∧ get_task_status snap_state = Some snap_taken
  ∧ mutate snap_taken.1 (RecordSetAttr 0 (set_status COMPLETED)) snap_taken.2
    = Some snap_mutated
  ∧ status <$> record_of snap_taken.2 0%nat = Some FAILED
  ∧ status <$> record_of snap_mutated 0%nat = Some COMPLETED
  ∧ engine_tasks snap_mutated ≠ engine_tasks snap_taken.2.
Proof.
  split_and!; try (vm_compute; reflexivity).
  - exists run_failing. vm_compute. reflexivity.
  - intros Heq. vm_compute in Heq. discriminate Heq.
Qed.

(** C7 on the run of two tasks. *)
Lemma C7_witness :
  0 < now demo_init
  ∧ reachable [failing; quick] demo_init mixed_final
  ∧ returned mixed_final
  ∧ ∃ by_status span,
      get_statistics mixed_final = Some (Stats 2 2 by_status (Fin span))
      ∧ sum_counts by_status = 2.
Proof.
  assert (H1 : 0 < now demo_init) by reflexivity.
  assert (H2 : reachable [failing; quick] demo_init mixed_final).
  { exists run_two. vm_compute. reflexivity. }
  assert (H3 : returned mixed_final).
  { eexists. vm_compute. reflexivity. }
  split; [exact H1|]. split; [exact H2|]. split; [exact H3|].
  destruct (C7_statistics_after_run [failing; quick] demo_init mixed_final
              H1 H2 H3) as [_ Hne].
  destruct (Hne ltac:(done)) as (b & span & Hg & Hsum & _).
  exists b, span. split; [exact Hg | exact Hsum].
Defined.

(** C7 as stated fails: after [run([])] has returned, [get_statistics]
    reports no counts and no span, only the marker. *)
Lemma C7_counterexample :
  reachable [] demo_init empty_final
  ∧ main empty_final = MReturned []
  ∧ get_statistics empty_final = Some NoTasks.
Proof.
  split_and!; try (vm_compute; reflexivity).
  exists [Return]. vm_compute. reflexivity.
Qed.

(** While no task has started, the span [get_statistics] reports is
    minus infinity. *)
Lemma statistics_before_any_start :
  get_statistics (run_begin [failing] demo_init)
  = Some (Stats 1 0 {[PENDING := 1]} NInf).
Proof. vm_compute. reflexivity. Qed.



(** The output follows the order of collection: the second task is
    collected first, and its value comes first. *)
Lemma output_order_example :
  exec run_two (run_begin [failing; quick] demo_init) = Some mixed_final
  ∧ collected_ids run_two = [1; 0]%nat
  ∧ main mixed_final = MReturned [VInt 7; VNone].
Proof. split_and!; vm_compute; reflexivity. Qed.

(** C9 on the state in which the task sleeps after its first attempt. *)
Lemma C9_witness :
  reachable [failing] demo_init failing_asleep
  ∧ workers failing_asleep !! 0%nat
    = Some (mkWorker (WSleep 0 1110) [Process 0; Sleep 100])
  ∧ (∀ e, [Process 0; Sleep 100] !! 1%nat = Some e →
       e = Sleep (100 * (0 + 1)) ∧ 0 < retry (self demo_init)
       ∧ ∃ err, settles (failing 0) = Raises err)
  ∧ now failing_asleep < 1110
  ∧ worker_step 0 failing_asleep = None.
Proof.
  assert (H1 : reachable [failing] demo_init failing_asleep).
  { exists run_to_sleep. vm_compute. reflexivity. }
  assert (H2 : workers failing_asleep !! 0%nat
               = Some (mkWorker (WSleep 0 1110) [Process 0; Sleep 100])).
  { vm_compute. reflexivity. }
  assert (H3 : now failing_asleep < 1110) by (vm_compute; reflexivity).
  split; [exact H1|]. split; [exact H2|].
  destruct (C9_linear_backoff [failing] demo_init failing_asleep 0%nat failing
              (mkWorker (WSleep 0 1110) [Process 0; Sleep 100]) H1 eq_refl H2)
    as (_ & Hsleep & _ & _ & Hwake & _).
  split.
  - intros e He. destruct (Hsleep 0%nat e He) as (? & ? & ? & _). by split_and!.
  - split; [exact H3|].
    destruct (Hwake 0 1110 eq_refl) as (_ & Hwait & _). exact (Hwait H3).
Defined.

(** C10 on the run of a failing task and a task that returns [None]. *)
Lemma C10_witness :
  exec run_two (run_begin [failing; none_task] demo_init) = Some two_final
  ∧ main two_final = MReturned [VNone; VNone]
  ∧ collected_ids run_two = [1; 0]%nat
  ∧ failed_before none_task 0 ∧ settles (none_task 0) = Returns VNone
  ∧ failed_before failing (retry (self demo_init) + 1)
  ∧ [VNone; VNone] !! 0%nat = Some VNone
  ∧ [VNone; VNone] !! 1%nat = Some VNone
  ∧ ∃ ri rj m, record_of two_final 1%nat = Some ri
      ∧ record_of two_final 0%nat = Some rj
      ∧ status ri = COMPLETED ∧ (status rj = FAILED ∨ status rj = TIMEOUT)
      ∧ result ri = VNone ∧ result rj = VNone
      ∧ error_message ri = None ∧ error_message rj = Some m
      ∧ retry_count ri = 0 ∧ retry_count rj = retry (self demo_init).
Proof.
  assert (H1 : exec run_two (run_begin [failing; none_task] demo_init)
               = Some two_final) by (vm_compute; reflexivity).
  assert (H2 : main two_final = MReturned [VNone; VNone])
    by (vm_compute; reflexivity).
  assert (H3 : failed_before none_task 0) by apply failed_before_0.
  assert (H4 : failed_before failing (retry (self demo_init) + 1))
    by apply failed_before_always_fails.
  split; [exact H1|]. split; [exact H2|]. split; [reflexivity|].
  split; [exact H3|]. split; [reflexivity|]. split; [exact H4|].
  apply (C10_none_result_indistinguishable [failing; none_task] demo_init
           two_final run_two [VNone; VNone] 0%nat 1%nat 1%nat 0%nat
           none_task failing 0 H1 H2 eq_refl eq_refl eq_refl eq_refl).
  - simpl. lia.
  - exact H3.
  - reflexivity.
  - exact H4.
Defined.

(** C10 as stated fails: the record of the task that returned [None] and
    the record of the task that failed differ in [status], and also in
    [error_message] ([None] against the message of the error) and in
    [retry_count]. *)
Lemma C10_counterexample :
  exec run_two (run_begin [failing; none_task] demo_init) = Some two_final
  ∧ main two_final = MReturned [VNone; VNone]
  ∧ record_of two_final 1%nat
    = Some (mkTaskResult 1 none_task VNone COMPLETED None
              (Some 1000) (Some 1010) 0)
  ∧ record_of two_final 0%nat
    = Some (mkTaskResult 0 failing VNone FAILED (Some "boom")
              (Some 1000) (Some 1330) 2)
  ∧ error_message <$> record_of two_final 1%nat = Some None
  ∧ error_message <$> record_of two_final 0%nat = Some (Some "boom")
  ∧ retry_count <$> record_of two_final 1%nat = Some 0
  ∧ retry_count <$> record_of two_final 0%nat = Some 2.
Proof. split_and!; vm_compute; reflexivity. Qed.

(** * Further properties of the module *)

(** ** The life of a record *)

(** The record of an id, in a state of [run], with what the invariant
    says about it. *)
Lemma reachable_record (tasks : list Task) (s0 s : State) (i : nat)
    (r : TaskResult) :
  reachable tasks s0 s → record_of s i = Some r →
  ∃ t, tasks !! i = Some t ∧ task_id r = i ∧ original_task r = t
       ∧ match workers s !! i with
         | Some w => task_inv (retry (self s0)) (now s0) (now s) t w
                       (bool_decide (i ∈ yielded s)) r
         | None => r = TaskResult_init i t
         end.
Proof.
  intros Hr Hrec. apply reachable_Inv in Hr.
  assert (Hlt : (i < length tasks)%nat).
  { apply (Inv_record_dom _ _ _ _ _ _ Hr). by eexists. }
  destruct (lookup_lt_is_Some_2 tasks i Hlt) as [t Ht].
  destruct (Inv_record _ _ _ _ _ _ Hr i t Ht) as (r' & Hrec' & Hid & Hot & Hw).
  rewrite Hrec in Hrec'. injection Hrec' as <-.
  by exists t.
Qed.

Lemma collected_terminal (o : outcome) (r : TaskResult) :
  collected o r → terminal (status r) = true.
Proof. destruct o as [v|[m|m]]; simpl; by intros (-> & _). Qed.

Lemma running_status_not_terminal (a : Z) : terminal (running_status a) = false.
Proof. unfold running_status. by case_decide. Qed.

(** X1.  In every state of [run], what the main thread has written on
    a record is backed by what the work function of the task did.  A
    record whose status is not terminal has no error message.  A
    COMPLETED record has no error message, and its [result] is the value
    the work function returned at the attempt number [retry_count], the
    attempts before it having raised; with a negative retry limit the
    work function was not called and [result] is [None].  A [result]
    other than [None] is a value the work function returned.  An error
    message is only on a record with [result = None] whose task raised
    at all [retry + 1] attempts: on a FAILED record it is the message of
    the last error, which is no [TimeoutError]; on a TIMEOUT record it
    is the fixed message, and the last error is a [TimeoutError]. *)
Theorem record_tells_what_the_work_function_did (tasks : list Task)
    (s0 s : State) (i : nat) (t : Task) (r : TaskResult) :
  reachable tasks s0 s → tasks !! i = Some t → record_of s i = Some r →
  (terminal (status r) = false → error_message r = None)
  ∧ (status r = COMPLETED →
       error_message r = None
       ∧ ((0 ≤ retry_count r ≤ retry (self s0)
           ∧ failed_before t (retry_count r)
           ∧ settles (t (retry_count r)) = Returns (result r))
          ∨ (retry (self s0) < 0 ∧ result r = VNone ∧ retry_count r = 0)))
  ∧ (result r ≠ VNone →
       0 ≤ retry_count r ≤ retry (self s0)
       ∧ failed_before t (retry_count r)
       ∧ settles (t (retry_count r)) = Returns (result r))
  ∧ (∀ m, error_message r = Some m →
       result r = VNone ∧ 0 ≤ retry (self s0)
       ∧ retry_count r = retry (self s0)
       ∧ failed_before t (retry (self s0))
       ∧ ((status r = FAILED
           ∧ settles (t (retry (self s0))) = Raises (PyException m))
          ∨ (status r = TIMEOUT ∧ m = timeout_message
             ∧ ∃ m', settles (t (retry (self s0)))
                     = Raises (PyTimeoutError m')))).
Proof.
  intros Hr Hi Hrec.
  destruct (reachable_record tasks s0 s i r Hr Hrec) as (t' & Hi' & _ & _ & Hw).
  rewrite Hi in Hi'. injection Hi' as <-.
  set (R := retry (self s0)) in *.
  assert (Hunc : (status r = PENDING ∨ ∃ a, status r = running_status a) →
                 uncollected r →
    (terminal (status r) = false → error_message r = None)
    ∧ (status r = COMPLETED →
         error_message r = None
         ∧ ((0 ≤ retry_count r ≤ R
             ∧ failed_before t (retry_count r)
             ∧ settles (t (retry_count r)) = Returns (result r))
            ∨ (R < 0 ∧ result r = VNone ∧ retry_count r = 0)))
    ∧ (result r ≠ VNone →
         0 ≤ retry_count r ≤ R
         ∧ failed_before t (retry_count r)
         ∧ settles (t (retry_count r)) = Returns (result r))
    ∧ (∀ m, error_message r = Some m →
         result r = VNone ∧ 0 ≤ R
         ∧ retry_count r = R
         ∧ failed_before t R
         ∧ ((status r = FAILED
             ∧ settles (t R) = Raises (PyException m))
            ∨ (status r = TIMEOUT ∧ m = timeout_message
               ∧ ∃ m', settles (t R) = Raises (PyTimeoutError m'))))).
  { intros Hst (Hres & Hem & _). split_and!.
    - done.
    - intros Hc. destruct Hst as [Hst|[a Hst]]; rewrite Hst in Hc; [done|].
      unfold running_status in Hc. by case_decide.
    - by rewrite Hres.
    - intros m Hm. by rewrite Hem in Hm. }
  destruct (workers s !! i) as [w|].
  2:{ subst r. apply Hunc; [by left | done]. }
  unfold task_inv in Hw.
  destruct (pc w) as [|a|a u|a u|o], (bool_decide (i ∈ yielded s)); try done.
  - destruct Hw as (Hst & _ & _ & _ & Hu). apply Hunc; [by left | done].
  - destruct Hw as (_ & _ & Hst & _ & _ & _ & _ & Hu & _).
    apply Hunc; [right; by eexists | done].
  - destruct Hw as (_ & Hst & _ & _ & _ & _ & Hu & _).
    apply Hunc; [right; by eexists | done].
  - destruct Hw as (_ & Hst & _ & _ & _ & _ & Hu & _).
    apply Hunc; [right; by eexists | done].
  - destruct Hw as (Hs & Hc & _).
    destruct o as [v|[m0|m0]]; simpl in Hs, Hc.
    + destruct Hc as (Hst & Hres & Hem). rewrite Hst, Hem. subst v.
      split_and!; try done.
      * intros _. split; [done|].
        destruct Hs as [(? & ? & ? & _)|(? & ? & ? & _)]; [left|right]; done.
      * intros Hne. destruct Hs as [(? & ? & ? & _)|(? & ? & _)]; done.
    + destruct Hc as (Hst & Hres & Hem). rewrite Hst, Hem, Hres.
      destruct Hs as (Hk & HkR & Hf & He & _). rewrite HkR in *.
      split_and!; try done.
      intros m [= <-]. split_and!; try done.
      right. split_and!; try done. by exists m0.
    + destruct Hc as (Hst & Hres & Hem). rewrite Hst, Hem, Hres.
      destruct Hs as (Hk & HkR & Hf & He & _). rewrite HkR in *.
      split_and!; try done.
      intros m [= <-]. split_and!; try done.
      left. done.
  - destruct Hw as (_ & Hst & _ & Hu & _).
    apply Hunc; [right; by eexists | done].
Qed.

Lemma running_status_cases (a : Z) :
  (a ≤ 0 ∧ running_status a = RUNNING) ∨ (0 < a ∧ running_status a = RETRYING).
Proof. unfold running_status. case_decide; [right | left]; split; done || lia. Qed.

(** X2.  In every state of [run]: a record without [start_time] is
    PENDING with [retry_count = 0]; a PENDING or RUNNING record has
    [retry_count = 0]; and a record with [retry_count >= 1] is RETRYING
    or has a terminal status, with [retry_count <= self.retry]. *)
Theorem status_tells_the_attempt (tasks : list Task) (s0 s : State) (i : nat)
    (r : TaskResult) :
  reachable tasks s0 s → record_of s i = Some r →
  (start_time r = None → status r = PENDING ∧ retry_count r = 0)
  ∧ (status r = PENDING ∨ status r = RUNNING → retry_count r = 0)
  ∧ (1 ≤ retry_count r →
     (status r = RETRYING ∨ terminal (status r) = true)
     ∧ retry_count r ≤ retry (self s0)).
Proof.
  intros Hr Hrec.
  destruct (reachable_record tasks s0 s i r Hr Hrec) as (t & _ & _ & _ & Hw).
  destruct (workers s !! i) as [w|] eqn:Hwi.
  2:{ subst r. simpl. split_and!; try done; lia. }
  unfold task_inv in Hw.
  assert (Hrun : ∀ a ts, status r = running_status a → start_time r = Some ts →
            retry_count r = Z.max 0 a → (a ≤ 0 ∨ a ≤ retry (self s0)) →
            (start_time r = None → status r = PENDING ∧ retry_count r = 0)
            ∧ (status r = PENDING ∨ status r = RUNNING → retry_count r = 0)
            ∧ (1 ≤ retry_count r →
               (status r = RETRYING ∨ terminal (status r) = true)
               ∧ retry_count r ≤ retry (self s0))).
  { intros a ts Hst Hts Hrc Ha. rewrite Hst, Hts, Hrc.
    destruct (running_status_cases a) as [[? ->]|[? ->]].
    - split_and!; [done| |]; intros; lia.
    - split_and!; [done| |].
      + intros [?|?]; done.
      + intros _. split; [by left | lia]. }
  destruct (pc w) as [|a|a u|a u|o], (bool_decide (i ∈ yielded s)); try done.
  - destruct Hw as (Hst & Hts & Hrc & _). rewrite Hst, Hrc.
    split_and!; try done; lia.
  - destruct Hw as (Ha & HaR & Hst & Hrc & _ & _ & (ts & Hts & _) & _).
    apply (Hrun (a - 1) ts); try done. lia.
  - destruct Hw as (Ha & Hst & Hrc & _ & _ & (ts & Hts & _) & _).
    apply (Hrun a ts); try done; lia.
  - destruct Hw as (Ha & Hst & Hrc & _ & _ & (ts & Hts & _) & _).
    apply (Hrun a ts); try done; lia.
  - destruct Hw as (Hs & Hc & ts & te & Hts & _). rewrite Hts.
    pose proof (collected_terminal _ _ Hc) as Hterm. rewrite Hterm.
    assert (Hk : retry_count r ≤ retry (self s0) ∨ retry_count r = 0).
    { destruct o as [v|e]; simpl in Hs.
      - destruct Hs as [(? & _)|(_ & _ & ? & _)]; [left; lia | by right].
      - left. lia. }
    split_and!; [done| |].
    + intros [Hst|Hst]; by rewrite Hst in Hterm.
    + intros ?. split; [by right | lia].
  - destruct Hw as (Hs & Hst & (ts & Hts & _) & _).
    apply (Hrun (retry_count r) ts); try done.
    + destruct o as [v|e]; simpl in Hs.
      * destruct Hs as [(? & _)|(_ & _ & ? & _)]; lia.
      * lia.
    + destruct o as [v|e]; simpl in Hs.
      * destruct Hs as [(? & _)|(_ & _ & ? & _)]; lia.
      * lia.
Qed.

(** The record of an id once [run] has returned. *)
Lemma returned_record_of (tasks : list Task) (s0 s : State) (i : nat)
    (r : TaskResult) :
  reachable tasks s0 s → returned s → record_of s i = Some r →
  ∃ t w o, tasks !! i = Some t ∧ workers s !! i = Some w ∧ pc w = WDone o
           ∧ settled (retry (self s0)) t o (retry_count r) (effects w)
           ∧ collected o r
           ∧ ∃ ts te, start_time r = Some ts ∧ end_time r = Some te
                      ∧ now s0 ≤ ts ≤ te ∧ te ≤ now s
                      ∧ (retry (self s0) < 0
                         ∨ ts + run_time t (retry_count r) ≤ te).
Proof.
  intros Hr Hret Hrec.
  assert (Hlt : (i < length tasks)%nat).
  { apply (Inv_record_dom _ _ _ _ _ _ (reachable_Inv _ _ _ Hr)). by eexists. }
  destruct (lookup_lt_is_Some_2 tasks i Hlt) as [t Ht].
  destruct (returned_record tasks s0 s i t Hr Hret Ht)
    as (r' & w & o & Hrec' & Hw & Hpc & _ & _ & _ & Hs & Hc & Htimes).
  rewrite Hrec in Hrec'. injection Hrec' as <-.
  by exists t, w, o.
Qed.

(** X3.  Once [run] has returned, every record is in one of three shapes:
    COMPLETED with no error message; FAILED with [result = None] and an
    error message; TIMEOUT with [result = None] and the fixed message.
    It has both timestamps, taken during the call, [start_time] no later
    than [end_time]. *)
Theorem record_after_run (tasks : list Task) (s0 s : State) (i : nat)
    (r : TaskResult) :
  reachable tasks s0 s → returned s → record_of s i = Some r →
  ((status r = COMPLETED ∧ error_message r = None)
   ∨ (status r = FAILED ∧ result r = VNone ∧ ∃ m, error_message r = Some m)
   ∨ (status r = TIMEOUT ∧ result r = VNone
      ∧ error_message r = Some timeout_message))
  ∧ ∃ ts te, start_time r = Some ts ∧ end_time r = Some te
             ∧ now s0 ≤ ts ∧ ts ≤ te ∧ te ≤ now s.
Proof.
  intros Hr Hret Hrec.
  destruct (returned_record_of tasks s0 s i r Hr Hret Hrec)
    as (t & w & o & _ & _ & _ & _ & Hc & ts & te & Hts & Hte & Hle & Hnow & _).
  split.
  - destruct o as [v|[m|m]]; simpl in Hc; destruct Hc as (? & ? & ?).
    + by left.
    + right. right. done.
    + right. left. split_and!; [done|done|by exists m].
  - exists ts, te. split_and!; try done; lia.
Qed.

(** X4.  Once [run] has returned, with a retry limit [R >= 0], the status
    of a record tells what the work function did: COMPLETED, the attempt
    number [retry_count] returned [result] and the attempts before it
    raised; FAILED, all [R + 1] attempts raised and the last error,
    whose message is recorded, is no [TimeoutError]; TIMEOUT, all
    [R + 1] attempts raised and the last error is a [TimeoutError].  No
    other status is left. *)
Theorem status_after_run_tells_the_cause (tasks : list Task) (s0 s : State)
    (i : nat) (t : Task) (r : TaskResult) :
  0 ≤ retry (self s0) →
  reachable tasks s0 s → returned s →
  tasks !! i = Some t → record_of s i = Some r →
  failed_before t (retry_count r)
  ∧ 0 ≤ retry_count r ≤ retry (self s0)
  ∧ match status r with
    | COMPLETED => settles (t (retry_count r)) = Returns (result r)
    | FAILED =>
        retry_count r = retry (self s0)
        ∧ ∃ m, settles (t (retry_count r)) = Raises (PyException m)
               ∧ error_message r = Some m
    | TIMEOUT =>
        retry_count r = retry (self s0)
        ∧ ∃ m, settles (t (retry_count r)) = Raises (PyTimeoutError m)
    | PENDING | RUNNING | RETRYING => False
    end.
Proof.
  intros HR Hr Hret Hi Hrec.
  destruct (returned_record_of tasks s0 s i r Hr Hret Hrec)
    as (t' & w & o & Hi' & _ & _ & Hs & Hc & _).
  rewrite Hi in Hi'. injection Hi' as <-.
  destruct o as [v|[m|m]]; simpl in Hs, Hc.
  - destruct Hs as [(Hk & Hf & Hv & _)|(? & _)]; [|lia].
    destruct Hc as (-> & -> & _). done.
  - destruct Hs as (Hk & HkR & Hf & He & _). destruct Hc as (-> & _ & _).
    split_and!; try done; try lia. by exists m.
  - destruct Hs as (Hk & HkR & Hf & He & _). destruct Hc as (-> & _ & Hm).
    split_and!; try done; try lia. by exists m.
Qed.

(** ** The calls a worker makes *)



Lemma attempts_log_nonpos (a : Z) : a ≤ 0 → attempts_log a = [].
Proof.
  intros Ha. unfold attempts_log.
  by replace (Z.to_nat a) with 0%nat by lia.
Qed.




(** X6.  With a negative retry limit the loop of [_run_with_retry] has no
    iteration: the work function is never called, [run] returns, and it
    leaves every task COMPLETED with [result = None] and
    [retry_count = 0]; the output is [None] for every task. *)
Theorem negative_retry_never_calls_process (tasks : list Task) (s0 : State) :
  0 < max_workers (self s0) → retry (self s0) < 0 →
  (∃ s, reachable tasks s0 s ∧ returned s)
  ∧ ∀ es s, exec es (run_begin tasks s0) = Some s →
      (∀ i w, workers s !! i = Some w → effects w = [])
      ∧ ∀ rs, main s = MReturned rs →
          rs = replicate (length tasks) VNone
          ∧ ∀ i r, record_of s i = Some r →
              status r = COMPLETED ∧ result r = VNone
              ∧ error_message r = None ∧ retry_count r = 0.
Proof.
  intros Hmw HR. split; [by apply run_returns|].
  intros es s He.
  assert (Hr : reachable tasks s0 s) by (by exists es).
  pose proof (reachable_Inv _ _ _ Hr) as HI.
  split.
  - intros i w Hw.
    destruct (Inv_lookup _ _ _ _ _ s i w HI Hw) as (l & r & Hl & Hobj).
    assert (Hrec : record_of s i = Some r).
    { unfold record_of. rewrite Hl. done. }
    destruct (reachable_record tasks s0 s i r Hr Hrec) as (t & _ & _ & _ & Hinv).
    rewrite Hw in Hinv. unfold task_inv in Hinv.
    destruct (pc w) as [|a|a u|a u|o], (bool_decide (i ∈ yielded s));
      try done.
    + by destruct Hinv as (_ & _ & _ & ? & _).
    + destruct Hinv as (? & ? & _ & _ & _ & -> & _).
      apply attempts_log_nonpos. lia.
    + destruct Hinv as (? & _). lia.
    + destruct Hinv as (? & _). lia.
    + destruct Hinv as (Hs & _). destruct o as [v|e]; simpl in Hs.
      * destruct Hs as [(? & _)|(_ & _ & _ & ?)]; [lia | done].
      * lia.
    + destruct Hinv as (Hs & _). destruct o as [v|e]; simpl in Hs.
      * destruct Hs as [(? & _)|(_ & _ & _ & ?)]; [lia | done].
      * lia.
  - intros rs Hm.
    assert (Hret : returned s) by (by exists rs).
    assert (Hrecs : ∀ i r, record_of s i = Some r →
              status r = COMPLETED ∧ result r = VNone
              ∧ error_message r = None ∧ retry_count r = 0).
    { intros i r Hrec.
      destruct (returned_record_of tasks s0 s i r Hr Hret Hrec)
        as (t & w & o & _ & _ & _ & Hs & Hc & _).
      destruct o as [v|e]; simpl in Hs.
      - destruct Hs as [(? & _)|(_ & -> & ? & _)]; [lia|].
        simpl in Hc. destruct Hc as (? & ? & ?). done.
      - lia. }
    split; [|done].
    destruct (returned_output tasks s0 s es rs He Hm) as (_ & Hp & Hf).
    symmetry. apply replicate_as_Forall. split.
    + apply Forall2_length in Hf. rewrite <- Hf, Hp. apply length_seq.
    + eapply Forall2_Forall_r; [exact Hf|]. apply Forall_forall.
      intros i _ x (r & Hrec & Ho).
      destruct (Hrecs i r Hrec) as (Hst & Hres & _).
      destruct Ho as [[_ ->]|[[?|?] _]]; congruence.
Qed.

(** ** The time a task takes *)

(** The backoff sleeps alone take [50 k (k + 1)] milliseconds. *)
Lemma elapsed_backoff (t : Task) (k : Z) :
  (∀ a, 0 ≤ duration (t a)) → 0 ≤ k → 50 * k * (k + 1) ≤ elapsed t k.
Proof.
  intros Hd. revert k.
  apply (natlike_ind (λ k, 50 * k * (k + 1) ≤ elapsed t k)).
  - done.
  - intros k Hk IH. unfold Z.succ. rewrite elapsed_succ by done.
    specialize (Hd k). unfold backoff_delay. lia.
Qed.

(** X7.  Once [run] has returned (clock readings positive, retry limit not
    negative), [execution_time] of a record is [end_time - start_time],
    and it covers the attempts of the task and the backoff sleeps between
    them: at least [50 k (k + 1)] milliseconds for [k = retry_count],
    when no call of the work function takes negative time. *)
Theorem execution_time_covers_the_backoff (tasks : list Task) (s0 s : State)
    (i : nat) (t : Task) (r : TaskResult) :
  0 < now s0 → 0 ≤ retry (self s0) →
  (∀ a, 0 ≤ duration (t a)) →
  reachable tasks s0 s → returned s →
  tasks !! i = Some t → record_of s i = Some r →
  ∃ ts te, start_time r = Some ts ∧ end_time r = Some te
           ∧ execution_time r = Some (te - ts)
           ∧ run_time t (retry_count r) ≤ te - ts
           ∧ 50 * retry_count r * (retry_count r + 1) ≤ te - ts.
Proof.
  intros Hclock HR Hd Hr Hret Hi Hrec.
  destruct (returned_record_of tasks s0 s i r Hr Hret Hrec)
    as (t' & w & o & Hi' & _ & _ & Hs & _ & ts & te & Hts & Hte & Hle & _ & Hlb).
  rewrite Hi in Hi'. injection Hi' as <-.
  destruct Hlb as [?|Hlb]; [lia|].
  assert (Hk : 0 ≤ retry_count r).
  { destruct o as [v|e]; simpl in Hs.
    - destruct Hs as [(? & _)|(? & _)]; lia.
    - lia. }
  exists ts, te. split_and!; try done.
  - unfold execution_time, truthy. rewrite Hts, Hte.
    destruct (Z.eqb_spec ts 0); [lia|]. destruct (Z.eqb_spec te 0); [lia|].
    done.
  - lia.
  - pose proof (elapsed_backoff t _ Hd Hk) as Hb. unfold run_time in Hlb.
    specialize (Hd (retry_count r)). lia.
Qed.

(** ** Records only move forward *)

Lemma advances_refl (r : TaskResult) : advances r r.
Proof. unfold advances. split_and!; try done; lia. Qed.

Lemma advances_trans (r1 r2 r3 : TaskResult) :
  advances r1 r2 → advances r2 r3 → advances r1 r3.
Proof.
  intros (Hid & Hot & Hrc & Hts & Hrk & Hfin) (Hid' & Hot' & Hrc' & Hts' & Hrk' & Hfin').
  unfold advances. split_and!; try congruence; try lia.
  - intros ts H. by apply Hts', Hts.
  - intros Hend. specialize (Hfin Hend). subst r2. by apply Hfin'.
Qed.

(** What a step of a worker writes on the record of its task. *)
Lemma worker_step_writes (k : nat) (s s' : State) :
  worker_step k s = Some s' →
  ∃ w l r r' w', workers s !! k = Some w ∧ Future_done w = None
    ∧ record_loc s k = Some l ∧ objs (store s) !! l = Some r
    ∧ s' = with_workers (<[k := w']> (workers s))
             (with_store (write_obj l r' (store s)) s)
    ∧ (r' = r
       ∨ (pc w = WQueued
          ∧ r' = set_status RUNNING (set_start_time (Some (now s)) r))
       ∨ (∃ a, pc w = WAttempt a ∧ 0 < a
               ∧ r' = set_retry_count a (set_status RETRYING r))).
Proof.
  unfold worker_step. intros Hs.
  destruct (workers s !! k) as [w|] eqn:Hw; [simpl in Hs|done].
  destruct (record_loc s k) as [l|] eqn:Hl; [simpl in Hs|done].
  destruct (objs (store s) !! l) as [r|] eqn:Hr; [simpl in Hs|done].
  exists w, l, r. unfold Future_done, Future_state.
  destruct (pc w) as [|a|a u|a u|o] eqn:Hpc.
  - case_decide; [|done]. injection Hs as <-. eexists _, _.
    split_and!; try reflexivity; try done. right. left. done.
  - case_decide.
    + destruct (decide (0 < a)) as [Ha|Ha]; injection Hs as <-; eexists _, _;
        (split_and!; try reflexivity; try done).
      * right. right. by exists a.
      * by left.
    + injection Hs as <-. eexists _, _.
      split_and!; try reflexivity; try done. by left.
  - case_decide; [|done].
    destruct (settles (original_task r a)) as [v|e].
    + injection Hs as <-. eexists _, _.
      split_and!; try reflexivity; try done. by left.
    + case_decide; injection Hs as <-; eexists _, _;
        (split_and!; try reflexivity; try done); by left.
  - case_decide; [|done]. injection Hs as <-. eexists _, _.
    split_and!; try reflexivity; try done. by left.
  - done.
Qed.

(** A record with a terminal status, or with an [end_time], belongs to
    a collected future. *)
Lemma Inv_terminal_yielded (tasks : list Task) (mw R T t0 : Z) (s : State)
    (i : nat) (r : TaskResult) :
  Inv tasks mw R T t0 s → record_of s i = Some r →
  terminal (status r) = true ∨ is_Some (end_time r) → i ∈ yielded s.
Proof.
  intros HI Hrec Hterm.
  assert (Hun : ∀ a, status r = running_status a → end_time r = None → False).
  { intros a Hst Hen. rewrite Hst, Hen, running_status_not_terminal in Hterm.
    destruct Hterm as [?|[? ?]]; done. }
  assert (Hlt : (i < length tasks)%nat).
  { apply (Inv_record_dom _ _ _ _ _ _ HI). by eexists. }
  destruct (lookup_lt_is_Some_2 tasks i Hlt) as [t Ht].
  destruct (Inv_record _ _ _ _ _ _ HI i t Ht) as (r' & Hrec' & _ & _ & Hw).
  rewrite Hrec in Hrec'. injection Hrec' as <-.
  destruct (workers s !! i) as [w|].
  2:{ subst r. simpl in Hterm. destruct Hterm as [?|[? ?]]; done. }
  unfold task_inv in Hw.
  destruct (pc w) as [|a|a u|a u|o], (bool_decide_reflect (i ∈ yielded s))
    as [Hy|Hy]; try done.
  - destruct Hw as (Hst & _ & _ & _ & _ & _ & Hen).
    rewrite Hst, Hen in Hterm. destruct Hterm as [?|[? ?]]; done.
  - destruct Hw as (_ & _ & Hst & _ & _ & _ & _ & (_ & _ & Hen) & _).
    by destruct (Hun _ Hst Hen).
  - destruct Hw as (_ & Hst & _ & _ & _ & _ & (_ & _ & Hen) & _).
    by destruct (Hun _ Hst Hen).
  - destruct Hw as (_ & Hst & _ & _ & _ & _ & (_ & _ & Hen) & _).
    by destruct (Hun _ Hst Hen).
  - destruct Hw as (_ & Hst & _ & (_ & _ & Hen) & _).
    by destruct (Hun _ Hst Hen).
Qed.

(** The record of a task whose future is not finished, at the two
    places where its worker writes it. *)
Lemma Inv_before_write (tasks : list Task) (mw R T t0 : Z) (s : State)
    (k : nat) (w : Worker) (r : TaskResult) :
  Inv tasks mw R T t0 s → workers s !! k = Some w → record_of s k = Some r →
  Future_done w = None →
  (pc w = WQueued → status r = PENDING ∧ start_time r = None
                    ∧ retry_count r = 0)
  ∧ (∀ a, pc w = WAttempt a → 0 < a →
       retry_count r = a - 1 ∧ terminal (status r) = false
       ∧ status r ≠ PENDING)
  ∧ end_time r = None.
Proof.
  intros HI Hw Hrec Hnd.
  assert (Hlt : (k < length tasks)%nat).
  { apply (Inv_record_dom _ _ _ _ _ _ HI). by eexists. }
  destruct (lookup_lt_is_Some_2 tasks k Hlt) as [t Ht].
  destruct (Inv_record _ _ _ _ _ _ HI k t Ht) as (r' & Hrec' & _ & _ & Hinv).
  rewrite Hrec in Hrec'. injection Hrec' as <-. rewrite Hw in Hinv.
  assert (Hy : k ∉ yielded s).
  { intros Hy. destruct (Inv_yielded_done _ _ _ _ _ s k w HI Hy Hw) as [o Ho].
    congruence. }
  rewrite bool_decide_false in Hinv by done. unfold task_inv in Hinv.
  split_and!.
  - intros Hpc. rewrite Hpc in Hinv. by destruct Hinv as (? & ? & ? & _).
  - intros a Hpc Ha. rewrite Hpc in Hinv.
    destruct Hinv as (_ & _ & Hst & Hrc & _). rewrite Hst.
    split_and!; [lia|apply running_status_not_terminal|].
    unfold running_status. by case_decide.
  - destruct (end_time r) as [te|] eqn:Hte; [|done]. destruct Hy.
    eapply Inv_terminal_yielded; [exact HI|exact Hrec|].
    right. by rewrite Hte.
Qed.

Lemma step_advances (tasks : list Task) (mw R T t0 : Z) (e : Event)
    (s s' : State) (i : nat) (r : TaskResult) :
  Inv tasks mw R T t0 s → step e s = Some s' → record_of s i = Some r →
  ∃ r', record_of s' i = Some r' ∧ advances r r'.
Proof.
  intros HI Hs Hrec. destruct e as [d|k|k|]; simpl in Hs.
  - case_decide; [|done]. injection Hs as <-. exists r.
    split; [done | apply advances_refl].
  - destruct (worker_step_writes k s s' Hs)
      as (w & l & rk & r' & w' & Hw & Hnd & Hl & Hrk & -> & Hcases).
    destruct (record_of_write tasks mw R T t0 s
                (with_workers (<[k := w']> (workers s))
                   (with_store (write_obj l r' (store s)) s)) k l r' HI Hl)
      as [Hnew Hframe]; try done.
    destruct (decide (i = k)) as [->|Hne].
    2:{ exists r. rewrite Hframe by done. split; [done | apply advances_refl]. }
    assert (Hrk' : record_of s k = Some rk).
    { unfold record_of. rewrite Hl. done. }
    rewrite Hrec in Hrk'. injection Hrk' as <-.
    exists r'. split; [done|].
    destruct (Inv_before_write _ _ _ _ _ s k w r HI Hw Hrec Hnd)
      as (Hq & Ha & Hen).
    destruct Hcases as [->|[(Hpc & ->)|(a & Hpc & Hpos & ->)]].
    + apply advances_refl.
    + destruct (Hq Hpc) as (Hst & Hts & Hrc).
      unfold advances. simpl. rewrite Hst, Hts, Hen.
      split_and!; try done; by intros [? ?].
    + destruct (Ha a Hpc Hpos) as (Hrc & Hterm & Hnp).
      unfold advances. simpl. rewrite Hen.
      split_and!; try done; try lia; try (by intros [? ?]).
      destruct (status r); simpl; done || lia.
  - destruct (collect_step_shape k s s' Hs)
      as (w & o & l & rk & Hny & Hw & Hd & Hl & Hrk
          & Hself & Hstore & Hnow & Hws & Hy & Hres).
    destruct (record_of_write tasks mw R T t0 s s' k l
                (set_end_time (Some (now s)) (classify o rk).1) HI Hl)
      as [Hnew Hframe].
    { rewrite Hself. reflexivity. }
    { rewrite Hstore. reflexivity. }
    { rewrite Hstore. reflexivity. }
    destruct (decide (i = k)) as [->|Hne].
    2:{ exists r. rewrite Hframe by done. split; [done | apply advances_refl]. }
    assert (Hrk' : record_of s k = Some rk).
    { unfold record_of. rewrite Hl. done. }
    rewrite Hrec in Hrk'. injection Hrk' as <-.
    eexists. split; [exact Hnew|].
    assert (Hen : end_time r = None).
    { destruct (end_time r) as [te|] eqn:Hte; [|done]. destruct Hny.
      eapply Inv_terminal_yielded; [exact HI|exact Hrec|].
      right. by rewrite Hte. }
    unfold advances. rewrite Hen.
    destruct o as [v|[m|m]]; simpl; split_and!; try done; try lia;
      try (by intros [? ?]); destruct (status r); simpl; lia.
  - unfold return_step in Hs. destruct (main s); try done.
    case_decide; [|done]. injection Hs as <-. exists r.
    split; [done | apply advances_refl].
Qed.

Lemma exec_advances (tasks : list Task) (mw R T t0 : Z) (es : list Event)
    (i : nat) : ∀ (s s' : State) (r : TaskResult),
  Inv tasks mw R T t0 s → exec es s = Some s' → record_of s i = Some r →
  ∃ r', record_of s' i = Some r' ∧ advances r r'.
Proof.
  induction es as [|e es IH]; intros s s' r HI; simpl.
  - intros [= <-] Hrec. exists r. split; [done | apply advances_refl].
  - destruct (step e s) as [s1|] eqn:Hs; [simpl|done]. intros He Hrec.
    destruct (step_advances _ _ _ _ _ _ _ _ _ _ HI Hs Hrec) as (r1 & Hr1 & Ha1).
    destruct (IH s1 s' r1) as (r' & Hr' & Ha'); try done.
    { by eapply Inv_step. }
    exists r'. split; [done|]. by eapply advances_trans.
Qed.

(** X8.  Between two moments of the same [run], a record only moves
    forward: it keeps its [task_id] and its task, [retry_count] does not
    decrease, a [start_time] once set stays, the status never goes back
    (PENDING, RUNNING, RETRYING, then a terminal status), and a record
    that has its [end_time] is not written again. *)
Theorem records_only_move_forward (tasks : list Task) (s0 s s' : State)
    (es : list Event) (i : nat) (r : TaskResult) :
  reachable tasks s0 s → exec es s = Some s' → record_of s i = Some r →
  ∃ r', record_of s' i = Some r'
        ∧ task_id r' = task_id r ∧ original_task r' = original_task r
        ∧ retry_count r ≤ retry_count r'
        ∧ (∀ ts, start_time r = Some ts → start_time r' = Some ts)
        ∧ status_rank (status r) ≤ status_rank (status r')
        ∧ (is_Some (end_time r) → r' = r).
Proof.
  intros Hr He Hrec. apply reachable_Inv in Hr.
  destruct (exec_advances _ _ _ _ _ es i s s' r Hr He Hrec) as (r' & Hr' & Ha).
  exists r'. split; [done|]. exact Ha.
Qed.

(** ** What [run] leaves alone *)

Lemma store_wf_store0 : store_wf store0.
Proof. split; intros l x; simpl; by rewrite lookup_empty. Qed.

Lemma store_wf_alloc_dict (d : gmap nat loc) (h : Store) :
  store_wf h → (∀ (k : nat) l, d !! k = Some l → (l < next_loc h)%nat) →
  store_wf (alloc_dict d h).2.
Proof.
  intros [Hd Ho] Hnew. split; simpl.
  - intros l d'. destruct (decide (l = next_loc h)) as [->|Hne].
    + rewrite lookup_insert_eq. intros [= <-]. split; [lia|].
      intros k l' Hk. apply Hnew in Hk. lia.
    + rewrite lookup_insert_ne by done. intros Hl.
      destruct (Hd l d' Hl) as [? Hv]. split; [lia|].
      intros k l' Hk. apply Hv in Hk. lia.
  - intros l r Hl. apply Ho in Hl. lia.
Qed.

Lemma store_wf_alloc_obj (r : TaskResult) (h : Store) :
  store_wf h → store_wf (alloc_obj r h).2.
Proof.
  intros [Hd Ho]. split; simpl.
  - intros l d Hl. destruct (Hd l d Hl) as [? Hv]. split; [lia|].
    intros k l' Hk. apply Hv in Hk. lia.
  - intros l r'. destruct (decide (l = next_loc h)) as [->|Hne].
    + intros _. lia.
    + rewrite lookup_insert_ne by done. intros Hl. apply Ho in Hl. lia.
Qed.

Lemma store_wf_write_obj (l : loc) (r r0 : TaskResult) (h : Store) :
  store_wf h → objs h !! l = Some r0 → store_wf (write_obj l r h).
Proof.
  intros [Hd Ho] Hl. split; simpl; [done|].
  intros l' r'. destruct (decide (l' = l)) as [->|Hne].
  - intros _. by eapply Ho.
  - rewrite lookup_insert_ne by done. apply Ho.
Qed.

Lemma store_wf_new_records (ts : list Task) : ∀ (i : nat) (h : Store),
  store_wf h → store_wf (new_records i ts h).2.
Proof.
  induction ts as [|t ts IH]; intros i h Hwf; simpl; [done|].
  specialize (IH (S i) (alloc_obj (TaskResult_init i t) h).2
                (store_wf_alloc_obj _ _ Hwf)).
  simpl in IH. by destruct (new_records (S i) ts _) as [d h2].
Qed.

Lemma store_wf_init_state (mw r t : Z) (h : Store) (clock : Z) :
  store_wf h → store_wf (store (init_state mw r t h clock)).
Proof.
  intros Hwf. apply (store_wf_alloc_dict ∅ h Hwf).
  intros k l. by rewrite lookup_empty.
Qed.

Lemma store_wf_run_begin (tasks : list Task) (s0 : State) :
  store_wf (store s0) → store_wf (store (run_begin tasks s0)).
Proof.
  intros Hwf. unfold run_begin.
  pose proof (new_records_spec tasks 0%nat (store s0)) as Hspec.
  pose proof (store_wf_new_records tasks 0%nat (store s0) Hwf) as Hwf1.
  destruct (new_records 0 tasks (store s0)) as [d h1]. simpl in *.
  destruct Hspec as (Hn & _ & _ & Hl & _).
  assert (Hwf2 : store_wf (alloc_dict d h1).2).
  { apply store_wf_alloc_dict; [done|]. intros k l. rewrite Hl.
    case_decide; [|done]. intros [= <-]. lia. }
  by case_decide.
Qed.

Lemma store_wf_step (e : Event) (s s' : State) :
  store_wf (store s) → step e s = Some s' → store_wf (store s').
Proof.
  intros Hwf. destruct e as [d|k|k|]; simpl.
  - case_decide; [|done]. by intros [= <-].
  - intros Hs. destruct (worker_step_shape k s s' Hs)
      as (w & l & r & r' & w' & _ & _ & _ & Hr & ->).
    simpl. by eapply store_wf_write_obj.
  - intros Hs. destruct (collect_step_shape k s s' Hs)
      as (w & o & l & r & _ & _ & _ & _ & Hr & _ & -> & _).
    by eapply store_wf_write_obj.
  - unfold return_step. destruct (main s); try done.
    case_decide; [|done]. by intros [= <-].
Qed.

Lemma store_wf_exec (es : list Event) : ∀ s s',
  store_wf (store s) → exec es s = Some s' → store_wf (store s').
Proof.
  induction es as [|e es IH]; intros s s' Hwf; simpl.
  - by intros [= <-].
  - destruct (step e s) as [s1|] eqn:Hs; [simpl|done].
    apply IH. by eapply store_wf_step.
Qed.

(** The stores of a processor that was constructed on a well-formed
    store stay well formed through its calls of [run]. *)
Lemma store_wf_reachable (tasks : list Task) (s0 s : State) :
  store_wf (store s0) → reachable tasks s0 s → store_wf (store s).
Proof.
  intros Hwf (es & He). eapply store_wf_exec; [|exact He].
  by apply store_wf_run_begin.
Qed.

(** [run] starts on a dict and records of its own. *)
Lemma run_begin_owns (tasks : list Task) (s0 : State) :
  owns_above (next_loc (store s0)) (run_begin tasks s0)
  ∧ unchanged_below (next_loc (store s0)) (store s0) (run_begin tasks s0).
Proof.
  unfold run_begin.
  pose proof (new_records_spec tasks 0%nat (store s0)) as Hspec.
  destruct (new_records 0 tasks (store s0)) as [d h1]. simpl in Hspec.
  destruct Hspec as (Hn & Hd & Ho & Hl & _).
  assert (Hgoal : ∀ (ws : list Worker) m,
    let s1 := mkState
       (mkProcessor (max_workers (self s0)) (retry (self s0))
          (timeout (self s0)) (alloc_dict d h1).1 (Z.of_nat (length tasks)) 0)
       (alloc_dict d h1).2 (now s0) ws [] [] m in
    owns_above (next_loc (store s0)) s1
    ∧ unchanged_below (next_loc (store s0)) (store s0) s1).
  { intros ws m. simpl. split.
    - split; simpl; [lia|]. exists d. rewrite lookup_insert_eq.
      split; [done|]. intros k l. rewrite Hl. case_decide; [|done].
      intros [= <-]. lia.
    - intros l Hlt. simpl. rewrite lookup_insert_ne by lia.
      rewrite Hd. split; [done|]. by apply Ho. }
  simpl. case_decide; apply Hgoal.
Qed.

Lemma owns_step (n : loc) (h0 : Store) (e : Event) (s s' : State) :
  owns_above n s → unchanged_below n h0 s → step e s = Some s' →
  owns_above n s' ∧ unchanged_below n h0 s'.
Proof.
  intros Hown Hunch.
  assert (Hwrite : ∀ k l r' (s1 : State),
    record_loc s k = Some l →
    task_results (self s1) = task_results (self s) →
    store s1 = write_obj l r' (store s) →
    owns_above n s1 ∧ unchanged_below n h0 s1).
  { intros k l r' s1 Hl Hself Hstore.
    destruct Hown as (Hge & d & Hd & Hv).
    assert (Hnl : (n ≤ l)%nat).
    { unfold record_loc in Hl. rewrite Hd in Hl. simpl in Hl. by eapply Hv. }
    split.
    - split; [by rewrite Hself|]. exists d. rewrite Hself, Hstore. done.
    - intros l' Hlt. rewrite Hstore. simpl.
      rewrite lookup_insert_ne by lia. by apply Hunch. }
  destruct e as [d|k|k|]; simpl.
  - case_decide; [|done]. by intros [= <-].
  - intros Hs. destruct (worker_step_shape k s s' Hs)
      as (w & l & r & r' & w' & _ & _ & Hl & _ & ->).
    by eapply Hwrite.
  - intros Hs. destruct (collect_step_shape k s s' Hs)
      as (w & o & l & r & _ & _ & _ & Hl & _ & Hself & Hstore & _).
    eapply Hwrite; [exact Hl| |exact Hstore]. by rewrite Hself.
  - unfold return_step. destruct (main s); try done.
    case_decide; [|done]. by intros [= <-].
Qed.

Lemma owns_exec (n : loc) (h0 : Store) (es : list Event) : ∀ s s',
  owns_above n s → unchanged_below n h0 s → exec es s = Some s' →
  owns_above n s' ∧ unchanged_below n h0 s'.
Proof.
  induction es as [|e es IH]; intros s s' Hown Hunch; simpl.
  - by intros [= <-].
  - destruct (step e s) as [s1|] eqn:Hs; [simpl|done].
    destruct (owns_step n h0 e s s1 Hown Hunch Hs). by apply IH.
Qed.

(** A call of [run] writes nothing that existed before the call: it
    makes a new dict and new records and writes only those. *)
Lemma run_leaves_the_old_objects (tasks : list Task) (s0 s : State) :
  reachable tasks s0 s →
  owns_above (next_loc (store s0)) s
  ∧ unchanged_below (next_loc (store s0)) (store s0) s.
Proof.
  intros (es & He). destruct (run_begin_owns tasks s0) as [Hown Hunch].
  by eapply owns_exec.
Qed.

(** X9.  A snapshot taken with [get_task_status] between two calls of
    [run] is not touched by the later call: in every state of the later
    [run] the snapshot still maps the ids of the earlier batch to their
    records as they were, because [run] binds [self.task_results] to a
    new dict of new records.  The same holds for the dict
    [self.task_results] referred to before the call. *)
Theorem snapshot_survives_the_next_run (s : State) (snap : loc) (s1 : State)
    (tasks : list Task) (s' : State) :
  store_wf (store s) → main s ≠ MCollecting →
  get_task_status s = Some (snap, s1) →
  reachable tasks s1 s' →
  dict_view snap s' = engine_tasks s
  ∧ dict_view (task_results (self s)) s' = engine_tasks s
  ∧ task_results (self s') ≠ snap
  ∧ task_results (self s') ≠ task_results (self s).
Proof.
  intros Hwf _ Hget Hr.
  destruct (get_task_status_spec s snap s1 Hget) as (d & Hd & -> & ->).
  destruct (run_leaves_the_old_objects tasks _ s' Hr) as [Hown Hunch].
  unfold owns_above, unchanged_below in Hown, Hunch. simpl in Hown, Hunch.
  destruct Hwf as [Hwd Hwo]. destruct (Hwd _ _ Hd) as [Hlt Hvals].
  assert (Hview : ∀ l : loc, (l < S (next_loc (store s)))%nat →
            dicts (store s) !! l = Some d ∨ l = next_loc (store s) →
            dict_view l s' = engine_tasks s).
  { intros l Hl Hwhich. unfold dict_view, engine_tasks.
    destruct (Hunch l Hl) as [-> _]. rewrite Hd.
    assert (Hld : <[next_loc (store s) := d]> (dicts (store s)) !! l = Some d).
    { destruct Hwhich as [Hl'| ->]; [|by rewrite lookup_insert_eq].
      destruct (decide (l = next_loc (store s))) as [->|Hne];
        [by rewrite lookup_insert_eq | by rewrite lookup_insert_ne]. }
    rewrite Hld. f_equal. apply map_eq. intros k. rewrite !lookup_omap.
    destruct (d !! k) as [l'|] eqn:Hk; [simpl|done].
    apply Hvals in Hk. by destruct (Hunch l' ltac:(lia)) as [_ ->]. }
  destruct Hown as (Hge & _).
  split_and!.
  - apply Hview; [lia | by right].
  - apply Hview; [lia | by left].
  - lia.
  - lia.
Qed.

(** ** More on the statistics *)

Lemma start_or_inf_truthy (r : TaskResult) :
  (start_or_inf r = PInf ↔ truthy (start_time r) = false)
  ∧ start_or_inf r ≠ NInf.
Proof.
  unfold start_or_inf, truthy. destruct (start_time r) as [z|]; [|done].
  destruct (z =? 0); done.
Qed.

(** [get_statistics] on a state whose task map is not empty. *)
Lemma get_statistics_Stats (s : State) (n c : Z) (b : gmap TaskStatus Z)
    (span : pyfloat) :
  get_statistics s = Some (Stats n c b span) →
  ∃ r rs, dict_values s = Some (r :: rs)
    ∧ n = total_tasks (self s) ∧ c = completed_tasks (self s)
    ∧ b = count_statuses (r :: rs)
    ∧ span = (let total_time :=
                pyfloat_rsub (foldl Z.max (end_or_0 r) (end_or_0 <$> rs))
                  (foldl pyfloat_min (start_or_inf r) (start_or_inf <$> rs)) in
              if decide (total_time ≠ PInf) then total_time else Fin 0).
Proof.
  unfold get_statistics.
  destruct (dicts (store s) !! task_results (self s)) as [d|]; [simpl|done].
  case_decide; [done|].
  destruct (dict_values s) as [[|r rs]|]; simpl; try done.
  intros [= <- <- <- <-]. by exists r, rs.
Qed.

(** X10.  Whenever [get_statistics] reports a total time, that time is
    never plus infinity, so the branch of its last line that replaces
    [inf] by [0] is never taken; it is minus infinity exactly when no
    record has a [start_time] that counts as set ([None] and [0.0] do
    not), and a number otherwise. *)
Theorem statistics_total_time_is_never_inf (s : State) (n c : Z)
    (b : gmap TaskStatus Z) (span : pyfloat) :
  get_statistics s = Some (Stats n c b span) →
  ∃ rs, dict_values s = Some rs ∧ rs ≠ []
    ∧ span ≠ PInf
    ∧ (span = NInf ↔ Forall (λ r, truthy (start_time r) = false) rs)
    ∧ (span ≠ NInf →
       ∃ r1 r2 ts, r1 ∈ rs ∧ r2 ∈ rs ∧ start_time r2 = Some ts
                   ∧ span = Fin (end_or_0 r1 - ts)).
Proof.
  intros Hg.
  destruct (get_statistics_Stats s n c b span Hg)
    as (r & rs & Hvals & _ & _ & _ & ->).
  exists (r :: rs). split; [done|]. split; [done|].
  destruct (foldl_min_spec (start_or_inf <$> rs) (start_or_inf r))
    as [Hmin_in Hmin_lb].
  destruct (foldl_max_spec (end_or_0 <$> rs) (end_or_0 r)) as [Hmax_in _].
  change (start_or_inf r :: (start_or_inf <$> rs))
    with (start_or_inf <$> r :: rs) in Hmin_in, Hmin_lb.
  change (end_or_0 r :: (end_or_0 <$> rs)) with (end_or_0 <$> r :: rs) in Hmax_in.
  apply list_elem_of_fmap in Hmin_in as (rmin & Hmin & Hrmin).
  apply list_elem_of_fmap in Hmax_in as (rmax & Hmax & Hrmax).
  cbv zeta. rewrite Hmin, Hmax.
  destruct (start_or_inf rmin) as [z| |] eqn:Hz; simpl.
  - split_and!; try done.
    + split; [done|]. intros Hall.
      rewrite Forall_forall in Hall. apply Hall in Hrmin.
      destruct (start_or_inf_truthy rmin) as [[_ Hto] _].
      rewrite (Hto Hrmin) in Hz. done.
    + intros _. exists rmax, rmin, z. split_and!; try done.
      unfold start_or_inf in Hz. destruct (start_time rmin) as [z'|]; [|done].
      destruct (z' =? 0); congruence.
  - split_and!; try done.
    split; [intros _ | done]. apply Forall_forall. intros r' Hr'.
    destruct (start_or_inf_truthy r') as [[Hfrom _] _]. apply Hfrom.
    assert (Hle : pyfloat_leb PInf (start_or_inf r') = true).
    { rewrite <- Hmin. apply Hmin_lb. apply list_elem_of_fmap.
      by exists r'. }
    by destruct (start_or_inf r').
  - by destruct (start_or_inf_truthy rmin) as [_ ?].
Qed.

(** Counting the records of a batch whose statuses are all PENDING. *)
Lemma count_statuses_pending (rs : list TaskResult) :
  Forall (λ r, status r = PENDING) rs → ∀ n : Z,
    foldl (λ acc r, <[status r := default 0 (acc !! status r) + 1]> acc)
      ({[PENDING := n]} : gmap TaskStatus Z) rs
    = {[PENDING := n + Z.of_nat (length rs)]}.
Proof.
  induction 1 as [|r rs Hr _ IH]; intros n; simpl.
  - f_equal. lia.
  - rewrite Hr, lookup_singleton_eq, insert_singleton_eq. simpl.
    rewrite IH. f_equal. lia.
Qed.

Lemma foldl_max_const (l : list Z) (x : Z) :
  Forall (λ y, y = x) l → foldl Z.max x l = x.
Proof.
  intros Hall. destruct (foldl_max_spec l x) as [Hin _].
  apply elem_of_cons in Hin as [?|Hin]; [done|].
  rewrite Forall_forall in Hall. by apply Hall.
Qed.

Lemma foldl_min_const (l : list pyfloat) (x : pyfloat) :
  Forall (λ y, y = x) l → foldl pyfloat_min x l = x.
Proof.
  intros Hall. destruct (foldl_min_spec l x) as [Hin _].
  apply elem_of_cons in Hin as [?|Hin]; [done|].
  rewrite Forall_forall in Hall. by apply Hall.
Qed.

(** X11.  After [run] has raised for [max_workers <= 0] on a batch of
    [N >= 1] tasks, [get_statistics] reports the total [N], [0]
    completed, every task PENDING, and a total time of minus
    infinity. *)
Theorem statistics_after_run_raised (tasks : list Task) (s0 s : State) :
  max_workers (self s0) ≤ 0 → tasks ≠ [] → reachable tasks s0 s →
  main s = MRaised ThreadPoolExecutor_error
  ∧ get_statistics s
    = Some (Stats (Z.of_nat (length tasks)) 0
              {[PENDING := Z.of_nat (length tasks)]} NInf).
Proof.
  intros Hmw Hne Hr. pose proof (reachable_Inv _ _ _ Hr) as HI.
  pose proof (inv_main _ _ _ _ _ _ HI) as Hm.
  destruct (main s) as [| | |e]; try done; try lia.
  destruct Hm as (_ & Hnil & ->). split; [done|].
  assert (Hy : yielded s = []).
  { pose proof (inv_results _ _ _ _ _ _ HI) as Hres.
    destruct (yielded s) as [|i ys]; [done|].
    apply Forall2_cons_inv_l in Hres as (x & l & (w & o & Hw & _) & _).
    by rewrite Hnil in Hw. }
  destruct (Inv_dict_values _ _ _ _ _ _ HI)
    as (d & recs & Hd & Hempty & Hvals & Hperm & Hlen).
  assert (Hinit : ∀ r, r ∈ recs → ∃ i t, r = TaskResult_init i t).
  { intros r Hin. rewrite Hperm in Hin.
    apply list_elem_of_omap in Hin as (i & _ & Hi).
    destruct (reachable_record tasks s0 s i r Hr Hi) as (t & _ & _ & _ & Hw).
    rewrite Hnil in Hw. simpl in Hw. by exists i, t. }
  unfold get_statistics. rewrite Hd. simpl.
  rewrite decide_False by (by rewrite Hempty). rewrite Hvals. simpl.
  destruct recs as [|r rs].
  { destruct tasks; [done | discriminate Hlen]. }
  assert (Hall : Forall (λ r', ∃ i t, r' = TaskResult_init i t) (r :: rs)).
  { apply Forall_forall. exact Hinit. }
  apply Forall_cons in Hall as [(i & t & ->) Hrs].
  rewrite foldl_max_const, foldl_min_const; simpl.
  - rewrite (inv_total _ _ _ _ _ _ HI), (inv_completed _ _ _ _ _ _ HI), Hy.
    simpl. do 2 f_equal. unfold count_statuses. simpl.
    rewrite insert_empty, count_statuses_pending.
    + f_equal. rewrite lookup_empty. simpl in *. lia.
    + eapply Forall_impl; [exact Hrs|]. by intros r' (i' & t' & ->).
  - apply Forall_fmap. eapply Forall_impl; [exact Hrs|].
    by intros r' (i' & t' & ->).
  - apply Forall_fmap. eapply Forall_impl; [exact Hrs|].
    by intros r' (i' & t' & ->).
Qed.

(** ** The counters while [run] is under way *)

(** The collected futures are futures of the batch, each listed once. *)
Lemma Inv_yielded_count (tasks : list Task) (mw R T t0 : Z) (s : State) :
  Inv tasks mw R T t0 s →
  filter (λ i, i ∈ yielded s) (seq 0 (length tasks)) ≡ₚ yielded s
  ∧ (length (yielded s) ≤ length tasks)%nat.
Proof.
  intros HI.
  assert (Hlt : ∀ i, i ∈ yielded s → (i < length tasks)%nat).
  { intros i Hi. pose proof (Inv_yielded_lt _ _ _ _ _ _ HI i Hi) as Hw.
    pose proof (inv_main _ _ _ _ _ _ HI) as Hm.
    destruct (main s); try done.
    - destruct Hm as (_ & <-). done.
    - destruct Hm as (_ & <- & _). done.
    - destruct Hm as (_ & Hnil & _). rewrite Hnil in Hw. simpl in Hw. lia. }
  assert (Hperm : filter (λ i, i ∈ yielded s) (seq 0 (length tasks))
                  ≡ₚ yielded s).
  { apply NoDup_Permutation.
    - apply NoDup_filter, NoDup_seq.
    - by destruct HI.
    - intros i. rewrite list_elem_of_filter, elem_of_seq. split; [tauto|].
      intros Hi. split; [done|]. apply Hlt in Hi. lia. }
  split; [done|]. rewrite <- Hperm.
  etransitivity; [apply length_filter|]. by rewrite length_seq.
Qed.

(** X13.  Every progress report of [run] is made with [total_tasks > 0],
    so [_report_progress] never takes its branch for an empty batch
    there; the reported count is between [1] and the total, and the
    percentage is above [0], at most [100], and [100] exactly at the
    report for the last task. *)
Theorem progress_report_is_a_percentage (tasks : list Task) (s0 s s' : State)
    (i : nat) :
  reachable tasks s0 s → collect_step i s = Some s' →
  0 < total_tasks (self s')
  ∧ completed_tasks (self s') = completed_tasks (self s) + 1
  ∧ 1 ≤ completed_tasks (self s') ≤ total_tasks (self s')
  ∧ QArith_base.Qlt (QArith_base.inject_Z 0) (report_progress (self s'))
  ∧ QArith_base.Qle (report_progress (self s')) (QArith_base.inject_Z 100)
  ∧ (QArith_base.Qeq (report_progress (self s')) (QArith_base.inject_Z 100)
     ↔ completed_tasks (self s') = total_tasks (self s')).
Proof.
  intros Hr Hs.
  assert (Hr' : reachable tasks s0 s').
  { destruct Hr as [es He]. exists (es ++ [Collect i]).
    rewrite exec_app, He. simpl. by rewrite Hs. }
  pose proof (reachable_Inv _ _ _ Hr) as HI.
  pose proof (reachable_Inv _ _ _ Hr') as HI'.
  destruct (collect_step_shape i s s' Hs)
    as (w & o & l & r & _ & _ & _ & _ & _ & Hself & _ & _ & _ & Hy & _).
  destruct (Inv_yielded_count _ _ _ _ _ _ HI') as [_ Hle].
  pose proof (inv_total _ _ _ _ _ _ HI') as Htot.
  pose proof (inv_completed _ _ _ _ _ _ HI') as Hcomp.
  pose proof (inv_completed _ _ _ _ _ _ HI) as Hcomp0.
  rewrite Hy, length_app in Hcomp, Hle. simpl in Hcomp, Hle.
  assert (Hc : completed_tasks (self s') = completed_tasks (self s) + 1).
  { by rewrite Hself. }
  unfold report_progress.
  destruct (total_tasks (self s')) as [|n|n] eqn:Hn; try lia.
  destruct (completed_tasks (self s')) as [|c|c] eqn:Hcs; try lia.
  rewrite decide_True by lia.
  unfold QArith_base.Qlt, QArith_base.Qle, QArith_base.Qeq. simpl.
  split_and!; lia.
Qed.

(** ** The work functions of the module *)

Lemma lookup_all_seq {A} (x : A) (l : list A) :
  (λ i, default x (l !! i)) <$> seq 0 (length l) = l.
Proof.
  apply list_eq. intros i. rewrite list_lookup_fmap.
  destruct (decide (i < length l)%nat) as [Hlt|Hge].
  - rewrite lookup_seq_lt by done. simpl.
    destruct (lookup_lt_is_Some_2 l i Hlt) as [y Hy]. by rewrite Hy.
  - rewrite lookup_seq_ge by lia. simpl. symmetry.
    apply lookup_ge_None. lia.
Qed.

(** X14.  A processor that keeps the [process] of the base class, with a
    pool of at least one thread and a retry limit that is not negative:
    [run] returns; every task is COMPLETED at its first attempt with the
    task itself as [result]; and the output is a permutation of the
    input, in the order in which the futures were collected. *)
Theorem base_process_returns_the_tasks (d : nat → Z → Z) (vs : list value)
    (s0 : State) :
  0 < max_workers (self s0) → 0 ≤ retry (self s0) →
  (∃ s, reachable (base_tasks d vs) s0 s ∧ returned s)
  ∧ ∀ es s rs, exec es (run_begin (base_tasks d vs) s0) = Some s →
      main s = MReturned rs →
      rs ≡ₚ vs
      ∧ rs = (λ i, default VNone (vs !! i)) <$> collected_ids es
      ∧ ∀ i v, vs !! i = Some v →
          ∃ r, record_of s i = Some r ∧ status r = COMPLETED
               ∧ result r = v ∧ retry_count r = 0
               ∧ error_message r = None.
Proof.
  intros Hmw HR. split; [by apply run_returns|].
  intros es s rs He Hm.
  assert (Hr : reachable (base_tasks d vs) s0 s) by (by exists es).
  assert (Hret : returned s) by (by exists rs).
  assert (Hlen : length (base_tasks d vs) = length vs).
  { unfold base_tasks. apply length_imap. }
  assert (Hrec : ∀ i v, vs !! i = Some v →
            ∃ r, record_of s i = Some r ∧ status r = COMPLETED
                 ∧ result r = v ∧ retry_count r = 0
                 ∧ error_message r = None).
  { intros i v Hi.
    assert (Ht : base_tasks d vs !! i = Some (base_task (d i) v)).
    { unfold base_tasks. rewrite list_lookup_imap, Hi. done. }
    destruct (returned_record _ s0 s i _ Hr Hret Ht)
      as (r & w & o & Hrec & _ & _ & _ & _ & _ & Hs & Hc & _).
    destruct (settled_success _ _ _ 0 _ _ v Hs) as [-> Hk];
      [lia|apply failed_before_0|done|].
    simpl in Hc. destruct Hc as (? & ? & ?). by exists r. }
  destruct (returned_output _ s0 s es rs He Hm) as (_ & Hp & Hf).
  assert (Hrs : rs = (λ i, default VNone (vs !! i)) <$> collected_ids es).
  { apply list_eq. intros p. rewrite list_lookup_fmap.
    destruct (collected_ids es !! p) as [i|] eqn:Hi; simpl.
    - destruct (Forall2_lookup_l _ _ _ _ _ Hf Hi) as (x & Hx & r & Hri & Ho).
      rewrite Hx. f_equal.
      assert (Hlt : (i < length vs)%nat).
      { assert (Hin : i ∈ collected_ids es) by (by eapply list_elem_of_lookup_2).
        rewrite Hp in Hin. apply elem_of_seq in Hin. lia. }
      destruct (lookup_lt_is_Some_2 vs i Hlt) as [v Hv]. rewrite Hv. simpl.
      destruct (Hrec i v Hv) as (r' & Hr' & Hst & Hres & _).
      rewrite Hri in Hr'. injection Hr' as <-.
      destruct Ho as [[_ ->]|[[?|?] _]]; congruence.
    - apply lookup_ge_None. apply lookup_ge_None in Hi.
      apply Forall2_length in Hf. lia. }
  split_and!; [|done|done].
  rewrite Hrs, Hp, Hlen. by rewrite lookup_all_seq.
Qed.

(** The script calls [task_with_error] until a draw lets it through. *)
Lemma task_with_error_failed_before (d : Z → Z) (draw : Z → bool) (k : Z) :
  failed_before (task_with_error true d draw) k
  ↔ ∀ b, 0 ≤ b < k → draw b = true.
Proof.
  unfold failed_before, task_with_error. simpl. split.
  - intros Hf b Hb. destruct (Hf b Hb) as [e He].
    by destruct (draw b).
  - intros Hd b Hb. rewrite (Hd b Hb). by eexists.
Qed.

(** X15.  The two work functions of the module, processed by
    [MyTaskProcessor] in any batch, with a retry limit [R >= 0].  A
    [task_process] task ends COMPLETED at its first attempt with its
    message, after at least half a second.  A [task_with_error] task,
    when the name [random] is bound (the module run as a script), ends
    COMPLETED with its message at the first attempt whose draw lets it
    through, [retry_count] being the number of that attempt, or, when
    all [R + 1] draws fail, FAILED with the message of its [ValueError]
    and [retry_count = R]; it never ends TIMEOUT.  When the name
    [random] is not bound (the module imported), it ends FAILED after
    [R + 1] attempts, with the message of the [NameError]. *)
Theorem script_work_functions (tasks : list Task) (s0 s : State) (i : nat)
    (r : TaskResult) :
  0 ≤ retry (self s0) →
  reachable tasks s0 s → returned s → record_of s i = Some r →
  (tasks !! i = Some (MyTaskProcessor_process task_process) →
     status r = COMPLETED ∧ result r = VStr "我是task返回值"
     ∧ retry_count r = 0 ∧ error_message r = None
     ∧ ∃ ts te, start_time r = Some ts ∧ end_time r = Some te
                ∧ ts + 500 ≤ te)
  ∧ (∀ d draw,
       tasks !! i
       = Some (MyTaskProcessor_process (task_with_error true d draw)) →
       (status r = COMPLETED ∧ result r = VStr "任务成功"
        ∧ error_message r = None
        ∧ 0 ≤ retry_count r ≤ retry (self s0)
        ∧ draw (retry_count r) = false
        ∧ ∀ b, 0 ≤ b < retry_count r → draw b = true)
       ∨ (status r = FAILED ∧ result r = VNone
          ∧ error_message r = Some "随机错误"
          ∧ retry_count r = retry (self s0)
          ∧ ∀ b, 0 ≤ b ≤ retry (self s0) → draw b = true))
  ∧ (∀ d draw,
       tasks !! i
       = Some (MyTaskProcessor_process (task_with_error false d draw)) →
       status r = FAILED ∧ result r = VNone
       ∧ error_message r = Some "name 'random' is not defined"
       ∧ retry_count r = retry (self s0)).
Proof.
  intros HR Hr Hret Hrec.
  destruct (returned_record_of tasks s0 s i r Hr Hret Hrec)
    as (t & w & o & Hi & _ & _ & Hs & Hc & ts & te & Hts & Hte & _ & _ & Hlb).
  split_and!.
  - intros Hi'. rewrite Hi in Hi'. injection Hi' as ->.
    destruct (settled_success _ _ _ 0 _ _ (VStr "我是task返回值") Hs)
      as [-> Hk]; [lia|apply failed_before_0|done|].
    simpl in Hc. destruct Hc as (? & ? & ?). split_and!; try done.
    exists ts, te. split_and!; try done.
    destruct Hlb as [?|Hlb]; [lia|]. rewrite Hk in Hlb.
    unfold run_time in Hlb. rewrite elapsed_0 in Hlb. simpl in Hlb. lia.
  - intros d draw Hi'. rewrite Hi in Hi'. injection Hi' as ->.
    destruct o as [v|e]; simpl in Hs.
    + destruct Hs as [(Hk & Hf & Hv & _)|(? & _)]; [|lia].
      left. simpl in Hc. destruct Hc as (? & Hres & ?).
      simpl in Hv. destruct (draw (retry_count r)) eqn:Hdraw; [done|].
      injection Hv as <-. split_and!; try done; try lia.
      exact (proj1 (task_with_error_failed_before d draw (retry_count r)) Hf).
    + destruct Hs as (Hk & HkR & Hf & He & _).
      right. simpl in He. destruct (draw (retry_count r)) eqn:Hdraw; [|done].
      injection He as <-. simpl in Hc. destruct Hc as (? & ? & ?).
      split_and!; try done.
      intros b Hb. destruct (decide (b = retry_count r)) as [->|Hne]; [done|].
      apply (proj1 (task_with_error_failed_before d draw (retry_count r)) Hf).
      lia.
  - intros d draw Hi'. rewrite Hi in Hi'. injection Hi' as ->.
    destruct (settled_failure _ _ _ _ _ Hs HR) as (e & He & -> & Hk).
    { intros b _. by eexists. }
    simpl in He. injection He as <-. simpl in Hc.
    destruct Hc as (? & ? & ?). by split_and!.
Qed.

(** ** What [run] never does *)

(** X16.  For work functions whose every call ends, by returning or by
    raising an instance of [Exception] (the tasks of the embedding), no
    error of a work function leaves [run].  In every state of the call:
    if [run] has raised, the pool was configured with
    [max_workers <= 0], the error is the [ValueError] of the pool, and no
    work item was ever created; with [max_workers >= 1] the call is
    collecting or has returned, and as long as it is collecting there is
    a schedule that takes it to its return. *)
Theorem run_raises_only_for_an_empty_pool (tasks : list Task)
    (s0 s : State) :
  reachable tasks s0 s →
  (∀ e, main s = MRaised e →
     max_workers (self s0) ≤ 0 ∧ e = ThreadPoolExecutor_error
     ∧ workers s = [] ∧ results s = [])
  ∧ (0 < max_workers (self s0) → main s = MCollecting ∨ returned s)
  ∧ (main s = MCollecting →
     0 < max_workers (self s0)
     ∧ ∃ es s', exec es s = Some s' ∧ returned s').
Proof.
  intros Hr. pose proof (reachable_Inv _ _ _ Hr) as HI.
  pose proof (inv_main _ _ _ _ _ _ HI) as Hm.
  split_and!.
  - intros e He. rewrite He in Hm. destruct Hm as (Hmw & Hnil & ->).
    split_and!; try done.
    pose proof (inv_results _ _ _ _ _ _ HI) as Hres.
    destruct (results s) as [|x xs]; [done|].
    apply Forall2_cons_inv_r in Hres as (i & l & (w & o & Hw & _) & _).
    by rewrite Hnil in Hw.
  - intros Hmw. destruct (main s) as [| |rs|e] eqn:Hmain; try done.
    + by left.
    + right. by exists rs.
    + lia.
  - intros Hc. rewrite Hc in Hm. split; [by destruct Hm|].
    destruct (run_can_return _ _ _ _ _ s HI Hc) as (es & s' & rs & He & Hm').
    exists es, s'. split; [done | by exists rs].
Qed.

Lemma record_of_with_timeout (t : Z) (s : State) (i : nat) :
  record_of (with_timeout t s) i = record_of s i.
Proof. done. Qed.

(** X17.  The configured timeout has no effect on a [run]: the same
    schedule on a processor configured with any other timeout [t] goes
    through the same steps and ends with the same records, the same
    output and the same statistics. *)
Theorem timeout_changes_nothing (t : Z) (tasks : list Task) (s0 s : State)
    (es : list Event) :
  exec es (run_begin tasks s0) = Some s →
  ∃ s', exec es (run_begin tasks (with_timeout t s0)) = Some s'
    ∧ timeout (self s') = t
    ∧ main s' = main s ∧ results s' = results s ∧ workers s' = workers s
    ∧ now s' = now s
    ∧ (∀ i, record_of s' i = record_of s i)
    ∧ get_statistics s' = get_statistics s.
Proof.
  intros He. exists (with_timeout t s).
  rewrite timeout_is_never_consulted, He. done.
Qed.

(** * The further properties on concrete runs *)

(** The task that failed three times: the message on its record is that
    of the error its last attempt raised. *)
Lemma record_tells_what_the_work_function_did_witness :
  ∃ r, reachable [failing] demo_init failing_final
    ∧ record_of failing_final 0%nat = Some r
    ∧ error_message r = Some "boom"
    ∧ result r = VNone ∧ 0 ≤ retry (self demo_init)
    ∧ retry_count r = retry (self demo_init)
    ∧ failed_before failing (retry (self demo_init))
    ∧ ((status r = FAILED
        ∧ settles (failing (retry (self demo_init)))
          = Raises (PyException "boom"))
       ∨ (status r = TIMEOUT ∧ "boom" = timeout_message
          ∧ ∃ m', settles (failing (retry (self demo_init)))
                  = Raises (PyTimeoutError m'))).
Proof.
  exists (mkTaskResult 0 failing VNone FAILED (Some "boom") (Some 1000)
            (Some 1330) 2).
  assert (H1 : reachable [failing] demo_init failing_final).
  { exists run_failing. vm_compute. reflexivity. }
  assert (H2 : record_of failing_final 0%nat
            = Some (mkTaskResult 0 failing VNone FAILED (Some "boom")
                      (Some 1000) (Some 1330) 2)).
  { vm_compute. reflexivity. }
  destruct (record_tells_what_the_work_function_did [failing] demo_init
              failing_final 0%nat failing _ H1 eq_refl H2)
    as (_ & _ & _ & Herr).
  split; [exact H1|]. split; [exact H2|]. split; [reflexivity|].
  exact (Herr "boom" eq_refl).
Defined.

(** The task in its second attempt: RETRYING with [retry_count = 1]. *)
Lemma status_tells_the_attempt_witness :
  ∃ r, reachable [failing] demo_init failing_retrying
    ∧ record_of failing_retrying 0%nat = Some r
    ∧ retry_count r = 1
    ∧ (status r = RETRYING ∨ terminal (status r) = true)
    ∧ retry_count r ≤ retry (self demo_init).
Proof.
  exists (mkTaskResult 0 failing VNone RETRYING None (Some 1000) None 1).
  assert (H1 : reachable [failing] demo_init failing_retrying).
  { exists run_to_retry. vm_compute. reflexivity. }
  assert (H2 : record_of failing_retrying 0%nat
            = Some (mkTaskResult 0 failing VNone RETRYING None (Some 1000) None 1)).
  { vm_compute. reflexivity. }
  destruct (status_tells_the_attempt [failing] demo_init failing_retrying
              0%nat _ H1 H2) as (_ & _ & Hrc).
  split; [exact H1|]. split; [exact H2|]. split; [reflexivity|].
  apply Hrc. simpl. lia.
Defined.

(** The record of the task that failed three times, after [run]. *)
Lemma record_after_run_witness :
  ∃ r, reachable [failing] demo_init failing_final
    ∧ returned failing_final
    ∧ record_of failing_final 0%nat = Some r
    ∧ ((status r = COMPLETED ∧ error_message r = None)
       ∨ (status r = FAILED ∧ result r = VNone
          ∧ ∃ m, error_message r = Some m)
       ∨ (status r = TIMEOUT ∧ result r = VNone
          ∧ error_message r = Some timeout_message))
    ∧ ∃ ts te, start_time r = Some ts ∧ end_time r = Some te
               ∧ now demo_init ≤ ts ∧ ts ≤ te ∧ te ≤ now failing_final.
Proof.
  exists (mkTaskResult 0 failing VNone FAILED (Some "boom") (Some 1000)
            (Some 1330) 2).
  assert (H1 : reachable [failing] demo_init failing_final).
  { exists run_failing. vm_compute. reflexivity. }
  assert (H2 : returned failing_final).
  { exists [VNone]. vm_compute. reflexivity. }
  assert (H3 : record_of failing_final 0%nat
            = Some (mkTaskResult 0 failing VNone FAILED (Some "boom")
                      (Some 1000) (Some 1330) 2)).
  { vm_compute. reflexivity. }
  split; [exact H1|]. split; [exact H2|]. split; [exact H3|].
  exact (record_after_run [failing] demo_init failing_final 0%nat _ H1 H2 H3).
Defined.

(** The task that raised [TimeoutError] at both attempts: TIMEOUT tells
    that the last attempt raised a [TimeoutError]. *)
Lemma status_after_run_tells_the_cause_witness :
  ∃ r, 0 ≤ retry (self timing_out_init)
    ∧ reachable [timing_out] timing_out_init timing_out_final
    ∧ returned timing_out_final
    ∧ record_of timing_out_final 0%nat = Some r
    ∧ status r = TIMEOUT
    ∧ retry_count r = retry (self timing_out_init)
    ∧ ∃ m, settles (timing_out (retry_count r)) = Raises (PyTimeoutError m).
Proof.
  exists (mkTaskResult 0 timing_out VNone TIMEOUT (Some timeout_message)
            (Some 1000) (Some 1120) 1).
  assert (H0 : 0 ≤ retry (self timing_out_init)) by (simpl; lia).
  assert (H1 : reachable [timing_out] timing_out_init timing_out_final).
  { exists run_timing_out. vm_compute. reflexivity. }
  assert (H2 : returned timing_out_final).
  { exists [VNone]. vm_compute. reflexivity. }
  assert (H3 : record_of timing_out_final 0%nat
            = Some (mkTaskResult 0 timing_out VNone TIMEOUT
                      (Some timeout_message) (Some 1000) (Some 1120) 1)).
  { vm_compute. reflexivity. }
  destruct (status_after_run_tells_the_cause [timing_out] timing_out_init
              timing_out_final 0%nat timing_out _ H0 H1 H2 eq_refl H3)
    as (_ & _ & Hcause).
  split; [exact H0|]. split; [exact H1|]. split; [exact H2|].
  split; [exact H3|]. split; [reflexivity|]. exact Hcause.
Defined.


(** [retry = -1]: the batch is COMPLETED with [None] and the work
    function is not called. *)
Lemma negative_retry_never_calls_process_witness :
  0 < max_workers (self negative_retry_init)
  ∧ retry (self negative_retry_init) < 0
  ∧ (∃ s, reachable [failing] negative_retry_init s ∧ returned s)
  ∧ ∀ es s, exec es (run_begin [failing] negative_retry_init) = Some s →
      (∀ i w, workers s !! i = Some w → effects w = [])
      ∧ ∀ rs, main s = MReturned rs →
          rs = replicate (length [failing]) VNone
          ∧ ∀ i r, record_of s i = Some r →
              status r = COMPLETED ∧ result r = VNone
              ∧ error_message r = None ∧ retry_count r = 0.
Proof.
  assert (H1 : 0 < max_workers (self negative_retry_init)) by (simpl; lia).
  assert (H2 : retry (self negative_retry_init) < 0) by (simpl; lia).
  split; [exact H1|]. split; [exact H2|].
  exact (negative_retry_never_calls_process [failing] negative_retry_init
           H1 H2).
Defined.

(** Two retries: at least [100 + 200] milliseconds between [start_time]
    and [end_time]. *)
Lemma execution_time_covers_the_backoff_witness :
  ∃ r, 0 < now demo_init ∧ 0 ≤ retry (self demo_init)
    ∧ (∀ a, 0 ≤ duration (failing a))
    ∧ reachable [failing] demo_init failing_final
    ∧ returned failing_final
    ∧ record_of failing_final 0%nat = Some r
    ∧ retry_count r = 2
    ∧ ∃ ts te, start_time r = Some ts ∧ end_time r = Some te
               ∧ execution_time r = Some (te - ts)
               ∧ run_time failing (retry_count r) ≤ te - ts
               ∧ 50 * retry_count r * (retry_count r + 1) ≤ te - ts.
Proof.
  exists (mkTaskResult 0 failing VNone FAILED (Some "boom") (Some 1000)
            (Some 1330) 2).
  assert (H1 : 0 < now demo_init) by (simpl; lia).
  assert (H2 : 0 ≤ retry (self demo_init)) by (simpl; lia).
  assert (H3 : ∀ a, 0 ≤ duration (failing a)) by (intros a; simpl; lia).
  assert (H4 : reachable [failing] demo_init failing_final).
  { exists run_failing. vm_compute. reflexivity. }
  assert (H5 : returned failing_final).
  { exists [VNone]. vm_compute. reflexivity. }
  assert (H6 : record_of failing_final 0%nat
            = Some (mkTaskResult 0 failing VNone FAILED (Some "boom")
                      (Some 1000) (Some 1330) 2)).
  { vm_compute. reflexivity. }
  split; [exact H1|]. split; [exact H2|]. split; [exact H3|].
  split; [exact H4|]. split; [exact H5|]. split; [exact H6|].
  split; [reflexivity|].
  exact (execution_time_covers_the_backoff [failing] demo_init failing_final
           0%nat failing _ H1 H2 H3 H4 H5 eq_refl H6).
Defined.

(** From the second attempt of the task to the end of [run]. *)
Lemma records_only_move_forward_witness :
  ∃ r, reachable [failing] demo_init failing_retrying
    ∧ exec run_after_retry failing_retrying = Some failing_final
    ∧ record_of failing_retrying 0%nat = Some r
    ∧ ∃ r', record_of failing_final 0%nat = Some r'
        ∧ task_id r' = task_id r ∧ original_task r' = original_task r
        ∧ retry_count r ≤ retry_count r'
        ∧ (∀ ts, start_time r = Some ts → start_time r' = Some ts)
        ∧ status_rank (status r) ≤ status_rank (status r')
        ∧ (is_Some (end_time r) → r' = r).
Proof.
  exists (mkTaskResult 0 failing VNone RETRYING None (Some 1000) None 1).
  assert (H1 : reachable [failing] demo_init failing_retrying).
  { exists run_to_retry. vm_compute. reflexivity. }
  assert (H2 : exec run_after_retry failing_retrying = Some failing_final).
  { vm_compute. reflexivity. }
  assert (H3 : record_of failing_retrying 0%nat
            = Some (mkTaskResult 0 failing VNone RETRYING None (Some 1000) None 1)).
  { vm_compute. reflexivity. }
  split; [exact H1|]. split; [exact H2|]. split; [exact H3|].
  exact (records_only_move_forward [failing] demo_init failing_retrying
           failing_final run_after_retry 0%nat _ H1 H2 H3).
Defined.

Lemma store_wf_snap_state : store_wf (store snap_state).
Proof.
  apply (store_wf_reachable [failing] demo_init).
  - apply store_wf_init_state, store_wf_store0.
  - exists run_failing. vm_compute. reflexivity.
Qed.

(** The snapshot taken after [run([failing])] still shows the FAILED
    record after [run([quick])] on the same processor. *)
Lemma snapshot_survives_the_next_run_witness :
  store_wf (store snap_state)
  ∧ main snap_state ≠ MCollecting
  ∧ get_task_status snap_state = Some (snap_taken.1, snap_taken.2)
  ∧ reachable [quick] snap_taken.2 second_final
  ∧ main second_final = MReturned [VInt 7]
  ∧ dict_view snap_taken.1 second_final = engine_tasks snap_state
  ∧ dict_view (task_results (self snap_state)) second_final
    = engine_tasks snap_state
  ∧ task_results (self second_final) ≠ snap_taken.1
  ∧ task_results (self second_final) ≠ task_results (self snap_state).
Proof.
  assert (H1 : get_task_status snap_state = Some (snap_taken.1, snap_taken.2)).
  { vm_compute. reflexivity. }
  assert (H2 : reachable [quick] snap_taken.2 second_final).
  { exists run_quick. vm_compute. reflexivity. }
  assert (H0 : main snap_state ≠ MCollecting).
  { intros Hm. vm_compute in Hm. discriminate Hm. }
  split; [exact store_wf_snap_state|]. split; [exact H0|].
  split; [exact H1|]. split; [exact H2|].
  split; [vm_compute; reflexivity|].
  exact (snapshot_survives_the_next_run snap_state snap_taken.1 snap_taken.2
           [quick] second_final store_wf_snap_state H0 H1 H2).
Defined.

(** Before any task has started, the total time is minus infinity. *)
Lemma statistics_total_time_is_never_inf_witness :
  get_statistics (run_begin [failing] demo_init)
  = Some (Stats 1 0 {[PENDING := 1]} NInf)
  ∧ ∃ rs, dict_values (run_begin [failing] demo_init) = Some rs ∧ rs ≠ []
      ∧ NInf ≠ PInf
      ∧ (NInf = NInf ↔ Forall (λ r, truthy (start_time r) = false) rs)
      ∧ (NInf ≠ NInf →
         ∃ r1 r2 ts, r1 ∈ rs ∧ r2 ∈ rs ∧ start_time r2 = Some ts
                     ∧ NInf = Fin (end_or_0 r1 - ts)).
Proof.
  assert (H1 : get_statistics (run_begin [failing] demo_init)
               = Some (Stats 1 0 {[PENDING := 1]} NInf)).
  { vm_compute. reflexivity. }
  split; [exact H1|].
  exact (statistics_total_time_is_never_inf _ _ _ _ _ H1).
Defined.

(** [run([failing])] on a processor constructed with
    [max_workers = 0]. *)
Lemma statistics_after_run_raised_witness :
  max_workers (self no_pool_init) ≤ 0
  ∧ [failing] ≠ []
  ∧ reachable [failing] no_pool_init (run_begin [failing] no_pool_init)
  ∧ main (run_begin [failing] no_pool_init) = MRaised ThreadPoolExecutor_error
  ∧ get_statistics (run_begin [failing] no_pool_init)
    = Some (Stats (Z.of_nat (length [failing])) 0
              {[PENDING := Z.of_nat (length [failing])]} NInf).
Proof.
  assert (H1 : max_workers (self no_pool_init) ≤ 0) by (simpl; lia).
  assert (H2 : [failing] ≠ []) by discriminate.
  assert (H3 : reachable [failing] no_pool_init
                 (run_begin [failing] no_pool_init)).
  { by exists []. }
  split; [exact H1|]. split; [exact H2|]. split; [exact H3|].
  exact (statistics_after_run_raised [failing] no_pool_init _ H1 H2 H3).
Defined.

(** The report after the first of two tasks is collected: 50 percent. *)
Lemma progress_report_is_a_percentage_witness :
  reachable [failing; quick] demo_init two_before_collect
  ∧ collect_step 1%nat two_before_collect = Some two_after_collect
  ∧ QArith_base.Qeq (report_progress (self two_after_collect))
      (QArith_base.inject_Z 50)
  ∧ 0 < total_tasks (self two_after_collect)
  ∧ completed_tasks (self two_after_collect)
    = completed_tasks (self two_before_collect) + 1
  ∧ 1 ≤ completed_tasks (self two_after_collect)
      ≤ total_tasks (self two_after_collect)
  ∧ QArith_base.Qlt (QArith_base.inject_Z 0)
      (report_progress (self two_after_collect))
  ∧ QArith_base.Qle (report_progress (self two_after_collect))
      (QArith_base.inject_Z 100)
  ∧ (QArith_base.Qeq (report_progress (self two_after_collect))
       (QArith_base.inject_Z 100)
     ↔ completed_tasks (self two_after_collect)
       = total_tasks (self two_after_collect)).
Proof.
  assert (H1 : reachable [failing; quick] demo_init two_before_collect).
  { exists run_two_first. vm_compute. reflexivity. }
  assert (H2 : collect_step 1%nat two_before_collect = Some two_after_collect).
  { vm_compute. reflexivity. }
  split; [exact H1|]. split; [exact H2|]. split; [vm_compute; reflexivity|].
  exact (progress_report_is_a_percentage [failing; quick] demo_init
           two_before_collect two_after_collect 1%nat H1 H2).
Defined.

(** The base class on the batch [[1; "a"]]. *)
Lemma base_process_returns_the_tasks_witness :
  0 < max_workers (self demo_init) ∧ 0 ≤ retry (self demo_init)
  ∧ (∃ s, reachable (base_tasks (λ _ _, 10) [VInt 1; VStr "a"]) demo_init s
          ∧ returned s)
  ∧ ∀ es s rs,
      exec es (run_begin (base_tasks (λ _ _, 10) [VInt 1; VStr "a"]) demo_init)
      = Some s →
      main s = MReturned rs →
      rs ≡ₚ [VInt 1; VStr "a"]
      ∧ rs = (λ i, default VNone ([VInt 1; VStr "a"] !! i)) <$> collected_ids es
      ∧ ∀ i v, [VInt 1; VStr "a"] !! i = Some v →
          ∃ r, record_of s i = Some r ∧ status r = COMPLETED
               ∧ result r = v ∧ retry_count r = 0
               ∧ error_message r = None.
Proof.
  assert (H1 : 0 < max_workers (self demo_init)) by (simpl; lia).
  assert (H2 : 0 ≤ retry (self demo_init)) by (simpl; lia).
  split; [exact H1|]. split; [exact H2|].
  exact (base_process_returns_the_tasks (λ _ _, 10) [VInt 1; VStr "a"]
           demo_init H1 H2).
Defined.

(** The script: two [task_process] and three [task_with_error], the
    first of which fails at its three attempts. *)
Lemma script_work_functions_witness :
  ∃ r, 0 ≤ retry (self (script_init 1000))
    ∧ reachable script_batch (script_init 1000) script_final
    ∧ returned script_final
    ∧ main script_final
      = MReturned [VNone; VStr "任务成功"; VStr "任务成功";
                   VStr "我是task返回值"; VStr "我是task返回值"]
    ∧ record_of script_final 2%nat = Some r
    ∧ status r = FAILED
    ∧ ((status r = COMPLETED ∧ result r = VStr "任务成功"
        ∧ error_message r = None
        ∧ 0 ≤ retry_count r ≤ retry (self (script_init 1000))
        ∧ script_draw 0 (retry_count r) = false
        ∧ ∀ b, 0 ≤ b < retry_count r → script_draw 0 b = true)
       ∨ (status r = FAILED ∧ result r = VNone
          ∧ error_message r = Some "随机错误"
          ∧ retry_count r = retry (self (script_init 1000))
          ∧ ∀ b, 0 ≤ b ≤ retry (self (script_init 1000)) →
                 script_draw 0 b = true)).
Proof.
  exists (mkTaskResult 2
            (MyTaskProcessor_process
               (task_with_error true (λ _, 0) (script_draw 0)))
            VNone FAILED (Some "随机错误") (Some 1000) (Some 1500) 2).
  assert (H0 : 0 ≤ retry (self (script_init 1000))) by (simpl; lia).
  assert (H1 : reachable script_batch (script_init 1000) script_final).
  { exists run_script. vm_compute. reflexivity. }
  assert (H2 : returned script_final).
  { eexists. vm_compute. reflexivity. }
  assert (H3 : record_of script_final 2%nat
            = Some (mkTaskResult 2
                      (MyTaskProcessor_process
                         (task_with_error true (λ _, 0) (script_draw 0)))
                      VNone FAILED (Some "随机错误") (Some 1000) (Some 1500) 2)).
  { vm_compute. reflexivity. }
  destruct (script_work_functions script_batch (script_init 1000) script_final
              2%nat _ H0 H1 H2 H3) as (_ & Hwe & _).
  split; [exact H0|]. split; [exact H1|]. split; [exact H2|].
  split; [vm_compute; reflexivity|]. split; [exact H3|].
  split; [reflexivity|].
  exact (Hwe (λ _, 0) (script_draw 0) eq_refl).
Defined.

(** While the task is in its second attempt, [run] has not raised and can
    still return. *)
Lemma run_raises_only_for_an_empty_pool_witness :
  reachable [failing] demo_init failing_retrying
  ∧ main failing_retrying = MCollecting
  ∧ 0 < max_workers (self demo_init)
  ∧ ∃ es s', exec es failing_retrying = Some s' ∧ returned s'.
Proof.
  assert (H1 : reachable [failing] demo_init failing_retrying).
  { exists run_to_retry. vm_compute. reflexivity. }
  assert (H2 : main failing_retrying = MCollecting).
  { vm_compute. reflexivity. }
  destruct (run_raises_only_for_an_empty_pool [failing] demo_init
              failing_retrying H1) as (_ & _ & Hc).
  split; [exact H1|]. split; [exact H2|]. exact (Hc H2).
Defined.

(** The slow task under a timeout of 10 milliseconds and under one of
    5 seconds: the same run, COMPLETED in both. *)
Lemma timeout_changes_nothing_witness :
  exec run_slow (run_begin [slow_task] slow_init) = Some slow_final
  ∧ status <$> record_of slow_final 0%nat = Some COMPLETED
  ∧ ∃ s', exec run_slow (run_begin [slow_task] (with_timeout 5000 slow_init))
          = Some s'
      ∧ timeout (self s') = 5000
      ∧ main s' = main slow_final ∧ results s' = results slow_final
      ∧ workers s' = workers slow_final
      ∧ now s' = now slow_final
      ∧ (∀ i, record_of s' i = record_of slow_final i)
      ∧ get_statistics s' = get_statistics slow_final.
Proof.
  assert (H1 : exec run_slow (run_begin [slow_task] slow_init)
               = Some slow_final).
  { vm_compute. reflexivity. }
  split; [exact H1|]. split; [vm_compute; reflexivity|].
  exact (timeout_changes_nothing 5000 [slow_task] slow_init slow_final
           run_slow H1).
Defined.
